(** * Divergence tooling of the emulator test bench, embedded in Rocq

    The six comparison scripts under [tools/] are embedded function by
    function: Python [int] is [Z], [str] is [string] (ASCII), [bytes] is
    a list of [byte], a [dict] is a [gmap], an exception is the [Raise]
    branch of [result], [print] appends one record to an output log. *)

From Stdlib Require Import ZArith QArith Floats Ascii String List.
From Stdlib Require Import Sorted.
From Stdlib.Strings Require Import Byte.
From stdpp Require Import gmap strings list fin_maps pretty.

Set Warnings "-inexact-float".
#[local] Open Scope Z_scope.

(** ** Python runtime: exceptions *)

Inductive exn : Set :=
| ValueError
| IndexError
| KeyError
| ZeroDivisionError
| OverflowError
| FileNotFoundError.

Inductive result (A : Type) : Type :=
| Ok (a : A)
| Raise (e : exn).
Arguments Ok {A} a.
Arguments Raise {A} e.

#[global] Instance exn_eq_dec : EqDecision exn.
Proof. solve_decision. Defined.
#[global] Instance result_eq_dec {A : Type} `{EqDecision A} : EqDecision (result A).
Proof. solve_decision. Defined.

#[global] Instance result_ret : MRet result := fun A a => Ok a.
#[global] Instance result_bind : MBind result := fun A B k r =>
  match r with
  | Ok a => k a
  | Raise e => Raise e
  end.

Definition is_Ok {A : Type} (r : result A) : Prop := ∃ a, r = Ok a.

(** ** Python runtime: [str] methods (ASCII) *)

Module PyStr.

(** [str.isspace] on one ASCII character: TAB, LF, VT, FF, CR, the four
    separators 0x1C..0x1F and the space. *)
Definition is_space (c : ascii) : bool :=
  let n := N_of_ascii c in
  ((9 <=? n) && (n <=? 13) || (28 <=? n) && (n <=? 32))%N.

(** The white space of the interpreter's number parser: TAB, LF, VT, FF,
    CR and the space, without the four separators. *)
Definition is_cspace (c : ascii) : bool :=
  let n := N_of_ascii c in
  ((9 <=? n) && (n <=? 13) || (n =? 32))%N.

Section Strip.
Variable drop_it : ascii → bool.

Fixpoint lstrip_by (s : string) : string :=
  match s with
  | String c s' => if drop_it c then lstrip_by s' else s
  | EmptyString => EmptyString
  end.

(** A character is kept when it is not dropped or when something is
    kept after it. *)
Fixpoint rstrip_by (s : string) : string :=
  match s with
  | String c s' =>
      match rstrip_by s' with
      | EmptyString => if drop_it c then EmptyString else String c EmptyString
      | r => String c r
      end
  | EmptyString => EmptyString
  end.

Definition strip_by (s : string) : string := rstrip_by (lstrip_by s).
End Strip.

(** [s.strip()] *)
Definition strip (s : string) : string := strip_by is_space s.

(** [s.rstrip("\n")] *)
Definition rstrip_nl (s : string) : string :=
  rstrip_by (fun c => Ascii.eqb c "010") s.

Definition lower_char (c : ascii) : ascii :=
  let n := N_of_ascii c in
  if ((65 <=? n) && (n <=? 90))%N then ascii_of_N (n + 32) else c.

Fixpoint lower (s : string) : string :=
  match s with
  | String c s' => String (lower_char c) (lower s')
  | EmptyString => EmptyString
  end.

Definition startswith (s p : string) : bool := String.prefix p s.

(** [s[n:]] *)
Fixpoint drop (n : nat) (s : string) : string :=
  match n, s with
  | O, _ => s
  | S n', String _ s' => drop n' s'
  | S _, EmptyString => EmptyString
  end.

(** [sep in s] for a one-character [sep] *)
Fixpoint contains (sep : ascii) (s : string) : bool :=
  match s with
  | String c s' => Ascii.eqb c sep || contains sep s'
  | EmptyString => false
  end.

(** [s.split(sep)] for a one-character [sep]: never empty. *)
Fixpoint split (sep : ascii) (s : string) : list string :=
  match s with
  | String c s' =>
      if Ascii.eqb c sep then EmptyString :: split sep s'
      else match split sep s' with
           | seg :: segs => String c seg :: segs
           | [] => [String c EmptyString]
           end
  | EmptyString => [EmptyString]
  end.

(** [s.split(sep, 1)] when [sep in s]: the text before the first [sep]
    and the text after it. *)
Fixpoint split1 (sep : ascii) (s : string) : string * string :=
  match s with
  | String c s' =>
      if Ascii.eqb c sep then (EmptyString, s')
      else let '(k, v) := split1 sep s' in (String c k, v)
  | EmptyString => (EmptyString, EmptyString)
  end.

(** ["0" * width] *)
Fixpoint zeros (width : nat) : string :=
  match width with
  | O => EmptyString
  | S w => String "0" (zeros w)
  end.

End PyStr.

(** ** Python runtime: [int(text, base)] and [format(n, "0{w}X")] *)

Module PyInt.
Import PyStr.

(** Value of a character as a digit (0-9, then letters of either case
    for 10..35). *)
Definition digit_value (c : ascii) : option Z :=
  let n := N_of_ascii c in
  if ((48 <=? n) && (n <=? 57))%N then Some (Z.of_N n - 48)
  else if ((97 <=? n) && (n <=? 122))%N then Some (Z.of_N n - 87)
  else if ((65 <=? n) && (n <=? 90))%N then Some (Z.of_N n - 55)
  else None.

(** The digit run of the literal: digits below [base], single
    underscores between them only.  [prev_us] tells that the previous
    character was an underscore; [acc] is the value so far. *)
Fixpoint scan_digits (base : Z) (prev_us : bool) (acc : Z) (s : string)
  : option Z :=
  match s with
  | EmptyString => if prev_us then None else Some acc
  | String c s' =>
      if Ascii.eqb c "_" then
        if prev_us then None else scan_digits base true acc s'
      else
        match digit_value c with
        | Some d =>
            if d <? base then scan_digits base false (acc * base + d) s'
            else None
        | None => None
        end
  end.

(** After sign and prefix: not empty, not starting with an underscore. *)
Definition parse_body (base : Z) (s : string) : option Z :=
  match s with
  | EmptyString => None
  | String c _ => if Ascii.eqb c "_" then None else scan_digits base false 0 s
  end.

(** The optional base prefix, honoured for base 16 only ([0x] or [0X]),
    and the one underscore allowed right after it. *)
Definition skip_prefix (base : Z) (s : string) : string :=
  match s with
  | String "0" (String c rest) =>
      if (base =? 16) && (Ascii.eqb c "x" || Ascii.eqb c "X") then
        match rest with
        | String "_" rest' => rest'
        | _ => rest
        end
      else s
  | _ => s
  end.

(** [int(text, base)] for [base] 10 or 16.  Surrounding white space (of
    the number parser) is dropped, one sign is accepted.  [None] is
    [ValueError].  The interpreter's configurable cap on the length of
    decimal literals is not part of the model. *)
Definition int_of_str (base : Z) (text : string) : option Z :=
  let s := strip_by is_cspace text in
  let '(neg, s1) :=
    match s with
    | String "-" r => (true, r)
    | String "+" r => (false, r)
    | _ => (false, s)
    end in
  match parse_body base (skip_prefix base s1) with
  | Some v => Some (if neg then - v else v)
  | None => None
  end.

Definition hex_char (d : Z) : ascii :=
  if d <? 10 then ascii_of_N (Z.to_N (d + 48)) else ascii_of_N (Z.to_N (d + 55)).

(** Upper-case hexadecimal digits of [n], most significant first, put in
    front of [acc]; [fuel] bounds the number of digits. *)
Fixpoint hex_go (fuel : nat) (n : Z) (acc : string) : string :=
  match fuel with
  | O => acc
  | S fuel' =>
      let acc' := String (hex_char (n mod 16)) acc in
      if n <? 16 then acc' else hex_go fuel' (n / 16) acc'
  end.

Definition hex_upper (n : Z) : string :=
  hex_go (S (Z.to_nat (Z.log2 n))) n EmptyString.

(** [format(n, "0{width}X")]: sign first, then zeros up to [width]
    characters in all, then the digits. *)
Definition format_0X (n : Z) (width : nat) : string :=
  let digits := hex_upper (Z.abs n) in
  let sign := if n <? 0 then "-" else "" in
  let pad := (width - String.length sign - String.length digits)%nat in
  sign +:+ zeros pad +:+ digits.

End PyInt.

(** ** Shared shapes of the command-line tools *)

(** How a run of a tool ends: [main] returned a status, an exception left
    [main] (the interpreter prints it and exits with 1), or the argument
    parser rejected the command line ([parser.error], status 2). *)
Inductive outcome : Set :=
| Returned (status : Z)
| Uncaught (e : exn)
| ParserError (msg : string).

Definition exit_status (o : outcome) : Z :=
  match o with
  | Returned status => status
  | Uncaught _ => 1
  | ParserError _ => 2
  end.

(** [range(lo, hi)] *)
Definition range (lo hi : Z) : list Z :=
  map (fun k => lo + Z.of_nat k) (seq 0 (Z.to_nat (hi - lo))).

(** A [for] loop whose body may raise: the state is threaded through the
    elements in order and the first exception ends the loop. *)
Fixpoint for_each {A S : Type} (body : S → A → result S) (xs : list A) (s : S)
  : result S :=
  match xs with
  | [] => Ok s
  | x :: xs' => s' ← body s x; for_each body xs' s'
  end.

(** [fields.get(key, dflt)] *)
Definition dict_get (fields : gmap string string) (key dflt : string) : string :=
  default dflt (fields !! key).

(** The body shared by every [parse_fields]: segments with an [=] are
    split at the first one and stored, later keys overwrite earlier. *)
Definition store_segments (segments : list string) : gmap string string :=
  foldl (fun fields segment =>
           if PyStr.contains "=" segment then
             let '(key, value) := PyStr.split1 "=" segment in
             <[key := value]> fields
           else fields)
        ∅ segments.

(** ** tools/diff_apu_trace.py *)

Module ApuTrace.
Import PyStr PyInt.

Record TraceEvent : Type := {
  index : nat;
  ev : string;
  addr : string;
  value : string;
  raw : string;
  fields : gmap string string;
}.

Definition parse_fields (line : string) : gmap string string :=
  store_segments (split "|" (strip line)).

Definition normalize_hex (value : string) (width : nat) : result string :=
  let value := lower (strip value) in
  let value := if startswith value "0x" then drop 2 value else value in
  if String.eqb value "" then Ok (zeros width)
  else match int_of_str 16 value with
       | Some n => Ok (format_0X n width)
       | None => Raise ValueError
       end.

Definition allowed_events (include_read_mem : bool) : gset string :=
  if include_read_mem then {["read"; "write"]} ∪ {["read_mem"]}
  else {["read"; "write"]}.

(** One turn of the [for line in f] loop of [parse_events]. *)
Definition parse_events_step (include_read_mem : bool)
    (events : list TraceEvent) (line : string) : result (list TraceEvent) :=
  if negb (startswith line "APUTRACE|") then Ok events
  else
    let fields := parse_fields line in
    let ev := dict_get fields "ev" "" in
    if negb (bool_decide (ev ∈ allowed_events include_read_mem)) then Ok events
    else
      let addr_raw := dict_get fields "addr" "" in
      if String.eqb addr_raw "" then Ok events
      else
        addr ← normalize_hex addr_raw 4;
        let value_raw := dict_get fields "value" "00" in
        value ← normalize_hex value_raw 2;
        Ok (events ++ [ {| index := length events; ev := ev; addr := addr;
                           value := value; raw := rstrip_nl line;
                           fields := fields |} ]).

(** The trace file is given as the lines its iterator yields. *)
Definition parse_events (lines : list string) (include_read_mem : bool)
  : result (list TraceEvent) :=
  for_each (parse_events_step include_read_mem) lines [].

(** One record per [print] call. *)
Inductive out : Type :=
| PLoaded (n_mesen n_nesium : nat)
| PFirstMismatchFound
| PIndex (idx : nat)
| PSide (name : string) (e_ev e_addr e_value : string)
| PBlank
| PContextHeader (name : string) (start stop : Z)
| PContextRow (marked : bool) (idx : Z) (evt : TraceEvent)
| PEventCountMismatch
| PEventCount (name : string) (n : nat)
| PNoMismatch (common : nat).

Definition print_context (name : string) (events : list TraceEvent)
    (center radius : Z) : list out :=
  let start := Z.max 0 (center - radius) in
  let stop := Z.min (Z.of_nat (length events)) (center + radius + 1) in
  PContextHeader name start stop ::
  flat_map (fun idx =>
              match events !! Z.to_nat idx with
              | Some evt => [PContextRow (idx =? center) idx evt]
              | None => []
              end)
           (range start stop).

(** The comparison key of [compare_events]. *)
Definition key_differs (m n : TraceEvent) : bool :=
  negb (String.eqb (ev m) (ev n) && String.eqb (addr m) (addr n)
        && String.eqb (value m) (value n)).

(** [for idx in range(common)] over [mesen_events[idx]] and
    [nesium_events[idx]] up to the first differing key. *)
Fixpoint first_differing (idx : nat) (ms ns : list TraceEvent)
  : option (nat * TraceEvent * TraceEvent) :=
  match ms, ns with
  | m :: ms', n :: ns' =>
      if key_differs m n then Some (idx, m, n)
      else first_differing (S idx) ms' ns'
  | _, _ => None
  end.

Definition compare_events (mesen_events nesium_events : list TraceEvent)
    (context : Z) : list out * Z :=
  let common := Nat.min (length mesen_events) (length nesium_events) in
  match first_differing 0 mesen_events nesium_events with
  | Some (idx, m, n) =>
      ([PFirstMismatchFound; PIndex idx;
        PSide "mesen" (ev m) (addr m) (value m);
        PSide "nesium" (ev n) (addr n) (value n);
        PBlank]
       ++ print_context "mesen" mesen_events (Z.of_nat idx) context
       ++ [PBlank]
       ++ print_context "nesium" nesium_events (Z.of_nat idx) context,
       1)
  | None =>
      if negb (length mesen_events =? length nesium_events)%nat then
        ([PEventCountMismatch;
          PEventCount "mesen" (length mesen_events);
          PEventCount "nesium" (length nesium_events)], 1)
      else ([PNoMismatch common], 0)
  end.

(** Parsed command line; a trace that cannot be opened is [None]. *)
Record Args : Type := {
  mesen : option (list string);
  nesium : option (list string);
  context : Z;
  include_read_mem : bool;
}.

Definition open_trace (file : option (list string)) : result (list string) :=
  match file with
  | Some lines => Ok lines
  | None => Raise FileNotFoundError
  end.

Definition main (args : Args) : list out * outcome :=
  match
    mesen_lines ← open_trace (mesen args);
    mesen_events ← parse_events mesen_lines (include_read_mem args);
    nesium_lines ← open_trace (nesium args);
    nesium_events ← parse_events nesium_lines (include_read_mem args);
    Ok (mesen_events, nesium_events)
  with
  | Raise e => ([], Uncaught e)
  | Ok (mesen_events, nesium_events) =>
      let '(printed, status) :=
        compare_events mesen_events nesium_events (context args) in
      (PLoaded (length mesen_events) (length nesium_events) :: printed,
       Returned status)
  end.

End ApuTrace.

(** ** tools/diff_nmi_trace.py *)

Module NmiTrace.
Import PyStr PyInt.

Record TraceEvent : Type := {
  index : nat;
  ev : string;
  addr : option string;
  value : option string;
  raw : string;
  fields : gmap string string;
}.

Definition parse_fields (line : string) : gmap string string :=
  store_segments (split "|" (strip line)).

Definition normalize_hex (value : string) (width : nat) : result string :=
  let value := lower (strip value) in
  let value := if startswith value "0x" then drop 2 value else value in
  if String.eqb value "" then Ok (zeros width)
  else match int_of_str 16 value with
       | Some n => Ok (format_0X n width)
       | None => Raise ValueError
       end.

Definition normalize_event (src ev : string) : option string :=
  if bool_decide (ev ∈ ({["read"; "write"]} : gset string)) then Some ev
  else if String.eqb src "mesen" && String.eqb ev "nmi_event" then Some "nmi_take"
  else if String.eqb src "nesium" && String.eqb ev "nmi_take" then Some "nmi_take"
  else None.

(** One turn of the [for line in f] loop of [parse_events]. *)
Definition parse_events_step (events : list TraceEvent) (line : string)
  : result (list TraceEvent) :=
  if negb (startswith line "NMITRACE|") then Ok events
  else
    let fields := parse_fields line in
    let src := dict_get fields "src" "" in
    let ev := dict_get fields "ev" "" in
    match normalize_event src ev with
    | None => Ok events
    | Some norm_ev =>
        let addr := fields !! "addr" in
        let value := fields !! "value" in
        let append addr value :=
          Ok (events ++ [ {| index := length events; ev := norm_ev;
                             addr := addr; value := value;
                             raw := rstrip_nl line; fields := fields |} ]) in
        if bool_decide (norm_ev ∈ ({["read"; "write"]} : gset string)) then
          match addr, value with
          | Some addr, Some value =>
              addr ← normalize_hex addr 4;
              value ← normalize_hex value 2;
              append (Some addr) (Some value)
          | _, _ => Ok events
          end
        else append None None
    end.

Definition parse_events (lines : list string) : result (list TraceEvent) :=
  for_each parse_events_step lines [].

Definition key_of (event : TraceEvent)
  : string * option string * option string :=
  (ev event, addr event, value event).

Inductive out : Type :=
| PLoaded (n_mesen n_nesium : nat)
| PFirstMismatchFound
| PIndex (idx : nat)
| PSide (name : string) (key : string * option string * option string)
| PBlank
| PContextHeader (name : string) (start stop : Z)
| PContextRow (marked : bool) (idx : Z) (evt : TraceEvent)
| PEventCountMismatch
| PEventCount (name : string) (n : nat)
| PNoMismatch (common : nat).

Definition print_context (name : string) (events : list TraceEvent)
    (center radius : Z) : list out :=
  let start := Z.max 0 (center - radius) in
  let stop := Z.min (Z.of_nat (length events)) (center + radius + 1) in
  PContextHeader name start stop ::
  flat_map (fun idx =>
              match events !! Z.to_nat idx with
              | Some evt => [PContextRow (idx =? center) idx evt]
              | None => []
              end)
           (range start stop).

Fixpoint first_differing (idx : nat) (ms ns : list TraceEvent)
  : option (nat * TraceEvent * TraceEvent) :=
  match ms, ns with
  | m :: ms', n :: ns' =>
      if negb (bool_decide (key_of m = key_of n)) then Some (idx, m, n)
      else first_differing (S idx) ms' ns'
  | _, _ => None
  end.

Definition compare_events (mesen_events nesium_events : list TraceEvent)
    (context : Z) : list out * Z :=
  let common := Nat.min (length mesen_events) (length nesium_events) in
  match first_differing 0 mesen_events nesium_events with
  | Some (idx, m, n) =>
      ([PFirstMismatchFound; PIndex idx;
        PSide "mesen" (key_of m); PSide "nesium" (key_of n); PBlank]
       ++ print_context "mesen" mesen_events (Z.of_nat idx) context
       ++ [PBlank]
       ++ print_context "nesium" nesium_events (Z.of_nat idx) context,
       1)
  | None =>
      if negb (length mesen_events =? length nesium_events)%nat then
        ([PEventCountMismatch;
          PEventCount "mesen" (length mesen_events);
          PEventCount "nesium" (length nesium_events)], 1)
      else ([PNoMismatch common], 0)
  end.

Record Args : Type := {
  mesen : option (list string);
  nesium : option (list string);
  context : Z;
}.

Definition open_trace (file : option (list string)) : result (list string) :=
  match file with
  | Some lines => Ok lines
  | None => Raise FileNotFoundError
  end.

Definition main (args : Args) : list out * outcome :=
  match
    mesen_lines ← open_trace (mesen args);
    mesen_events ← parse_events mesen_lines;
    nesium_lines ← open_trace (nesium args);
    nesium_events ← parse_events nesium_lines;
    Ok (mesen_events, nesium_events)
  with
  | Raise e => ([], Uncaught e)
  | Ok (mesen_events, nesium_events) =>
      let '(printed, status) :=
        compare_events mesen_events nesium_events (context args) in
      (PLoaded (length mesen_events) (length nesium_events) :: printed,
       Returned status)
  end.

End NmiTrace.

(** ** tools/compare_ppu_reg_traces.py *)

Module PpuReg.
Import PyStr PyInt.

Record Event : Type := {
  raw : string;
  src : string;
  ev : string;
  cpu_cycle : Z;
  frame : Z;
  scanline : Z;
  dot : Z;
  addr : Z;
  value : Z;
  v : Z;
  t : Z;
  x : Z;
}.

(** The closure [get_int] of [parse_line]: a missing key and a text that
    [int] rejects both give -1. *)
Definition get_int (fields : gmap string string) (name : string) (base : Z) : Z :=
  match fields !! name with
  | None => -1
  | Some v =>
      match int_of_str base v with
      | Some n => n
      | None => -1
      end
  end.

Definition parse_line (line : string) : option Event :=
  let line := strip line in
  if String.eqb line "" || negb (startswith line "PPUREG|") then None
  else
    let fields := store_segments (tail (split "|" line)) in
    if negb (bool_decide (fields !! "ev" = Some "write")) then None
    else
      Some {| raw := line;
              src := dict_get fields "src" "";
              ev := dict_get fields "ev" "";
              cpu_cycle := get_int fields "cpu_cycle" 10;
              frame := get_int fields "frame" 10;
              scanline := get_int fields "scanline" 10;
              dot := get_int fields "dot" 10;
              addr := get_int fields "addr" 16;
              value := get_int fields "value" 16;
              v := get_int fields "v" 16;
              t := get_int fields "t" 16;
              x := get_int fields "x" 16 |}.

(** The trace file is given as the lines of [splitlines()]. *)
Definition load_events (lines : list string) : list Event :=
  foldl (fun events line =>
           match parse_line line with
           | Some evt => events ++ [evt]
           | None => events
           end)
        [] lines.

(** The dictionary built by [event_field_value]; an unknown key is
    [KeyError]. *)
Definition event_field_value (e : Event) (field : string) : result Z :=
  let table : list (string * Z) :=
    [("cpu_cycle", cpu_cycle e); ("frame", frame e);
     ("scanline", scanline e); ("dot", dot e); ("addr", addr e);
     ("value", value e); ("v", v e); ("t", t e); ("x", x e)] in
  match (list_to_map table : gmap string Z) !! field with
  | Some n => Ok n
  | None => Raise KeyError
  end.

(** [any(event_field_value(a, f) != event_field_value(b, f) for f in
    fields)], left to right, stopping at the first difference. *)
Fixpoint any_differs (ea eb : Event) (fields : list string) : result bool :=
  match fields with
  | [] => Ok false
  | f :: fields' =>
      va ← event_field_value ea f;
      vb ← event_field_value eb f;
      if negb (va =? vb) then Ok true else any_differs ea eb fields'
  end.

(** [for i in range(n)] over [a[i]] and [b[i]] up to the first index
    that differs on [fields]. *)
Fixpoint scan (i : nat) (a b : list Event) (fields : list string)
  : result (option (nat * Event * Event)) :=
  match a, b with
  | ea :: a', eb :: b' =>
      d ← any_differs ea eb fields;
      if d : bool then Ok (Some (i, ea, eb)) else scan (S i) a' b' fields
  | _, _ => Ok None
  end.

Definition first_mismatch (a b : list Event) (fields : list string)
  : result (Z * option Event * option Event) :=
  let n := Nat.min (length a) (length b) in
  found ← scan 0 a b fields;
  match found with
  | Some (i, ea, eb) => Ok (Z.of_nat i, Some ea, Some eb)
  | None =>
      if negb (length a =? length b)%nat then
        let i := n in Ok (Z.of_nat i, a !! i, b !! i)
      else Ok (-1, None, None)
  end.

Inductive out : Type :=
| PWrites (name : string) (n : nat)
| PCompareFields (fields : list string)
| PExactMatch
| PFirstDivergence (idx : Z)
| PEndOfStream (name : string)
| PEventLine (name : string) (e : Event)
| PWindowHeader (label : string) (lo hi : Z)
| PWindowRow (marked : bool) (i : Z) (e : Event).

Definition print_window (label : string) (events : list Event)
    (center radius : Z) : list out :=
  PWindowHeader label (Z.max 0 (center - radius))
    (Z.min (Z.of_nat (length events) - 1) (center + radius)) ::
  flat_map (fun i =>
              match events !! Z.to_nat i with
              | Some e => [PWindowRow (i =? center) i e]
              | None => []
              end)
           (range (Z.max 0 (center - radius))
                  (Z.min (Z.of_nat (length events)) (center + radius + 1))).

Record Args : Type := {
  mesen : option (list string);
  nesium : option (list string);
  window : Z;
  fields_arg : string;
  strict_timing : bool;
}.

Definition valid_fields : gset string :=
  {["cpu_cycle"; "frame"; "scanline"; "dot"; "addr"; "value"; "v"; "t"; "x"]}.

Definition open_trace (file : option (list string)) : result (list string) :=
  match file with
  | Some lines => Ok lines
  | None => Raise FileNotFoundError
  end.

Definition describe (name : string) (e : option Event) : out :=
  match e with
  | None => PEndOfStream name
  | Some e => PEventLine name e
  end.

(** The list [fields] that [main] builds from the command line. *)
Definition selected_fields (args : Args) : list string :=
  if strict_timing args then
    ["cpu_cycle"; "frame"; "scanline"; "dot"; "addr"; "value"; "v"; "t"]
  else
    filter (fun f => f ≠ "") (map strip (split "," (fields_arg args))).

Definition main (args : Args) : list out * outcome :=
  match
    mesen_lines ← open_trace (mesen args);
    nesium_lines ← open_trace (nesium args);
    Ok (load_events mesen_lines, load_events nesium_lines)
  with
  | Raise e => ([], Uncaught e)
  | Ok (mesen_events, nesium_events) =>
      let fields := selected_fields args in
      let invalid := filter (fun f => f ∉ valid_fields) fields in
      if negb (bool_decide (invalid = [])) then
        ([], ParserError "unsupported fields")
      else if bool_decide (fields = []) then
        ([], ParserError "at least one comparison field is required")
      else
        let head :=
          [PWrites "mesen" (length mesen_events);
           PWrites "nesium" (length nesium_events);
           PCompareFields fields] in
        match first_mismatch mesen_events nesium_events fields with
        | Raise e => (head, Uncaught e)
        | Ok (idx, a, b) =>
            if idx <? 0 then (head ++ [PExactMatch], Returned 0)
            else
              (head ++ [PFirstDivergence idx; describe "mesen" a;
                        describe "nesium" b]
               ++ print_window "mesen" mesen_events idx (window args)
               ++ print_window "nesium" nesium_events idx (window args),
               Returned 1)
        end
  end.

End PpuReg.

(** ** Python runtime: sequences and files *)

Abbreviation bytes := (list byte).

Definition byte_val (b : byte) : Z := Z.of_N (Byte.to_N b).

(** Position designated by a subscript [i] in a sequence of [len]
    items: negative subscripts count from the end, anything outside
    raises [IndexError]. *)
Definition subscript (len : nat) (i : Z) : result nat :=
  let j := if i <? 0 then i + Z.of_nat len else i in
  if (0 <=? j) && (j <? Z.of_nat len) then Ok (Z.to_nat j) else Raise IndexError.

(** [l[i]] *)
Definition item {A : Type} (l : list A) (i : Z) : result A :=
  j ← subscript (length l) i;
  match l !! j with
  | Some a => Ok a
  | None => Raise IndexError
  end.

(** [l[i] = a] *)
Definition set_item {A : Type} (l : list A) (i : Z) (a : A) : result (list A) :=
  j ← subscript (length l) i;
  Ok (<[j := a]> l).

(** [l[i] += 1] *)
Definition incr_item (l : list Z) (i : Z) : result (list Z) :=
  c ← item l i;
  set_item l i (c + 1).

(** [divmod(a, b)]: floor division, as [Z.div] and [Z.modulo]. *)
Definition divmod (a b : Z) : result (Z * Z) :=
  if b =? 0 then Raise ZeroDivisionError else Ok (a / b, a mod b).

(** [sorted(xs, key=...)], stable: [before x y] tells that [x] must come
    strictly before [y]. *)
Section Sorted.
Context {A : Type} (before : A → A → bool).

Fixpoint insert_sorted (x : A) (l : list A) : list A :=
  match l with
  | [] => [x]
  | y :: l' => if before x y then x :: l else y :: insert_sorted x l'
  end.

Definition sorted (l : list A) : list A :=
  foldl (fun acc x => insert_sorted x acc) [] l.
End Sorted.

(** [sorted(set(xs))] on integers. *)
Definition sorted_set (xs : list Z) : list Z :=
  sorted Z.ltb (remove_dups xs).

(** The files a tool can see: path to content. *)
Abbreviation filesystem := (gmap string bytes).

(** [Path(f"{prefix}_f{frame}{ext}")] *)
Definition dump_path (prefix : string) (frame : Z) (ext : string) : string :=
  prefix +:+ "_f" +:+ pretty frame +:+ ext.
Arguments dump_path : simpl never.

(** The token loop shared by both [parse_frames_csv]. *)
Definition csv_ints (value : string) : result (list Z) :=
  for_each (fun out token =>
              let token := PyStr.strip token in
              if String.eqb token "" then Ok out
              else match PyInt.int_of_str 10 token with
                   | Some n => Ok (out ++ [n])
                   | None => Raise ValueError
                   end)
           (PyStr.split "," value) [].

(** ** tools/diff_rgb24_frames.py *)

Module Rgb24.

Definition NES_WIDTH : Z := 256.
Definition NES_HEIGHT : Z := 240.
Definition BYTES_PER_PIXEL : Z := 3.

(** The means and the percentage are kept as the exact quotients; the
    script stores their nearest binary64, which is zero exactly when the
    quotient is. *)
Record FrameDiffStats : Type := {
  frame : Z;
  pixels_total : Z;
  pixels_diff : Z;
  pct_diff : Q;
  mean_abs_r : Q;
  mean_abs_g : Q;
  mean_abs_b : Q;
  max_abs_r : Z;
  max_abs_g : Z;
  max_abs_b : Z;
  bbox : option (Z * Z * Z * Z);
  top_deltas : list ((Z * Z * Z) * Z);
  top_rows : list (Z * Z);
  top_cols : list (Z * Z);
}.

Definition parse_frames_csv (value : string) : result (list Z) :=
  out ← csv_ints value;
  let out := sorted_set out in
  if (length out <? 2)%nat then Raise ValueError else Ok out.

Definition read_rgb24 (fs : filesystem) (path : string) (expected_bytes : Z)
  : result bytes :=
  match fs !! path with
  | None => Raise FileNotFoundError
  | Some data =>
      if negb (Z.of_nat (length data) =? expected_bytes) then Raise ValueError
      else Ok data
  end.

(** The generator [iter_pixels]: the pixels it yields, ended by the
    [IndexError] of an incomplete last pixel when there is one. *)
Fixpoint iter_pixels (buf : bytes) : list (result (Z * Z * Z)) :=
  match buf with
  | [] => []
  | r :: g :: b :: rest => Ok (byte_val r, byte_val g, byte_val b) :: iter_pixels rest
  | _ => [Raise IndexError]
  end.

(** [zip] of two such generators: the first is advanced before the
    second, the shorter one ends the pairing. *)
Fixpoint zip_pixels (ga gb : list (result (Z * Z * Z)))
  : list (result ((Z * Z * Z) * (Z * Z * Z))) :=
  match ga, gb with
  | [], _ => []
  | Raise e :: _, _ => [Raise e]
  | Ok _ :: _, [] => []
  | Ok _ :: _, Raise e :: _ => [Raise e]
  | Ok pa :: ga', Ok pb :: gb' => Ok (pa, pb) :: zip_pixels ga' gb'
  end.

(** The local variables of [compute_frame_diff] that the loop updates. *)
Record acc : Type := {
  a_pixels_diff : Z;
  a_sum_abs : Z * Z * Z;
  a_max_abs : Z * Z * Z;
  a_delta_counts : list ((Z * Z * Z) * Z);
  a_row_counts : list Z;
  a_col_counts : list Z;
  a_min_x : Z;
  a_min_y : Z;
  a_max_x : Z;
  a_max_y : Z;
}.

(** [delta_counts[key] += 1] on a [Counter], which keeps its keys in the
    order of their first use. *)
Fixpoint counter_incr (key : Z * Z * Z) (c : list ((Z * Z * Z) * Z))
  : list ((Z * Z * Z) * Z) :=
  match c with
  | [] => [(key, 1)]
  | (k, n) :: c' =>
      if bool_decide (k = key) then (k, n + 1) :: c'
      else (k, n) :: counter_incr key c'
  end.

(** Body of the pixel loop. *)
Definition diff_step (width : Z) (s : acc)
    (it : Z * result ((Z * Z * Z) * (Z * Z * Z))) : result acc :=
  let '(idx, pixels) := it in
  '(pa, pb) ← pixels;
  let '(ra, ga, ba) := pa in
  let '(rb, gb, bb) := pb in
  let dr := rb - ra in
  let dg := gb - ga in
  let db := bb - ba in
  if (dr =? 0) && (dg =? 0) && (db =? 0) then Ok s
  else
    let ar := Z.abs dr in
    let ag := Z.abs dg in
    let ab := Z.abs db in
    let '(sum_r, sum_g, sum_b) := a_sum_abs s in
    let '(max_r, max_g, max_b) := a_max_abs s in
    '(y, x) ← divmod idx width;
    row_counts ← incr_item (a_row_counts s) y;
    col_counts ← incr_item (a_col_counts s) x;
    Ok {| a_pixels_diff := a_pixels_diff s + 1;
          a_sum_abs := (sum_r + ar, sum_g + ag, sum_b + ab);
          a_max_abs := (if max_r <? ar then ar else max_r,
                        if max_g <? ag then ag else max_g,
                        if max_b <? ab then ab else max_b);
          a_delta_counts := counter_incr (dr, dg, db) (a_delta_counts s);
          a_row_counts := row_counts;
          a_col_counts := col_counts;
          a_min_x := if x <? a_min_x s then x else a_min_x s;
          a_min_y := if y <? a_min_y s then y else a_min_y s;
          a_max_x := if a_max_x s <? x then x else a_max_x s;
          a_max_y := if a_max_y s <? y then y else a_max_y s |}.

(** [enumerate(xs)] *)
Definition enumerate {A : Type} (xs : list A) : list (Z * A) :=
  imap (fun i x => (Z.of_nat i, x)) xs.

(** [[(i, c) for i, c in enumerate(counts) if c > 0]] sorted by falling
    count, then rising index, cut to ten. *)
Definition top_ten (counts : list Z) : list (Z * Z) :=
  take 10 (sorted (fun p q : Z * Z =>
                     (q.2 <? p.2) || ((p.2 =? q.2) && (p.1 <? q.1)))
                  (filter (fun p : Z * Z => 0 < p.2) (enumerate counts))).

(** [Counter.most_common(10)]: falling count, first use breaking ties. *)
Definition most_common_ten (c : list ((Z * Z * Z) * Z)) : list ((Z * Z * Z) * Z) :=
  take 10 (sorted (fun p q : (Z * Z * Z) * Z => q.2 <? p.2) c).

(** [a / b] of two integers, as an exact quotient. *)
Definition quot (a b : Z) : Q := (inject_Z a / inject_Z b)%Q.

Definition compute_frame_diff (frame : Z) (a b : bytes) (width height : Z)
  : result FrameDiffStats :=
  let pixels_total := width * height in
  let init :=
    {| a_pixels_diff := 0; a_sum_abs := (0, 0, 0); a_max_abs := (0, 0, 0);
       a_delta_counts := [];
       a_row_counts := replicate (Z.to_nat height) 0;
       a_col_counts := replicate (Z.to_nat width) 0;
       a_min_x := width; a_min_y := height; a_max_x := -1; a_max_y := -1 |} in
  s ← for_each (diff_step width)
               (enumerate (zip_pixels (iter_pixels a) (iter_pixels b))) init;
  let pixels_diff := a_pixels_diff s in
  let '(sum_abs_r, sum_abs_g, sum_abs_b) := a_sum_abs s in
  let '(max_abs_r, max_abs_g, max_abs_b) := a_max_abs s in
  let pct_diff :=
    if negb (pixels_total =? 0) then (quot pixels_diff pixels_total * 100)%Q
    else 0%Q in
  let '(bbox, mean_abs_r, mean_abs_g, mean_abs_b) :=
    if pixels_diff =? 0 then (None, 0%Q, 0%Q, 0%Q)
    else (Some (a_min_x s, a_min_y s, a_max_x s, a_max_y s),
          quot sum_abs_r pixels_diff, quot sum_abs_g pixels_diff,
          quot sum_abs_b pixels_diff) in
  Ok {| frame := frame; pixels_total := pixels_total;
        pixels_diff := pixels_diff; pct_diff := pct_diff;
        mean_abs_r := mean_abs_r; mean_abs_g := mean_abs_g;
        mean_abs_b := mean_abs_b;
        max_abs_r := max_abs_r; max_abs_g := max_abs_g; max_abs_b := max_abs_b;
        bbox := bbox;
        top_deltas := most_common_ten (a_delta_counts s);
        top_rows := top_ten (a_row_counts s);
        top_cols := top_ten (a_col_counts s) |}.

Inductive out : Type :=
| PStats (stats : FrameDiffStats)
| PTotal (total_diff total_pixels : Z) (pct : Q) (n_frames : nat).

Record Args : Type := {
  mesen_prefix : string;
  nesium_prefix : string;
  frames : string;
  width : Z;
  height : Z;
}.

Definition sum_of (f : FrameDiffStats → Z) (l : list FrameDiffStats) : Z :=
  foldl (fun n s => n + f s) 0 l.

(** One turn of the [for frame in frames] loop, up to [print_stats]. *)
Definition frame_stats (fs : filesystem) (args : Args) (expected_bytes frame : Z)
  : result FrameDiffStats :=
  let mesen_path := dump_path (mesen_prefix args) frame ".rgb24" in
  let nesium_path := dump_path (nesium_prefix args) frame ".rgb24" in
  if negb (bool_decide (is_Some (fs !! mesen_path))) then Raise FileNotFoundError
  else if negb (bool_decide (is_Some (fs !! nesium_path))) then Raise FileNotFoundError
  else
    mesen ← read_rgb24 fs mesen_path expected_bytes;
    nesium ← read_rgb24 fs nesium_path expected_bytes;
    compute_frame_diff frame mesen nesium (width args) (height args).

(** The loop over the frames: what was printed, and the statistics
    gathered or the exception that ended the loop. *)
Fixpoint frames_loop (fs : filesystem) (args : Args) (expected_bytes : Z)
    (frames : list Z) (all_stats : list FrameDiffStats)
  : list out * result (list FrameDiffStats) :=
  match frames with
  | [] => ([], Ok all_stats)
  | frame :: frames' =>
      match frame_stats fs args expected_bytes frame with
      | Raise e => ([], Raise e)
      | Ok stats =>
          let '(printed, r) :=
            frames_loop fs args expected_bytes frames' (all_stats ++ [stats]) in
          (PStats stats :: printed, r)
      end
  end.

Definition main (fs : filesystem) (args : Args) : list out * outcome :=
  match parse_frames_csv (frames args) with
  | Raise e => ([], Uncaught e)
  | Ok frames =>
      let expected_bytes := width args * height args * BYTES_PER_PIXEL in
      match frames_loop fs args expected_bytes frames [] with
      | (printed, Raise e) => (printed, Uncaught e)
      | (printed, Ok all_stats) =>
          let total_pixels := sum_of pixels_total all_stats in
          let total_diff := sum_of pixels_diff all_stats in
          let pct :=
            if negb (total_pixels =? 0) then (quot total_diff total_pixels * 100)%Q
            else 0%Q in
          (printed ++ [PTotal total_diff total_pixels pct (length all_stats)],
           Returned 0)
      end
  end.

End Rgb24.

(** ** tools/analyze_mask_diff.py *)

Module MaskDiff.

(** Body of [for bit in range(8)], with its [break]. *)
Fixpoint unpack_bits (bits : list Z) (byte : Z) (total : Z)
    (st : list Z * Z) : result (list Z * Z) :=
  match bits with
  | [] => Ok st
  | bit :: bits' =>
      let '(pixels, bit_index) := st in
      if total <=? bit_index then Ok st
      else
        pixels ← set_item pixels bit_index (Z.land (Z.shiftr byte bit) 1);
        unpack_bits bits' byte total (pixels, bit_index + 1)
  end.

Definition unpack_mask (data : bytes) (width height : Z) : result (list Z) :=
  let total := width * height in
  let pixels := replicate (Z.to_nat total) 0 in
  let bit_index := 0 in
  '(pixels, _) ← for_each (fun st byte =>
                             unpack_bits (range 0 8) (byte_val byte) total st)
                          data (pixels, bit_index);
  Ok pixels.

Inductive out : Type :=
| PSizeMismatch (len_a len_b : nat)
| PWarning (len_a : nat) (expected_size width height : Z)
| PTotals (total diff_count : Z)
| PBbox (min_x max_x min_y max_y : Z)
| PRowsWithDiff (n : nat)
| PTopRowsHeader
| PTopRow (y c : Z).

Record Args : Type := {
  a : string;
  b : string;
  width : Z;
  height : Z;
  top_rows : Z;
}.

Definition read_bytes (fs : filesystem) (path : string) : result bytes :=
  match fs !! path with
  | Some data => Ok data
  | None => Raise FileNotFoundError
  end.

(** [[i for i in range(total) if pixels_a[i] != pixels_b[i]]] *)
Definition diff_positions (total : Z) (pixels_a pixels_b : list Z)
  : result (list Z) :=
  for_each (fun found i =>
              pa ← item pixels_a i;
              pb ← item pixels_b i;
              if negb (pa =? pb) then Ok (found ++ [i]) else Ok found)
           (range 0 total) [].

(** The variables updated by the loop over the differing positions. *)
Record box : Type := {
  min_x : Z;
  max_x : Z;
  min_y : Z;
  max_y : Z;
  row_counts : list Z;
}.

Definition box_step (width : Z) (s : box) (idx : Z) : result box :=
  '(y, x) ← divmod idx width;
  row_counts ← incr_item (row_counts s) y;
  Ok {| min_x := if x <? min_x s then x else min_x s;
        max_x := if max_x s <? x then x else max_x s;
        min_y := if y <? min_y s then y else min_y s;
        max_y := if max_y s <? y then y else max_y s;
        row_counts := row_counts |}.

(** [ranked[: n]] *)
Definition slice_to {A : Type} (l : list A) (n : Z) : list A :=
  if n <? 0 then take (Z.to_nat (Z.of_nat (length l) + n)) l
  else take (Z.to_nat n) l.

(** What [main] prints and returns once both files are read; an
    exception can only leave it before the bounding box is printed. *)
Definition report (args : Args) (data_a data_b : bytes)
  : list out * outcome :=
  if negb (length data_a =? length data_b)%nat then
    ([PSizeMismatch (length data_a) (length data_b)], Returned 1)
  else
    let expected_size := (width args * height args + 7) / 8 in
    let warned :=
      if negb (Z.of_nat (length data_a) =? expected_size) then
        [PWarning (length data_a) expected_size (width args) (height args)]
      else [] in
    let total := width args * height args in
    match
      pixels_a ← unpack_mask data_a (width args) (height args);
      pixels_b ← unpack_mask data_b (width args) (height args);
      diff_positions total pixels_a pixels_b
    with
    | Raise e => (warned, Uncaught e)
    | Ok positions =>
        let diff_count := Z.of_nat (length positions) in
        let printed := warned ++ [PTotals total diff_count] in
        if diff_count =? 0 then (printed, Returned 0)
        else
          let init :=
            {| min_x := width args; max_x := -1;
               min_y := height args; max_y := -1;
               row_counts := replicate (Z.to_nat (height args)) 0 |} in
          match for_each (box_step (width args)) positions init with
          | Raise e => (printed, Uncaught e)
          | Ok s =>
              let nonzero_rows :=
                filter (fun p : Z * Z => 0 < p.2)
                       (Rgb24.enumerate (row_counts s)) in
              let ranked :=
                sorted (fun p q : Z * Z =>
                          (q.2 <? p.2) || ((p.2 =? q.2) && (p.1 <? q.1)))
                       nonzero_rows in
              (printed
               ++ [PBbox (min_x s) (max_x s) (min_y s) (max_y s);
                   PRowsWithDiff (length nonzero_rows);
                   PTopRowsHeader]
               ++ map (fun p : Z * Z => PTopRow p.1 p.2)
                      (slice_to ranked (top_rows args)),
               Returned 0)
          end
    end.

Definition main (fs : filesystem) (args : Args) : list out * outcome :=
  match
    data_a ← read_bytes fs (a args);
    data_b ← read_bytes fs (b args);
    Ok (data_a, data_b)
  with
  | Raise e => ([], Uncaught e)
  | Ok (data_a, data_b) => report args data_a data_b
  end.

End MaskDiff.

(** ** Python runtime: [float] (IEEE binary64, as the primitive floats) *)

Module PyFloat.

(** [float(n)]: the nearest binary64, [OverflowError] beyond its range. *)
Definition of_int (n : Z) : result float :=
  let f := SF2Prim (binary_normalize prec emax n 0 false) in
  if PrimFloat.is_infinity f then Raise OverflowError else Ok f.

(** [int(f)]: towards zero. *)
Definition to_int (f : float) : result Z :=
  match Prim2SF f with
  | S754_zero _ => Ok 0
  | S754_finite s m e =>
      let magnitude :=
        if 0 <=? e then Z.shiftl (Z.pos m) e else Z.shiftr (Z.pos m) (- e) in
      Ok (if s then - magnitude else magnitude)
  | S754_infinity _ => Raise OverflowError
  | S754_nan => Raise ValueError
  end.

(** [min(a, b)] and [max(a, b)] of the built-ins: the first argument
    stays unless the second is strictly better. *)
Definition min (a b : float) : float := if PrimFloat.ltb b a then b else a.
Definition max (a b : float) : float := if PrimFloat.ltb a b then b else a.

End PyFloat.

(** ** tools/find_first_palette_index_diff.py *)

Module PaletteDiff.

Definition NES_WIDTH : Z := 256.
Definition NES_HEIGHT : Z := 240.
Definition RGB24_BPP : Z := 3.

Definition MESEN_2C02_64 : list (Z * Z * Z) :=
  [ (0x66, 0x66, 0x66); (0x00, 0x2A, 0x88); (0x14, 0x12, 0xA7); (0x3B, 0x00, 0xA4);
    (0x5C, 0x00, 0x7E); (0x6E, 0x00, 0x40); (0x6C, 0x06, 0x00); (0x56, 0x1D, 0x00);
    (0x33, 0x35, 0x00); (0x0B, 0x48, 0x00); (0x00, 0x52, 0x00); (0x00, 0x4F, 0x08);
    (0x00, 0x40, 0x4D); (0x00, 0x00, 0x00); (0x00, 0x00, 0x00); (0x00, 0x00, 0x00);
    (0xAD, 0xAD, 0xAD); (0x15, 0x5F, 0xD9); (0x42, 0x40, 0xFF); (0x75, 0x27, 0xFE);
    (0xA0, 0x1A, 0xCC); (0xB7, 0x1E, 0x7B); (0xB5, 0x31, 0x20); (0x99, 0x4E, 0x00);
    (0x6B, 0x6D, 0x00); (0x38, 0x87, 0x00); (0x0C, 0x93, 0x00); (0x00, 0x8F, 0x32);
    (0x00, 0x7C, 0x8D); (0x00, 0x00, 0x00); (0x00, 0x00, 0x00); (0x00, 0x00, 0x00);
    (0xFF, 0xFE, 0xFF); (0x64, 0xB0, 0xFF); (0x92, 0x90, 0xFF); (0xC6, 0x76, 0xFF);
    (0xF3, 0x6A, 0xFF); (0xFE, 0x6E, 0xCC); (0xFE, 0x81, 0x70); (0xEA, 0x9E, 0x22);
    (0xBC, 0xBE, 0x00); (0x88, 0xD8, 0x00); (0x5C, 0xE4, 0x30); (0x45, 0xE0, 0x82);
    (0x48, 0xCD, 0xDE); (0x4F, 0x4F, 0x4F); (0x00, 0x00, 0x00); (0x00, 0x00, 0x00);
    (0xFF, 0xFE, 0xFF); (0xC0, 0xDF, 0xFF); (0xD3, 0xD2, 0xFF); (0xE8, 0xC8, 0xFF);
    (0xFB, 0xC2, 0xFF); (0xFE, 0xC4, 0xEA); (0xFE, 0xCC, 0xC5); (0xF7, 0xD8, 0xA5);
    (0xE4, 0xE5, 0x94); (0xCF, 0xEF, 0x96); (0xBD, 0xF4, 0xAB); (0xB3, 0xF3, 0xCC);
    (0xB5, 0xEB, 0xF2); (0xB8, 0xB8, 0xB8); (0x00, 0x00, 0x00); (0x00, 0x00, 0x00) ].

Record FirstMismatch : Type := {
  frame : Z;
  pixel_index : Z;
  x : Z;
  y : Z;
  mesen_rgb : Z * Z * Z;
  candidates : list (Z * Z);
  actual_idx : Z;
  actual_emph : Z;
  reason : string;
}.

Definition parse_frames_csv (value : string) : result (list Z) :=
  frames ← csv_ints value;
  let frames := sorted_set frames in
  if bool_decide (frames = []) then Raise ValueError else Ok frames.

(** The attenuation factor, the binary64 that the literal 0.84 denotes. *)
Definition attenuation : float := 0.84%float.

(** [int(max(0.0, min(255.0, c)))] *)
Definition clamp_u8 (c : float) : result Z :=
  PyFloat.to_int (PyFloat.max 0%float (PyFloat.min 255%float c)).

Definition apply_emphasis (rgb : Z * Z * Z) (color_index emphasis : Z)
  : result (Z * Z * Z) :=
  let emphasis := Z.land emphasis 0x07 in
  if (emphasis =? 0) || (0x0D <? Z.land color_index 0x0F) then Ok rgb
  else
    r ← PyFloat.of_int rgb.1.1;
    g ← PyFloat.of_int rgb.1.2;
    b ← PyFloat.of_int rgb.2;
    let '(g, b) :=
      if negb (Z.land emphasis 0x01 =? 0)
      then (PrimFloat.mul g attenuation, PrimFloat.mul b attenuation)
      else (g, b) in
    let '(r, b) :=
      if negb (Z.land emphasis 0x02 =? 0)
      then (PrimFloat.mul r attenuation, PrimFloat.mul b attenuation)
      else (r, b) in
    let '(r, g) :=
      if negb (Z.land emphasis 0x04 =? 0)
      then (PrimFloat.mul r attenuation, PrimFloat.mul g attenuation)
      else (r, g) in
    r ← clamp_u8 r;
    g ← clamp_u8 g;
    b ← clamp_u8 b;
    Ok (r, g, b).

Abbreviation inverse_map := (gmap (Z * Z * Z) (list (Z * Z))).

(** [inverse.setdefault(rgb, []).append(pair)] *)
Definition setdefault_append (inverse : inverse_map) (rgb : Z * Z * Z)
    (pair : Z * Z) : inverse_map :=
  <[rgb := default [] (inverse !! rgb) ++ [pair]]> inverse.

Definition build_inverse_rgb_map : result inverse_map :=
  for_each (fun inverse idx =>
              base ← item MESEN_2C02_64 idx;
              for_each (fun inverse emph =>
                          rgb ← apply_emphasis base idx emph;
                          Ok (setdefault_append inverse rgb (idx, emph)))
                       (range 0 8) inverse)
           (range 0 64) ∅.

Definition load_rgb24 (fs : filesystem) (path : string) (width height : Z)
  : result bytes :=
  match fs !! path with
  | None => Raise FileNotFoundError
  | Some data =>
      let expected := width * height * RGB24_BPP in
      if negb (Z.of_nat (length data) =? expected) then Raise ValueError
      else Ok data
  end.

Definition load_plane (fs : filesystem) (path : string) (width height : Z)
  : result bytes :=
  match fs !! path with
  | None => Raise FileNotFoundError
  | Some data =>
      let expected := width * height in
      if negb (Z.of_nat (length data) =? expected) then Raise ValueError
      else Ok data
  end.

(** [buf[i]] on [bytes] *)
Definition byte_at (buf : bytes) (i : Z) : result Z :=
  b ← item buf i; Ok (byte_val b).

(** What one turn of the pixel loop does: go on with new counters, or
    return. *)
Inductive turn : Type :=
| Continue (unknown_colors idx_mismatches emph_mismatches : Z)
| Return (found : FirstMismatch) (unknown_colors idx_mismatches emph_mismatches : Z).

(** Body of [for i in range(len(nesium_idx))]. *)
Definition pixel_step (frame : Z) (mesen_rgb24 nesium_idx nesium_emph : bytes)
    (inverse : inverse_map) (width : Z)
    (unknown_colors idx_mismatches emph_mismatches : Z) (i : Z) : result turn :=
  r ← byte_at mesen_rgb24 (i * 3);
  g ← byte_at mesen_rgb24 (i * 3 + 1);
  b ← byte_at mesen_rgb24 (i * 3 + 2);
  let rgb := (r, g, b) in
  match inverse !! rgb with
  | None | Some [] =>
      Ok (Continue (unknown_colors + 1) idx_mismatches emph_mismatches)
  | Some candidates =>
      ni ← byte_at nesium_idx i;
      let actual_idx := Z.land ni 0x3F in
      ne ← byte_at nesium_emph i;
      let actual_emph := Z.land ne 0x07 in
      if bool_decide ((actual_idx, actual_emph) ∈ candidates) then
        Ok (Continue unknown_colors idx_mismatches emph_mismatches)
      else
        let expected_idxs : gset Z := list_to_set (map fst candidates) in
        let '(idx_mismatches, emph_mismatches, reason) :=
          if negb (bool_decide (actual_idx ∈ expected_idxs))
          then (idx_mismatches + 1, emph_mismatches, "palette_index")
          else (idx_mismatches, emph_mismatches + 1, "emphasis_bits") in
        '(y, x) ← divmod i width;
        Ok (Return {| frame := frame; pixel_index := i; x := x; y := y;
                      mesen_rgb := rgb; candidates := candidates;
                      actual_idx := actual_idx; actual_emph := actual_emph;
                      reason := reason |}
                   unknown_colors idx_mismatches emph_mismatches)
  end.

(** The loop itself, over the indices still to visit. *)
Fixpoint pixel_loop (frame : Z) (mesen_rgb24 nesium_idx nesium_emph : bytes)
    (inverse : inverse_map) (width : Z)
    (unknown_colors idx_mismatches emph_mismatches : Z) (todo : list Z)
  : result (option FirstMismatch * Z * Z * Z) :=
  match todo with
  | [] => Ok (None, unknown_colors, idx_mismatches, emph_mismatches)
  | i :: todo' =>
      step ← pixel_step frame mesen_rgb24 nesium_idx nesium_emph inverse width
                        unknown_colors idx_mismatches emph_mismatches i;
      match step with
      | Continue u im em =>
          pixel_loop frame mesen_rgb24 nesium_idx nesium_emph inverse width
                     u im em todo'
      | Return found u im em => Ok (Some found, u, im, em)
      end
  end.

Definition find_first_mismatch (frame : Z)
    (mesen_rgb24 nesium_idx nesium_emph : bytes)
    (inverse : inverse_map) (width : Z)
  : result (option FirstMismatch * Z * Z * Z) :=
  let unknown_colors := 0 in
  let idx_mismatches := 0 in
  let emph_mismatches := 0 in
  pixel_loop frame mesen_rgb24 nesium_idx nesium_emph inverse width
             unknown_colors idx_mismatches emph_mismatches
             (range 0 (Z.of_nat (length nesium_idx))).

Inductive out : Type :=
| PNoMismatch (frame unknown_colors idx_mismatches emph_mismatches : Z)
| PFirstMismatchAt (found : FirstMismatch)
| PCandidates (rgb : Z * Z * Z) (shown : list (Z * Z))
| PActual (idx emph : Z)
| PCountersBeforeFirst (unknown_colors idx_mismatches emph_mismatches : Z).

Record Args : Type := {
  mesen_prefix : string;
  nesium_prefix : string;
  frames : string;
  width : Z;
  height : Z;
}.

(** One turn of the [for frame in frames] loop, up to the call of
    [find_first_mismatch]. *)
Definition frame_result (fs : filesystem) (args : Args) (inverse : inverse_map)
    (frame : Z) : result (option FirstMismatch * Z * Z * Z) :=
  let mesen_path := dump_path (mesen_prefix args) frame ".rgb24" in
  let idx_path := dump_path (nesium_prefix args) frame ".idx8" in
  let emph_path := dump_path (nesium_prefix args) frame ".emph8" in
  if negb (bool_decide (is_Some (fs !! mesen_path))) then Raise FileNotFoundError
  else if negb (bool_decide (is_Some (fs !! idx_path))) then Raise FileNotFoundError
  else if negb (bool_decide (is_Some (fs !! emph_path))) then Raise FileNotFoundError
  else
    mesen_rgb24 ← load_rgb24 fs mesen_path (width args) (height args);
    nesium_idx ← load_plane fs idx_path (width args) (height args);
    nesium_emph ← load_plane fs emph_path (width args) (height args);
    find_first_mismatch frame mesen_rgb24 nesium_idx nesium_emph inverse
                        (width args).

(** The loop over the frames: what was printed, and [found_any] or the
    exception that ended the loop. *)
Fixpoint frames_loop (fs : filesystem) (args : Args) (inverse : inverse_map)
    (frames : list Z) (found_any : bool) : list out * result bool :=
  match frames with
  | [] => ([], Ok found_any)
  | frame :: frames' =>
      match frame_result fs args inverse frame with
      | Raise e => ([], Raise e)
      | Ok (None, unknown_colors, idx_mismatches, emph_mismatches) =>
          let '(printed, r) := frames_loop fs args inverse frames' found_any in
          (PNoMismatch frame unknown_colors idx_mismatches emph_mismatches
           :: printed, r)
      | Ok (Some mismatch, unknown_colors, idx_mismatches, emph_mismatches) =>
          let '(printed, r) := frames_loop fs args inverse frames' true in
          ([PFirstMismatchAt mismatch;
            PCandidates (mesen_rgb mismatch) (take 8 (candidates mismatch));
            PActual (actual_idx mismatch) (actual_emph mismatch);
            PCountersBeforeFirst unknown_colors idx_mismatches emph_mismatches]
           ++ printed, r)
      end
  end.

Definition main (fs : filesystem) (args : Args) : list out * outcome :=
  match
    frames ← parse_frames_csv (frames args);
    inverse ← build_inverse_rgb_map;
    Ok (frames, inverse)
  with
  | Raise e => ([], Uncaught e)
  | Ok (frames, inverse) =>
      match frames_loop fs args inverse frames false with
      | (printed, Raise e) => (printed, Uncaught e)
      | (printed, Ok found_any) =>
          (printed, Returned (if found_any then 1 else 0))
      end
  end.

End PaletteDiff.

(** * Specification vocabulary *)

(** ** Masks *)

(** Bit [i mod 8] of byte [i div 8], zero past the end of the data. *)
Definition mask_bit (data : bytes) (i : nat) : Z :=
  match data !! (i / 8)%nat with
  | Some b => Z.b2z (Z.testbit (byte_val b) (Z.of_nat (i mod 8)))
  | None => 0
  end.

(** State of the two loops of [unpack_mask] once [nbits] bits of [src]
    were offered. *)
Definition mask_inv (total : Z) (src : bytes) (nbits : Z) (st : list Z * Z) : Prop :=
  st.2 = Z.min nbits total ∧
  length st.1 = Z.to_nat total ∧
  ∀ i : nat, (i < length st.1)%nat →
    st.1 !! i = Some (if Z.of_nat i <? st.2 then mask_bit src i else 0).

(** ** Palette *)

(** The pair [(idx, emph)] is listed in [inverse] under the colour that
    the emphasis model gives to palette entry [idx]. *)
Definition listed (inverse : PaletteDiff.inverse_map) (idx emph : Z) : Prop :=
  ∃ base rgb candidates,
    PaletteDiff.MESEN_2C02_64 !! Z.to_nat idx = Some base ∧
    PaletteDiff.apply_emphasis base idx emph = Ok rgb ∧
    inverse !! rgb = Some candidates ∧
    (idx, emph) ∈ candidates.

Definition is_Ok_b {A : Type} (r : result A) : bool :=
  match r with
  | Ok _ => true
  | Raise _ => false
  end.

(** ** Frame statistics *)

(** What the pixel loop of [compute_frame_diff] keeps true: the count of
    differing pixels is not negative, and while it is zero nothing was
    added to the sums or the maxima. *)
Definition diff_inv (s : Rgb24.acc) : Prop :=
  0 ≤ Rgb24.a_pixels_diff s ∧
  (Rgb24.a_pixels_diff s = 0 →
   Rgb24.a_max_abs s = (0, 0, 0) ∧ Rgb24.a_sum_abs s = (0, 0, 0)).

(** The statistics of a frame pair without differences. *)
Definition no_difference (stats : Rgb24.FrameDiffStats) : Prop :=
  Rgb24.bbox stats = None ∧
  (Rgb24.mean_abs_r stats == 0)%Q ∧
  (Rgb24.mean_abs_g stats == 0)%Q ∧
  (Rgb24.mean_abs_b stats == 0)%Q ∧
  Rgb24.max_abs_r stats = 0 ∧
  Rgb24.max_abs_g stats = 0 ∧
  Rgb24.max_abs_b stats = 0.

(** A generator item that is a pixel, not an exception. *)
Definition yields {A : Type} (r : result A) : Prop := ∃ a, r = Ok a.

(** ** Register traces *)

(** Every name of [fields] is a comparison field of the register tool. *)
Definition supported (fields : list string) : Prop :=
  ∀ f, f ∈ fields → f ∈ PpuReg.valid_fields.

(** Both events carry the same value in every field of [fields]. *)
Definition agree_on (fields : list string) (ea eb : PpuReg.Event) : Prop :=
  ∀ f, f ∈ fields → PpuReg.event_field_value ea f = PpuReg.event_field_value eb f.

(** Some field of [fields] has different values in the two events. *)
Definition differ_on (fields : list string) (ea eb : PpuReg.Event) : Prop :=
  ∃ f, f ∈ fields ∧ PpuReg.event_field_value ea f ≠ PpuReg.event_field_value eb f.

(** The events of the common prefix agree pairwise on [fields]. *)
Definition prefix_agrees (fields : list string) (a b : list PpuReg.Event) : Prop :=
  ∀ (j : nat) ea eb, a !! j = Some ea → b !! j = Some eb → agree_on fields ea eb.

(** The value that an event carries under the name of a comparison
    field: the component of the record that has this name.  It is read
    off the record, not through the table of [event_field_value]. *)
Definition field_of (e : PpuReg.Event) (name : string) : option Z :=
  if String.eqb name "cpu_cycle" then Some (PpuReg.cpu_cycle e)
  else if String.eqb name "frame" then Some (PpuReg.frame e)
  else if String.eqb name "scanline" then Some (PpuReg.scanline e)
  else if String.eqb name "dot" then Some (PpuReg.dot e)
  else if String.eqb name "addr" then Some (PpuReg.addr e)
  else if String.eqb name "value" then Some (PpuReg.value e)
  else if String.eqb name "v" then Some (PpuReg.v e)
  else if String.eqb name "t" then Some (PpuReg.t e)
  else if String.eqb name "x" then Some (PpuReg.x e)
  else None.

(** The two events have equal components under every name of [fields]. *)
Definition fields_agree (fields : list string) (ea eb : PpuReg.Event) : Prop :=
  ∀ f, f ∈ fields → field_of ea f = field_of eb f.

(** Under some name of [fields] the two events have different
    components. *)
Definition fields_differ (fields : list string) (ea eb : PpuReg.Event) : Prop :=
  ∃ f, f ∈ fields ∧ field_of ea f ≠ field_of eb f.

(** Two events of the APU trace of one kind, address and value. *)
Definition apu_same_event (m n : ApuTrace.TraceEvent) : Prop :=
  ApuTrace.ev m = ApuTrace.ev n ∧ ApuTrace.addr m = ApuTrace.addr n ∧
  ApuTrace.value m = ApuTrace.value n.


(** A register write of the sample traces: address 0x2006 at cycle 10
    of frame 0, with the given value. *)
Definition sample_write (value : Z) : PpuReg.Event :=
  {| PpuReg.raw := "PPUREG|src=x|ev=write"; PpuReg.src := "x";
     PpuReg.ev := "write"; PpuReg.cpu_cycle := 10; PpuReg.frame := 0;
     PpuReg.scanline := 0; PpuReg.dot := 0; PpuReg.addr := 0x2006;
     PpuReg.value := value; PpuReg.v := -1; PpuReg.t := -1; PpuReg.x := -1 |}.


(** ** Interrupt traces *)

(** An interrupt event of the sample traces. *)
Definition sample_nmi : NmiTrace.TraceEvent :=
  {| NmiTrace.index := 0; NmiTrace.ev := "nmi_take";
     NmiTrace.addr := None; NmiTrace.value := None;
     NmiTrace.raw := "NMITRACE|src=nesium|ev=nmi_take";
     NmiTrace.fields := NmiTrace.parse_fields "NMITRACE|src=nesium|ev=nmi_take" |}.

(** The report names position [idx] and displays event [evt]. *)
Definition nmi_report_shows (printed : list NmiTrace.out) (idx : nat)
    (evt : NmiTrace.TraceEvent) : Prop :=
  NmiTrace.PIndex idx ∈ printed ∧
  ∃ marked i, NmiTrace.PContextRow marked i evt ∈ printed.


(** ** Sample runs of the frame tools *)

(** Two dumps of frames 1 and 2 of a 1x1 picture; the red channel of
    frame 1 differs between the two sides. *)
Definition sample_dumps : filesystem :=
  <["m_f1.rgb24" := [x00; x00; x00]]>
    (<["n_f1.rgb24" := [x01; x00; x00]]>
       (<["m_f2.rgb24" := [x00; x00; x00]]>
          (<["n_f2.rgb24" := [x00; x00; x00]]> ∅))).

Definition sample_dump_args : Rgb24.Args :=
  {| Rgb24.mesen_prefix := "m"; Rgb24.nesium_prefix := "n";
     Rgb24.frames := "1,2"; Rgb24.width := 1; Rgb24.height := 1 |}.

(** Two masks of a 4x4 picture that differ at pixel 5 only. *)
Definition sample_masks : filesystem :=
  <["a.mask" := [x00; x00]]> (<["b.mask" := [x20; x00]]> ∅).

Definition sample_mask_args : MaskDiff.Args :=
  {| MaskDiff.a := "a.mask"; MaskDiff.b := "b.mask";
     MaskDiff.width := 4; MaskDiff.height := 4; MaskDiff.top_rows := 20 |}.

(** Two masks of three bytes each, offered as masks of a 4x4 picture,
    which takes two bytes. *)
Definition oversized_masks : filesystem :=
  <["a.mask" := [x00; x00; x00]]> (<["b.mask" := [x00; x00; x00]]> ∅).

(** Two APU traces of one write each, with different values. *)
Definition sample_apu_args : ApuTrace.Args :=
  {| ApuTrace.mesen := Some ["APUTRACE|src=mesen|ev=write|addr=4015|value=0F"];
     ApuTrace.nesium := Some ["APUTRACE|src=nesium|ev=write|addr=4015|value=1F"];
     ApuTrace.context := 3; ApuTrace.include_read_mem := false |}.


(** The sample dumps with the second frame of one side cut short. *)
Definition truncated_dumps : filesystem :=
  <["n_f2.rgb24" := [x00; x00]]> sample_dumps.


(** ** Trace lines *)

(** The key-value fields that [parse_line] of the register tool reads
    from a line. *)
Definition ppu_fields (line : string) : gmap string string :=
  store_segments (tail (PyStr.split "|" (PyStr.strip line))).

(** The line is one that [parse_line] turns into an event: it carries
    the tag and [ev=write]. *)
Definition ppu_accepts (line : string) : Prop :=
  PyStr.strip line ≠ "" ∧
  PyStr.startswith (PyStr.strip line) "PPUREG|" = true ∧
  ppu_fields line !! "ev" = Some "write".

(** The line is one that [parse_events] of the APU tool keeps: tag, an
    allowed kind and a non-empty address. *)
Definition apu_accepts (include_read_mem : bool) (line : string) : Prop :=
  PyStr.startswith line "APUTRACE|" = true ∧
  dict_get (ApuTrace.parse_fields line) "ev" ""
    ∈ ApuTrace.allowed_events include_read_mem ∧
  dict_get (ApuTrace.parse_fields line) "addr" "" ≠ "".

(** The line is a read or a write of the NMI trace with both an address
    and a value. *)
Definition nmi_accepts (line : string) (addr value : string) : Prop :=
  PyStr.startswith line "NMITRACE|" = true ∧
  dict_get (NmiTrace.parse_fields line) "ev" "" ∈ ({["read"; "write"]} : gset string) ∧
  NmiTrace.parse_fields line !! "addr" = Some addr ∧
  NmiTrace.parse_fields line !! "value" = Some value.


(** The number [n] read for field [name] is the sentinel -1 whenever the
    text of the field is not a number in [base]. *)
Definition sentinel_if_malformed (fields : gmap string string)
    (name : string) (base n : Z) : Prop :=
  ∀ text, fields !! name = Some text → PyInt.int_of_str base text = None → n = -1.


(** ** Hexadecimal texts *)

(** Every character of [s] passes [P]. *)
Fixpoint string_forall (P : ascii → bool) (s : string) : bool :=
  match s with
  | EmptyString => true
  | String c s' => P c && string_forall P s'
  end.

(** A hexadecimal digit of either case. *)
Definition is_hex_digit (c : ascii) : bool :=
  match PyInt.digit_value c with
  | Some d => d <? 16
  | None => false
  end.

(** One of [0-9A-F]. *)
Definition is_upper_hex (c : ascii) : bool :=
  let n := N_of_ascii c in
  ((48 <=? n) && (n <=? 57) || (65 <=? n) && (n <=? 70))%N.

(** A character that [format_0X] can produce: the sign or one of [0-9A-F]. *)
Definition is_format_char (c : ascii) : bool :=
  Ascii.eqb c "-" || is_upper_hex c.

(** A well-formed hexadecimal number: one digit at least, digits only. *)
Definition hex_text (s : string) : Prop :=
  s ≠ "" ∧ string_forall is_hex_digit s = true.

(** The number that the digits of [s] denote after [acc]. *)
Fixpoint hex_value_from (acc : Z) (s : string) : Z :=
  match s with
  | EmptyString => acc
  | String c s' =>
      hex_value_from (acc * 16 + default 0 (PyInt.digit_value c)) s'
  end.

Definition hex_value (s : string) : Z := hex_value_from 0 s.


(** ** Pixels against the reverse map *)

(** The colour of pixel [i] in an rgb24 dump. *)
Definition observed_rgb (mesen_rgb24 : bytes) (i : nat) : option (Z * Z * Z) :=
  r ← mesen_rgb24 !! (3 * i)%nat;
  g ← mesen_rgb24 !! (3 * i + 1)%nat;
  b ← mesen_rgb24 !! (3 * i + 2)%nat;
  Some (byte_val r, byte_val g, byte_val b).

(** The pair reported for pixel [i], cut to six and three bits. *)
Definition reported_pair (nesium_idx nesium_emph : bytes) (i : nat)
  : option (Z * Z) :=
  ni ← nesium_idx !! i;
  ne ← nesium_emph !! i;
  Some (Z.land (byte_val ni) 0x3F, Z.land (byte_val ne) 0x07).

(** The candidates that the reverse map holds for the colour of pixel
    [i]: none for a colour that is not in the map. *)
Definition candidates_at (inverse : PaletteDiff.inverse_map)
    (mesen_rgb24 : bytes) (i : nat) : option (list (Z * Z)) :=
  rgb ← observed_rgb mesen_rgb24 i;
  Some (default [] (inverse !! rgb)).

(** The colour of pixel [i] has no candidate at all. *)
Definition unknown_at (inverse : PaletteDiff.inverse_map)
    (mesen_rgb24 : bytes) (i : nat) : Prop :=
  candidates_at inverse mesen_rgb24 i = Some [].

(** Pixel [i] is a mismatch: its colour has candidates and the reported
    pair is not one of them. *)
Definition mismatch_at (inverse : PaletteDiff.inverse_map)
    (mesen_rgb24 nesium_idx nesium_emph : bytes) (i : nat) : Prop :=
  ∃ cands pair,
    candidates_at inverse mesen_rgb24 i = Some cands ∧ cands ≠ [] ∧
    reported_pair nesium_idx nesium_emph i = Some pair ∧ pair ∉ cands.

(** The record returned for a mismatch at pixel [i] is the one the
    locator must build there. *)
Definition describes (inverse : PaletteDiff.inverse_map)
    (mesen_rgb24 nesium_idx nesium_emph : bytes) (width : Z) (i : nat)
    (found : PaletteDiff.FirstMismatch) : Prop :=
  PaletteDiff.pixel_index found = Z.of_nat i ∧
  PaletteDiff.x found = Z.of_nat i mod width ∧
  PaletteDiff.y found = Z.of_nat i / width ∧
  observed_rgb mesen_rgb24 i = Some (PaletteDiff.mesen_rgb found) ∧
  candidates_at inverse mesen_rgb24 i = Some (PaletteDiff.candidates found) ∧
  PaletteDiff.candidates found ≠ [] ∧
  reported_pair nesium_idx nesium_emph i
  = Some (PaletteDiff.actual_idx found, PaletteDiff.actual_emph found) ∧
  ((PaletteDiff.actual_idx found, PaletteDiff.actual_emph found)
     ∉ PaletteDiff.candidates found) ∧
  PaletteDiff.reason found
  = (if bool_decide (PaletteDiff.actual_idx found
                     ∈ map fst (PaletteDiff.candidates found))
     then "emphasis_bits" else "palette_index").


#[global] Instance unknown_at_dec inverse mesen_rgb24 i :
  Decision (unknown_at inverse mesen_rgb24 i).
Proof. unfold unknown_at. apply _. Defined.

(** Number of pixels with an unknown colour among the [n] pixels that
    start at [k]. *)
Definition unknown_count (inverse : PaletteDiff.inverse_map)
    (mesen_rgb24 : bytes) (k n : nat) : Z :=
  Z.of_nat (length (filter (unknown_at inverse mesen_rgb24) (seq k n))).

(** ** Lines and events of the traces *)

(** The event was read from [line]: it keeps the line without its line
    feed and the fields parsed from it. *)
Definition apu_read_from (e : ApuTrace.TraceEvent) (line : string) : Prop :=
  PyStr.startswith line "APUTRACE|" = true ∧
  ApuTrace.raw e = PyStr.rstrip_nl line ∧
  ApuTrace.fields e = ApuTrace.parse_fields line ∧
  ApuTrace.ev e = dict_get (ApuTrace.parse_fields line) "ev" "".

(** A text that [normalize_hex] leaves as it is at [width], of [width]
    characters at least. *)
Definition normal_hex (width : nat) (text : string) : Prop :=
  ApuTrace.normalize_hex text width = Ok text ∧
  (width ≤ String.length text)%nat ∧
  string_forall is_format_char text = true.

(** The line gives an event of the NMI trace, or (with a malformed
    number) ends the parse: tag, a kind that [normalize_event] keeps,
    and for a read or a write both an address and a value. *)
Definition nmi_keeps (line : string) : Prop :=
  PyStr.startswith line "NMITRACE|" = true ∧
  ∃ norm_ev,
    NmiTrace.normalize_event (dict_get (NmiTrace.parse_fields line) "src" "")
                             (dict_get (NmiTrace.parse_fields line) "ev" "")
    = Some norm_ev ∧
    (norm_ev ∈ ({["read"; "write"]} : gset string) →
     is_Some (NmiTrace.parse_fields line !! "addr") ∧
     is_Some (NmiTrace.parse_fields line !! "value")).

(** Arguments of the register tool over two traces of one write, with
    the given [--fields] text. *)
Definition sample_ppu_args (fields : string) : PpuReg.Args :=
  {| PpuReg.mesen := Some ["PPUREG|ev=write|addr=2006|value=3F"];
     PpuReg.nesium := Some ["PPUREG|ev=write|addr=2006|value=3F"];
     PpuReg.window := 8;
     PpuReg.fields_arg := fields;
     PpuReg.strict_timing := false |}.

(** ** Frame lists and pixels *)

(** The numbers of [l] rise strictly from each position to the next. *)
Definition strictly_increasing (l : list Z) : Prop :=
  ∀ (i j : nat) a b, l !! i = Some a → l !! j = Some b → (i < j)%nat → a < b.

(** [n] is the number written in one of the comma-separated tokens of
    [value]. *)
Definition frame_listed (value : string) (n : Z) : Prop :=
  ∃ token, token ∈ PyStr.split "," value ∧ PyStr.strip token ≠ "" ∧
           PyInt.int_of_str 10 (PyStr.strip token) = Some n.

(** Pixel [i] has different colours in the two dumps. *)
Definition pixel_differs (a b : bytes) (i : nat) : Prop :=
  observed_rgb a i ≠ observed_rgb b i.

#[global] Instance pixel_differs_dec a b i : Decision (pixel_differs a b i).
Proof. unfold pixel_differs. apply _. Defined.

(** The positions below [n] whose pixels differ, in rising order. *)
Definition differing_pixels (a b : bytes) (n : nat) : list nat :=
  filter (pixel_differs a b) (seq 0 n).

(** Absolute difference of the bytes at position [j] of the two dumps. *)
Definition abs_delta (a b : bytes) (j : nat) : Z :=
  match a !! j, b !! j with
  | Some x, Some y => Z.abs (byte_val y - byte_val x)
  | _, _ => 0
  end.

(** Sum of the absolute differences in channel [c] (0, 1 or 2) over the
    first [n] pixels. *)
Definition total_abs_delta (a b : bytes) (c n : nat) : Z :=
  foldr Z.add 0 (map (fun i => abs_delta a b (3 * i + c)) (seq 0 n)).

(** ** Statistics of two frames *)

(** Row and column of position [i] in a picture of the given width. *)
Definition row_of (width : Z) (i : nat) : Z := Z.of_nat i / width.

Definition column_of (width : Z) (i : nat) : Z := Z.of_nat i mod width.

(** The box [(x0, y0, x1, y1)] holds every position of the list, and
    each of its four sides touches one. *)
Definition tight_box (positions : list nat) (width : Z)
    (box : Z * Z * Z * Z) : Prop :=
  let '(x0, y0, x1, y1) := box in
  (∀ i, i ∈ positions →
        x0 ≤ column_of width i ≤ x1 ∧ y0 ≤ row_of width i ≤ y1) ∧
  (∃ i, i ∈ positions ∧ column_of width i = x0) ∧
  (∃ i, i ∈ positions ∧ row_of width i = y0) ∧
  (∃ i, i ∈ positions ∧ column_of width i = x1) ∧
  (∃ i, i ∈ positions ∧ row_of width i = y1).

(** Number of positions of the list that [f] sends to [v]. *)
Definition count_where {V : Type} `{EqDecision V} (f : nat → V)
    (positions : list nat) (v : V) : Z :=
  Z.of_nat (length (filter (fun i => f i = v) positions)).

(** Entry [v] of [counts] is the number of positions that [f] sends to
    [v]. *)
Definition tallies (counts : list Z) (f : nat → Z) (positions : list nat) : Prop :=
  ∀ (v : nat) c, counts !! v = Some c → c = count_where f positions (Z.of_nat v).

(** The difference of colours at pixel [i], channel by channel. *)
Definition delta_of (a b : bytes) (i : nat) : Z * Z * Z :=
  match observed_rgb a i, observed_rgb b i with
  | Some (ra, ga, ba), Some (rb, gb, bb) => (rb - ra, gb - ga, bb - ba)
  | _, _ => (0, 0, 0)
  end.

(** The counter [c] holds each value that [f] takes on the positions,
    once, with the number of positions that take it. *)
Definition counter_of (c : list ((Z * Z * Z) * Z)) (f : nat → Z * Z * Z)
    (positions : list nat) : Prop :=
  NoDup (map fst c) ∧
  (∀ i, i ∈ positions → f i ∈ map fst c) ∧
  (∀ d n, (d, n) ∈ c → 0 < n ∧ n = count_where f positions d).

(** [hi] is the greatest of the absolute differences in channel [c] over
    the first [n] pixels (0 when there is no pixel). *)
Definition greatest_abs_delta (a b : bytes) (c n : nat) (hi : Z) : Prop :=
  0 ≤ hi ∧
  (∀ i : nat, (i < n)%nat → abs_delta a b (3 * i + c) ≤ hi) ∧
  (hi = 0 ∨ ∃ i : nat, (i < n)%nat ∧ abs_delta a b (3 * i + c) = hi).

(** State of the pixel loop of [compute_frame_diff] after [k] pixels. *)
Definition frame_diff_state (a b : bytes) (width height : Z) (k : nat)
    (s : Rgb24.acc) : Prop :=
  length (Rgb24.a_row_counts s) = Z.to_nat height ∧
  length (Rgb24.a_col_counts s) = Z.to_nat width ∧
  Rgb24.a_pixels_diff s = Z.of_nat (length (differing_pixels a b k)) ∧
  Rgb24.a_sum_abs s
  = (total_abs_delta a b 0 k, total_abs_delta a b 1 k, total_abs_delta a b 2 k) ∧
  greatest_abs_delta a b 0 k (Rgb24.a_max_abs s).1.1 ∧
  greatest_abs_delta a b 1 k (Rgb24.a_max_abs s).1.2 ∧
  greatest_abs_delta a b 2 k (Rgb24.a_max_abs s).2 ∧
  (differing_pixels a b k = [] →
   Rgb24.a_min_x s = width ∧ Rgb24.a_min_y s = height ∧
   Rgb24.a_max_x s = -1 ∧ Rgb24.a_max_y s = -1) ∧
  (differing_pixels a b k ≠ [] →
   tight_box (differing_pixels a b k) width
     (Rgb24.a_min_x s, Rgb24.a_min_y s, Rgb24.a_max_x s, Rgb24.a_max_y s)) ∧
  tallies (Rgb24.a_row_counts s) (row_of width) (differing_pixels a b k) ∧
  tallies (Rgb24.a_col_counts s) (column_of width) (differing_pixels a b k) ∧
  counter_of (Rgb24.a_delta_counts s) (delta_of a b) (differing_pixels a b k).

(** ** Rankings *)

(** A ranking of [(index, count)] pairs: counts fall from each entry to
    the next, and entries of one count come by rising index. *)
Definition ranked (l : list (Z * Z)) : Prop :=
  ∀ (i j : nat) p q, l !! i = Some p → l !! j = Some q → (i < j)%nat →
    q.2 < p.2 ∨ (q.2 = p.2 ∧ p.1 ≤ q.1).

(** The ranking [top] lists, with their counts, the [limit] best of the
    indices below [size] that [f] gives to some position: every entry is
    such an index with its count, and an index left out has a count no
    greater than any listed one, the list being full. *)
Definition best_of (top : list (Z * Z)) (limit : nat) (f : nat → Z)
    (positions : list nat) (size : Z) : Prop :=
  ranked top ∧ (length top ≤ limit)%nat ∧
  (∀ v c, (v, c) ∈ top →
          0 ≤ v < size ∧ 0 < c ∧ c = count_where f positions v) ∧
  (∀ v, 0 ≤ v < size → 0 < count_where f positions v →
        (v, count_where f positions v) ∈ top ∨
        length top = limit ∧
        ∀ w c, (w, c) ∈ top → count_where f positions v ≤ c).

(** The ranking [top] lists, with their counts, the [limit] most
    frequent values that [f] takes on the positions: counts do not rise
    along the list, no value is listed twice, every entry is a value with
    the number of positions that take it, and a value that is taken but
    left out is no more frequent than any listed one, the list being
    full. *)
Definition most_frequent (top : list ((Z * Z * Z) * Z)) (limit : nat)
    (f : nat → Z * Z * Z) (positions : list nat) : Prop :=
  (∀ (i j : nat) p q, top !! i = Some p → top !! j = Some q → (i < j)%nat →
                      q.2 ≤ p.2) ∧
  (length top ≤ limit)%nat ∧
  NoDup (map fst top) ∧
  (∀ d c, (d, c) ∈ top → 0 < c ∧ c = count_where f positions d) ∧
  (∀ i, i ∈ positions →
        (f i, count_where f positions (f i)) ∈ top ∨
        length top = limit ∧
        ∀ d c, (d, c) ∈ top → count_where f positions (f i) ≤ c).

(** ** Bits of two masks *)

(** Bit [i] differs between the two masks. *)
Definition bit_differs (a b : bytes) (i : nat) : Prop := mask_bit a i ≠ mask_bit b i.

#[global] Instance bit_differs_dec a b i : Decision (bit_differs a b i).
Proof. unfold bit_differs. apply _. Defined.

(** The positions below [n] whose bits differ, in rising order. *)
Definition differing_bits (a b : bytes) (n : nat) : list nat :=
  filter (bit_differs a b) (seq 0 n).

(** Number of rows below [height] that hold one of the positions. *)
Definition rows_touched (positions : list nat) (width height : Z) : nat :=
  length (filter (fun y : nat => 0 < count_where (row_of width) positions (Z.of_nat y))
                 (seq 0 (Z.to_nat height))).

(** State of the loop of [analyze_mask_diff.main] over the differing
    positions, once [positions] were visited. *)
Definition box_state (width height : Z) (positions : list nat)
    (s : MaskDiff.box) : Prop :=
  length (MaskDiff.row_counts s) = Z.to_nat height ∧
  tallies (MaskDiff.row_counts s) (row_of width) positions ∧
  (positions = [] →
   MaskDiff.min_x s = width ∧ MaskDiff.min_y s = height ∧
   MaskDiff.max_x s = -1 ∧ MaskDiff.max_y s = -1) ∧
  (positions ≠ [] →
   tight_box positions width
     (MaskDiff.min_x s, MaskDiff.min_y s, MaskDiff.max_x s, MaskDiff.max_y s)).

(** ** The emphasis model *)

(** A colour component dimmed [k] times by 0.84 and cut to an integer. *)
Definition attenuated (c : Z) (k : Z) : Z := c * 84 ^ k / 100 ^ k.

(** How many of the emphasis bits [i] and [j] are set. *)
Definition dimmings (emphasis : Z) (i j : Z) : Z :=
  Z.b2z (Z.testbit emphasis i) + Z.b2z (Z.testbit emphasis j).

(** The float arithmetic of [apply_emphasis] on one component, against
    the integer formula. *)
Definition component_ok (c : Z) : bool :=
  match PyFloat.of_int c with
  | Ok f =>
      bool_decide (PaletteDiff.clamp_u8 f = Ok (attenuated c 0)) &&
      bool_decide (PaletteDiff.clamp_u8 (PrimFloat.mul f PaletteDiff.attenuation)
                   = Ok (attenuated c 1)) &&
      bool_decide (PaletteDiff.clamp_u8
                     (PrimFloat.mul (PrimFloat.mul f PaletteDiff.attenuation)
                                    PaletteDiff.attenuation)
                   = Ok (attenuated c 2))
  | Raise _ => false
  end.

(** ** Candidates of the reverse map *)

(** Palette entry [idx] under the emphasis bits [emph] gives the colour
    [rgb]. *)
Definition yields_colour (idx emph : Z) (rgb : Z * Z * Z) : Prop :=
  ∃ base, PaletteDiff.MESEN_2C02_64 !! Z.to_nat idx = Some base ∧
          PaletteDiff.apply_emphasis base idx emph = Ok rgb.

(** The pairs that [build_inverse_rgb_map] has gone through once the
    palette indices [idxs] are done. *)
Definition pairs_of (idxs : list Z) : list (Z * Z) :=
  idx ← idxs; map (pair idx) (range 0 8).

(** What the two loops of [build_inverse_rgb_map] keep true of the map,
    [pairs] being the pairs gone through. *)
Definition candidates_inv (pairs : list (Z * Z))
    (inverse : PaletteDiff.inverse_map) : Prop :=
  ∀ rgb cands, inverse !! rgb = Some cands →
    cands ≠ [] ∧ NoDup cands ∧
    ∀ idx emph, (idx, emph) ∈ cands →
                (idx, emph) ∈ pairs ∧ yields_colour idx emph rgb.

(** * Properties *)

(** ** Loops *)

Section ForEach.
Context {A S : Type} (body : S → A → result S).

(** Induction over a loop that ends normally, with the elements already
    visited as ghost state. *)
Lemma for_each_visited (P : list A → S → Prop) xs s0 s :
  P [] s0 →
  (∀ seen x s s', P seen s → body s x = Ok s' → P (seen ++ [x]) s') →
  for_each body xs s0 = Ok s → P xs s.
Proof.
  intros H0 Hstep.
  enough (∀ seen s1, P seen s1 → for_each body xs s1 = Ok s → P (seen ++ xs) s)
    as H by (intros Hrun; exact (H [] s0 H0 Hrun)).
  induction xs as [|x xs IH]; intros seen s1 HP Hrun; simpl in Hrun.
  - rewrite app_nil_r. by injection Hrun as <-.
  - destruct (body s1 x) as [s'|e] eqn:Hb; simpl in Hrun; [|done].
    rewrite (assoc_L _ seen [x] xs : seen ++ x :: xs = (seen ++ [x]) ++ xs).
    apply (IH (seen ++ [x]) s'); [by eapply Hstep | done].
Qed.

Lemma for_each_invariant (P : S → Prop) xs s0 s :
  P s0 →
  (∀ x s s', P s → body s x = Ok s' → P s') →
  for_each body xs s0 = Ok s → P s.
Proof.
  intros H0 Hstep. apply (for_each_visited (fun _ => P)); eauto.
Qed.

(** A loop whose turns all succeed under an invariant ends normally. *)
Lemma for_each_total (P : list A → S → Prop) xs s0 :
  P [] s0 →
  (∀ seen x rest s, xs = seen ++ x :: rest → P seen s →
                    ∃ s', body s x = Ok s' ∧ P (seen ++ [x]) s') →
  ∃ s, for_each body xs s0 = Ok s ∧ P xs s.
Proof.
  intros H0 Hstep.
  enough (∀ rest seen s1, xs = seen ++ rest → P seen s1 →
            ∃ s, for_each body rest s1 = Ok s ∧ P xs s)
    as H by (exact (H xs [] s0 eq_refl H0)).
  induction rest as [|x rest IH]; intros seen s1 Hxs HP; simpl.
  - rewrite app_nil_r in Hxs. subst. eauto.
  - destruct (Hstep seen x rest s1 Hxs HP) as (s' & -> & HP'). simpl.
    apply (IH (seen ++ [x])); [|done].
    by rewrite <- (assoc_L _ seen [x] rest).
Qed.

End ForEach.

Lemma elem_of_range lo hi i : i ∈ range lo hi ↔ lo ≤ i < hi.
Proof.
  unfold range. rewrite list_elem_of_fmap. split.
  - intros (k & -> & Hk). apply elem_of_seq in Hk. lia.
  - intros Hi. exists (Z.to_nat (i - lo)). split; [lia|].
    apply elem_of_seq. lia.
Qed.

(** ** Subscripts *)

Lemma subscript_in_range len i :
  0 ≤ i < Z.of_nat len → subscript len i = Ok (Z.to_nat i).
Proof.
  intros Hi. unfold subscript.
  destruct (Z.ltb_spec i 0); [lia|].
  destruct (Z.leb_spec 0 i); [|lia].
  destruct (Z.ltb_spec i (Z.of_nat len)); [done|lia].
Qed.

Lemma item_in_range {A} (l : list A) i a :
  0 ≤ i → l !! Z.to_nat i = Some a → item l i = Ok a.
Proof.
  intros Hi Hl. unfold item.
  rewrite subscript_in_range; [simpl; by rewrite Hl|].
  apply lookup_lt_Some in Hl. lia.
Qed.

Lemma set_item_in_range {A} (l : list A) i a :
  0 ≤ i < Z.of_nat (length l) → set_item l i a = Ok (<[Z.to_nat i := a]> l).
Proof. intros Hi. unfold set_item. by rewrite subscript_in_range. Qed.

Lemma incr_item_in_range l i :
  0 ≤ i < Z.of_nat (length l) →
  ∃ l', incr_item l i = Ok l' ∧ length l' = length l.
Proof.
  intros Hi. unfold incr_item.
  destruct (lookup_lt_is_Some_2 l (Z.to_nat i)) as [c Hc]; [lia|].
  rewrite (item_in_range l i c) by (done || lia). simpl.
  rewrite set_item_in_range by done. eexists; split; [done|].
  by rewrite length_insert.
Qed.

(** ** The 1bpp mask unpacker *)

Section UnpackMask.
Import MaskDiff.

Lemma land_shiftr_1 x j : 0 ≤ j → Z.land (Z.shiftr x j) 1 = Z.b2z (Z.testbit x j).
Proof.
  intros Hj. change 1 with (Z.ones 1). rewrite Z.land_ones by lia.
  change (2 ^ 1) with 2. rewrite <- Z.bit0_mod, Z.shiftr_spec by lia.
  by rewrite Z.add_0_l.
Qed.

Lemma mask_bit_app_l seen rest (i : nat) :
  Z.of_nat i < 8 * Z.of_nat (length seen) →
  mask_bit (seen ++ rest) i = mask_bit seen i.
Proof.
  intros Hi. unfold mask_bit. rewrite lookup_app_l; [done|].
  apply Nat.Div0.div_lt_upper_bound. lia.
Qed.

Lemma mask_bit_at seen b rest (j : nat) :
  (j < 8)%nat →
  mask_bit (seen ++ b :: rest) (8 * length seen + j)
  = Z.land (Z.shiftr (byte_val b) (Z.of_nat j)) 1.
Proof.
  intros Hj. unfold mask_bit.
  replace ((8 * length seen + j) / 8)%nat with (length seen).
  2:{ rewrite Nat.mul_comm, Nat.div_add_l by lia.
      rewrite Nat.div_small by lia. lia. }
  replace ((8 * length seen + j) mod 8)%nat with j.
  2:{ rewrite Nat.add_comm, Nat.mul_comm, Nat.Div0.mod_add.
      by rewrite Nat.mod_small. }
  rewrite list_lookup_middle by done. by rewrite land_shiftr_1 by lia.
Qed.

Lemma unpack_bits_inv total seen b n :
  0 ≤ total →
  ∀ (j : nat) st, (j + n = 8)%nat →
    mask_inv total (seen ++ [b]) (8 * Z.of_nat (length seen) + Z.of_nat j) st →
    ∃ st', unpack_bits (map Z.of_nat (seq j n)) (byte_val b) total st = Ok st' ∧
           mask_inv total (seen ++ [b]) (8 * Z.of_nat (length seen) + 8) st'.
Proof.
  intros Htotal. induction n as [|n IH]; intros j [pixels bi] Hj Hinv.
  - simpl. exists (pixels, bi). split; [done|].
    replace 8 with (Z.of_nat j) at 2 by lia. done.
  - destruct Hinv as (Hbi & Hlen & Hpx). simpl in Hbi, Hlen, Hpx.
    cbn [seq map unpack_bits].
    destruct (Z.leb_spec total bi) as [Hfull|Hroom].
    + exists (pixels, bi). split; [done|].
      split; [simpl; lia|]. split; [done|]. done.
    + assert (bi = 8 * Z.of_nat (length seen) + Z.of_nat j) as Hbi' by lia.
      rewrite set_item_in_range by lia. simpl.
      apply (IH (S j)); [lia|].
      split; [simpl; lia|]. split; [simpl; by rewrite length_insert|].
      simpl. intros i Hi. rewrite length_insert in Hi.
      destruct (decide (i = Z.to_nat bi)) as [->|Hne].
      * rewrite list_lookup_insert_eq by lia.
        destruct (Z.ltb_spec (Z.of_nat (Z.to_nat bi)) (bi + 1)); [|lia].
        replace (Z.to_nat bi) with (8 * length seen + j)%nat by lia.
        by rewrite mask_bit_at by lia.
      * rewrite list_lookup_insert_ne by done. rewrite Hpx by done.
        destruct (Z.ltb_spec (Z.of_nat i) bi), (Z.ltb_spec (Z.of_nat i) (bi + 1));
          (done || lia).
Qed.

Lemma unpack_byte_inv total seen b st :
  0 ≤ total →
  mask_inv total seen (8 * Z.of_nat (length seen)) st →
  ∃ st', unpack_bits (range 0 8) (byte_val b) total st = Ok st' ∧
         mask_inv total (seen ++ [b]) (8 * Z.of_nat (length (seen ++ [b]))) st'.
Proof.
  intros Htotal (Hbi & Hlen & Hpx).
  destruct (unpack_bits_inv total seen b 8 Htotal 0%nat st eq_refl) as (st' & Hrun & Hinv).
  - split; [lia|]. split; [done|]. intros i Hi. rewrite Hpx by done.
    destruct (Z.ltb_spec (Z.of_nat i) st.2); [|done].
    by rewrite mask_bit_app_l by lia.
  - exists st'. split; [exact Hrun|].
    rewrite length_app. simpl.
    replace (8 * Z.of_nat (length seen + 1)) with (8 * Z.of_nat (length seen) + 8) by lia.
    done.
Qed.

Lemma unpack_mask_spec data width height :
  0 ≤ width → 0 ≤ height →
  ∃ pixels, unpack_mask data width height = Ok pixels ∧
            length pixels = Z.to_nat (width * height) ∧
            ∀ i : nat, (i < length pixels)%nat → pixels !! i = Some (mask_bit data i).
Proof.
  intros Hw Hh. unfold unpack_mask.
  assert (0 ≤ width * height) as Htotal by lia.
  set (total := width * height) in *.
  destruct (for_each_total
              (fun st byte => unpack_bits (range 0 8) (byte_val byte) total st)
              (fun seen st => mask_inv total seen (8 * Z.of_nat (length seen)) st)
              data (replicate (Z.to_nat total) 0, 0))
    as ([pixels bi] & -> & Hbi & Hlen & Hpx).
  - split; [simpl; lia|]. split; [simpl; by rewrite length_replicate|].
    simpl. intros i Hi. rewrite length_replicate in Hi.
    rewrite lookup_replicate_2 by done. by destruct (_ <? _).
  - intros seen x rest st _ Hinv. by apply unpack_byte_inv.
  - simpl in *. exists pixels. split; [done|]. split; [done|].
    intros i Hi. rewrite Hpx by done.
    destruct (Z.ltb_spec (Z.of_nat i) bi) as [|Hge]; [done|].
    unfold mask_bit. rewrite lookup_ge_None_2; [done|].
    apply Nat.div_le_lower_bound; lia.
Qed.
End UnpackMask.

(** C10. [unpack_mask] never raises for a non-negative geometry, whatever
    the length of the data: it returns exactly [width * height] pixels,
    each 0 or 1; pixel [i] is bit [i mod 8] of byte [i div 8] when the
    data has that byte, and 0 when it does not. *)
Theorem unpack_mask_total_zero_padding (data : bytes) (width height : Z) :
  0 ≤ width → 0 ≤ height →
  ∃ pixels,
    MaskDiff.unpack_mask data width height = Ok pixels ∧
    length pixels = Z.to_nat (width * height) ∧
    Forall (fun p => p = 0 ∨ p = 1) pixels ∧
    ∀ i : nat, (i < length pixels)%nat →
      pixels !! i =
      Some (match data !! (i / 8)%nat with
            | Some b => Z.b2z (Z.testbit (byte_val b) (Z.of_nat (i mod 8)))
            | None => 0
            end).
Proof.
  intros Hw Hh.
  destruct (unpack_mask_spec data width height Hw Hh) as (pixels & Hrun & Hlen & Hpx).
  exists pixels. repeat split; [done|done| |exact Hpx].
  apply Forall_lookup. intros i p Hp.
  rewrite Hpx in Hp by (by eapply lookup_lt_Some).
  injection Hp as <-. unfold mask_bit.
  destruct (data !! _); [|by left]. destruct (Z.testbit _ _); auto.
Qed.

Lemma unpack_mask_total_zero_padding_witness :
  0 ≤ 3 ∧ 0 ≤ 4 ∧
  ∃ pixels,
    MaskDiff.unpack_mask [x05] 3 4 = Ok pixels ∧
    length pixels = Z.to_nat (3 * 4) ∧
    Forall (fun p => p = 0 ∨ p = 1) pixels ∧
    ∀ i : nat, (i < length pixels)%nat →
      pixels !! i =
      Some (match [x05] !! (i / 8)%nat with
            | Some b => Z.b2z (Z.testbit (byte_val b) (Z.of_nat (i mod 8)))
            | None => 0
            end).
Proof.
  split; [lia|]. split; [lia|].
  apply (unpack_mask_total_zero_padding [x05] 3 4); lia.
Defined.

(** ** The reverse palette map *)

Section InverseMap.
Import PaletteDiff.

Lemma is_Ok_b_true {A} (r : result A) : is_Ok_b r = true → ∃ a, r = Ok a.
Proof. destruct r; [eauto|done]. Qed.

Lemma setdefault_append_new inverse rgb pair :
  ∃ candidates, setdefault_append inverse rgb pair !! rgb = Some candidates ∧
                pair ∈ candidates.
Proof.
  unfold setdefault_append. rewrite lookup_insert_eq.
  eexists; split; [done|]. apply elem_of_app. right. by apply list_elem_of_singleton.
Qed.

Lemma setdefault_append_keeps inverse rgb pair rgb' candidates pair' :
  inverse !! rgb' = Some candidates → pair' ∈ candidates →
  ∃ candidates', setdefault_append inverse rgb pair !! rgb' = Some candidates' ∧
                 pair' ∈ candidates'.
Proof.
  intros Hl Hin. unfold setdefault_append.
  destruct (decide (rgb = rgb')) as [->|Hne].
  - rewrite lookup_insert_eq, Hl. simpl. eexists; split; [done|].
    apply elem_of_app. by left.
  - rewrite lookup_insert_ne by done. eauto.
Qed.

Lemma listed_keeps inverse rgb pair idx emph :
  listed inverse idx emph → listed (setdefault_append inverse rgb pair) idx emph.
Proof.
  intros (base & rgb' & cands & Hb & Ha & Hl & Hin).
  destruct (setdefault_append_keeps inverse rgb pair rgb' cands (idx, emph) Hl Hin)
    as (cands' & Hl' & Hin').
  by exists base, rgb', cands'.
Qed.

(** The loop over the emphasis values of one palette entry. *)
Lemma inner_loop_lists idx base emphs inverse0 inverse :
  MESEN_2C02_64 !! Z.to_nat idx = Some base →
  for_each (fun inverse emph =>
              rgb ← apply_emphasis base idx emph;
              Ok (setdefault_append inverse rgb (idx, emph)))
           emphs inverse0 = Ok inverse →
  (∀ i e, listed inverse0 i e → listed inverse i e) ∧
  (∀ emph, emph ∈ emphs → listed inverse idx emph).
Proof.
  intros Hbase Hrun.
  refine (for_each_visited _
            (fun seen inv => (∀ i e, listed inverse0 i e → listed inv i e) ∧
                             (∀ emph, emph ∈ seen → listed inv idx emph))
            emphs inverse0 inverse _ _ Hrun); clear Hrun inverse.
  - split; [done|]. intros emph Hin. by apply elem_of_nil in Hin.
  - intros seen emph inv inv' [Hold Hseen] Hstep.
    destruct (apply_emphasis base idx emph) as [rgb|] eqn:Hrgb; [|done].
    simpl in Hstep. injection Hstep as <-. split.
    + intros i e Hie. by apply listed_keeps, Hold.
    + intros emph' Hin. apply elem_of_app in Hin as [Hin|Hin].
      * by apply listed_keeps, Hseen.
      * apply list_elem_of_singleton in Hin as ->.
        destruct (setdefault_append_new inv rgb (idx, emph)) as (cands & Hl & Hc).
        by exists base, rgb, cands.
Qed.

Lemma outer_loop_lists idxs inverse :
  (∀ idx, idx ∈ idxs → 0 ≤ idx) →
  for_each (fun inverse idx =>
              base ← item MESEN_2C02_64 idx;
              for_each (fun inverse emph =>
                          rgb ← apply_emphasis base idx emph;
                          Ok (setdefault_append inverse rgb (idx, emph)))
                       (range 0 8) inverse)
           idxs ∅ = Ok inverse →
  ∀ idx emph, idx ∈ idxs → emph ∈ range 0 8 → listed inverse idx emph.
Proof.
  intros Hpos Hrun.
  enough (∀ idx, idx ∈ idxs → ∀ emph, emph ∈ range 0 8 → listed inverse idx emph)
    by eauto.
  revert Hpos.
  refine (for_each_visited _
            (fun seen inv => (∀ idx, idx ∈ seen → 0 ≤ idx) →
                             ∀ idx, idx ∈ seen → ∀ emph, emph ∈ range 0 8 →
                                    listed inv idx emph)
            idxs ∅ inverse _ _ Hrun); clear Hrun inverse.
  - intros _ idx Hin. by apply elem_of_nil in Hin.
  - intros seen idx inv inv' IH Hstep Hpos.
    assert (0 ≤ idx) as Hidx.
    { apply Hpos, elem_of_app. right. by apply list_elem_of_singleton. }
    unfold item in Hstep. rewrite subscript_in_range in Hstep; cycle 1.
    { destruct (subscript (length MESEN_2C02_64) idx) eqn:Hs; [|done].
      unfold subscript in Hs. destruct (idx <? 0) eqn:Hneg; [lia|].
      destruct ((0 <=? idx) && (idx <? _)) eqn:Hr; [|done]. lia. }
    simpl in Hstep.
    destruct (MESEN_2C02_64 !! Z.to_nat idx) as [base|] eqn:Hbase; [|done].
    simpl in Hstep.
    destruct (inner_loop_lists idx base (range 0 8) inv inv' Hbase Hstep)
      as [Hold Hnew].
    intros idx' Hin emph Hemph. apply elem_of_app in Hin as [Hin|Hin].
    + apply Hold, IH; [|done..]. intros i Hi. apply Hpos, elem_of_app. by left.
    + apply list_elem_of_singleton in Hin as ->. by apply Hnew.
Qed.

Lemma build_inverse_rgb_map_is_Ok : is_Ok_b build_inverse_rgb_map = true.
Proof. vm_compute. reflexivity. Qed.

End InverseMap.

(** C7. The reverse map is built without an exception, and for every
    index 0..63 and emphasis 0..7 the pair is among the candidates stored
    under the colour that [apply_emphasis] gives to that palette entry. *)
Theorem inverse_map_round_trip :
  ∃ inverse,
    PaletteDiff.build_inverse_rgb_map = Ok inverse ∧
    ∀ idx emph, 0 ≤ idx < 64 → 0 ≤ emph < 8 →
      ∃ base rgb candidates,
        PaletteDiff.MESEN_2C02_64 !! Z.to_nat idx = Some base ∧
        PaletteDiff.apply_emphasis base idx emph = Ok rgb ∧
        inverse !! rgb = Some candidates ∧
        (idx, emph) ∈ candidates.
Proof.
  destruct (is_Ok_b_true _ build_inverse_rgb_map_is_Ok) as [inverse Hrun].
  exists inverse. split; [exact Hrun|]. intros idx emph Hidx Hemph.
  unfold PaletteDiff.build_inverse_rgb_map in Hrun.
  refine (outer_loop_lists (range 0 64) inverse _ Hrun idx emph _ _).
  - intros i Hi. apply elem_of_range in Hi. lia.
  - by apply elem_of_range.
  - by apply elem_of_range.
Qed.

(** ** The first-palette-mismatch locator *)

Section FirstPaletteMismatch.
Import PaletteDiff.

(** A turn that returns has just counted the pixel it returns. *)
Lemma pixel_step_return frame rgb24 nidx nemph inverse width u im em i found u' im' em' :
  pixel_step frame rgb24 nidx nemph inverse width u im em i
  = Ok (Return found u' im' em') →
  pixel_index found = i ∧ u' = u ∧
  (reason found = "palette_index" ∧ im' = im + 1 ∧ em' = em ∨
   reason found = "emphasis_bits" ∧ im' = im ∧ em' = em + 1).
Proof.
  unfold pixel_step. intros H.
  destruct (byte_at rgb24 (i * 3)) as [r|]; [simpl in H|done].
  destruct (byte_at rgb24 (i * 3 + 1)) as [g|]; [simpl in H|done].
  destruct (byte_at rgb24 (i * 3 + 2)) as [b|]; [simpl in H|done].
  destruct (inverse !! (r, g, b)) as [[|c cands]|]; [done| |done].
  destruct (byte_at nidx i) as [ni|]; [simpl in H|done].
  destruct (byte_at nemph i) as [ne|]; [simpl in H|done].
  destruct (bool_decide _); [done|].
  destruct (bool_decide (Z.land ni 63 ∈ _)); simpl in H;
    destruct (divmod i width) as [[y x]|]; simpl in H; try done;
    injection H as <- <- <- <-; simpl; split_and?; auto.
Qed.

Lemma pixel_step_continue frame rgb24 nidx nemph inverse width u im em i u' im' em' :
  pixel_step frame rgb24 nidx nemph inverse width u im em i
  = Ok (Continue u' im' em') →
  im' = im ∧ em' = em.
Proof.
  unfold pixel_step. intros H.
  destruct (byte_at rgb24 (i * 3)) as [r|]; [simpl in H|done].
  destruct (byte_at rgb24 (i * 3 + 1)) as [g|]; [simpl in H|done].
  destruct (byte_at rgb24 (i * 3 + 2)) as [b|]; [simpl in H|done].
  destruct (inverse !! (r, g, b)) as [[|c cands]|];
    [by injection H as <- <- <-| |by injection H as <- <- <-].
  destruct (byte_at nidx i) as [ni|]; [simpl in H|done].
  destruct (byte_at nemph i) as [ne|]; [simpl in H|done].
  destruct (bool_decide _); [by injection H as <- <- <-|].
  destruct (bool_decide (Z.land ni 63 ∈ _)); simpl in H;
    destruct (divmod i width) as [[y x]|]; simpl in H; done.
Qed.

Lemma pixel_loop_counters frame rgb24 nidx nemph inverse width todo :
  ∀ u im em found u' im' em',
    pixel_loop frame rgb24 nidx nemph inverse width u im em todo
    = Ok (Some found, u', im', em') →
    reason found = "palette_index" ∧ im' = im + 1 ∧ em' = em ∨
    reason found = "emphasis_bits" ∧ im' = im ∧ em' = em + 1.
Proof.
  induction todo as [|i todo IH]; intros u im em found u' im' em' H; simpl in H.
  - done.
  - destruct (pixel_step frame rgb24 nidx nemph inverse width u im em i)
      as [[u1 im1 em1|f1 u1 im1 em1]|] eqn:Hstep; simpl in H; [| |done].
    + apply pixel_step_continue in Hstep as [-> ->]. by eapply IH.
    + injection H as <- <- <- <-. by apply pixel_step_return in Hstep as (_ & _ & ?).
Qed.

(** Whenever a first mismatch is returned, one of the two mismatch
    counters is 1: it counts the returned pixel itself. *)
Lemma find_first_mismatch_counters frame rgb24 nidx nemph inverse width found u im em :
  find_first_mismatch frame rgb24 nidx nemph inverse width = Ok (Some found, u, im, em) →
  reason found = "palette_index" ∧ im = 1 ∧ em = 0 ∨
  reason found = "emphasis_bits" ∧ im = 0 ∧ em = 1.
Proof.
  unfold find_first_mismatch. intros H.
  apply pixel_loop_counters in H as [(? & ? & ?)|(? & ? & ?)];
    [left|right]; split_and!; (done || lia).
Qed.

Lemma byte_at_Ok (buf : bytes) z r :
  0 ≤ z → byte_at buf z = Ok r →
  ∃ b, buf !! Z.to_nat z = Some b ∧ r = byte_val b.
Proof.
  intros Hz. unfold byte_at, item, subscript.
  destruct (Z.ltb_spec z 0); [lia|].
  destruct ((0 <=? z) && (z <? Z.of_nat (length buf))); simpl; [|done].
  destruct (buf !! Z.to_nat z) as [b|]; simpl; [|done].
  intros [= <-]. by exists b.
Qed.

Lemma observed_rgb_Ok (rgb24 : bytes) (i : nat) r g b :
  byte_at rgb24 (Z.of_nat i * 3) = Ok r →
  byte_at rgb24 (Z.of_nat i * 3 + 1) = Ok g →
  byte_at rgb24 (Z.of_nat i * 3 + 2) = Ok b →
  observed_rgb rgb24 i = Some (r, g, b).
Proof.
  intros Hr Hg Hb.
  apply byte_at_Ok in Hr as (br & Hr & ->); [|lia].
  apply byte_at_Ok in Hg as (bg & Hg & ->); [|lia].
  apply byte_at_Ok in Hb as (bb & Hb & ->); [|lia].
  unfold observed_rgb.
  replace (Z.to_nat (Z.of_nat i * 3)) with (3 * i)%nat in Hr by lia.
  replace (Z.to_nat (Z.of_nat i * 3 + 1)) with (3 * i + 1)%nat in Hg by lia.
  replace (Z.to_nat (Z.of_nat i * 3 + 2)) with (3 * i + 2)%nat in Hb by lia.
  by rewrite Hr, Hg, Hb.
Qed.

Lemma reported_pair_Ok (nidx nemph : bytes) (i : nat) ni ne :
  byte_at nidx (Z.of_nat i) = Ok ni → byte_at nemph (Z.of_nat i) = Ok ne →
  reported_pair nidx nemph i = Some (Z.land ni 0x3F, Z.land ne 0x07).
Proof.
  intros Hi He.
  apply byte_at_Ok in Hi as (bi & Hi & ->); [|lia].
  apply byte_at_Ok in He as (be & He & ->); [|lia].
  unfold reported_pair. rewrite Nat2Z.id in Hi, He. by rewrite Hi, He.
Qed.

(** A turn that returns describes a mismatch at its pixel. *)
Lemma pixel_step_return_spec frame rgb24 nidx nemph inverse width u im em
    (i : nat) found u' im' em' :
  pixel_step frame rgb24 nidx nemph inverse width u im em (Z.of_nat i)
  = Ok (Return found u' im' em') →
  describes inverse rgb24 nidx nemph width i found ∧ u' = u.
Proof.
  unfold pixel_step. intros H.
  destruct (byte_at rgb24 (Z.of_nat i * 3)) as [r|] eqn:Hr; [simpl in H|done].
  destruct (byte_at rgb24 (Z.of_nat i * 3 + 1)) as [g|] eqn:Hg; [simpl in H|done].
  destruct (byte_at rgb24 (Z.of_nat i * 3 + 2)) as [b|] eqn:Hb; [simpl in H|done].
  pose proof (observed_rgb_Ok _ _ _ _ _ Hr Hg Hb) as Hrgb.
  destruct (inverse !! (r, g, b)) as [[|c cands]|] eqn:Hinv; [done| |done].
  destruct (byte_at nidx (Z.of_nat i)) as [ni|] eqn:Hni; [simpl in H|done].
  destruct (byte_at nemph (Z.of_nat i)) as [ne|] eqn:Hne; [simpl in H|done].
  pose proof (reported_pair_Ok _ _ _ _ _ Hni Hne) as Hpair.
  destruct (bool_decide_reflect ((Z.land ni 63, Z.land ne 7) ∈ c :: cands))
    as [|Hnotin]; [done|].
  assert (candidates_at inverse rgb24 i = Some (c :: cands)) as Hcands.
  { unfold candidates_at. rewrite Hrgb. simpl. by rewrite Hinv. }
  match type of H with
  | context [bool_decide ?P] => destruct (bool_decide_reflect P) as [Hidx|Hidx]
  end; simpl in H;
    (unfold divmod in H; destruct (width =? 0); [done|]; simpl in H;
     injection H as <- <- <- <-; split; [|done];
     unfold describes; simpl; split_and!; try done).
  - rewrite bool_decide_eq_true_2; [done|].
    apply (proj1 (elem_of_list_to_set (C:=gset Z) _ (map fst (c :: cands)))).
    exact Hidx.
  - rewrite bool_decide_eq_false_2; [done|].
    intros Hin. apply Hidx.
    exact (proj2 (elem_of_list_to_set (C:=gset Z) _ (map fst (c :: cands))) Hin).
Qed.

(** A turn that goes on has met an unknown colour, which it counts, or
    an explained pixel. *)
Lemma pixel_step_continue_spec frame rgb24 nidx nemph inverse width u im em
    (i : nat) u' im' em' :
  pixel_step frame rgb24 nidx nemph inverse width u im em (Z.of_nat i)
  = Ok (Continue u' im' em') →
  ¬ mismatch_at inverse rgb24 nidx nemph i ∧
  (unknown_at inverse rgb24 i ∧ u' = u + 1 ∨
   ¬ unknown_at inverse rgb24 i ∧ u' = u).
Proof.
  unfold pixel_step. intros H.
  destruct (byte_at rgb24 (Z.of_nat i * 3)) as [r|] eqn:Hr; [simpl in H|done].
  destruct (byte_at rgb24 (Z.of_nat i * 3 + 1)) as [g|] eqn:Hg; [simpl in H|done].
  destruct (byte_at rgb24 (Z.of_nat i * 3 + 2)) as [b|] eqn:Hb; [simpl in H|done].
  pose proof (observed_rgb_Ok _ _ _ _ _ Hr Hg Hb) as Hrgb.
  unfold mismatch_at, unknown_at, candidates_at. rewrite Hrgb. simpl.
  destruct (inverse !! (r, g, b)) as [[|c cands]|] eqn:Hinv; simpl.
  - injection H as <- <- <-. split; [|by left].
    by intros (cs & pair & [= <-] & Hne & _).
  - destruct (byte_at nidx (Z.of_nat i)) as [ni|] eqn:Hni; [simpl in H|done].
    destruct (byte_at nemph (Z.of_nat i)) as [ne|] eqn:Hne; [simpl in H|done].
    pose proof (reported_pair_Ok _ _ _ _ _ Hni Hne) as Hpair.
    destruct (bool_decide_reflect ((Z.land ni 63, Z.land ne 7) ∈ c :: cands))
      as [Hin|].
    + injection H as <- <- <-. split; [|by right].
      intros (cs & pair & [= <-] & _ & Hp & Hnotin).
      rewrite Hpair in Hp. by injection Hp as <-.
    + destruct (bool_decide _); simpl in H;
        destruct (divmod (Z.of_nat i) width) as [[y x]|]; simpl in H; done.
  - injection H as <- <- <-. split; [|by left].
    by intros (cs & pair & [= <-] & Hne & _).
Qed.

Lemma range_0_nat (n : nat) : range 0 (Z.of_nat n) = map Z.of_nat (seq 0 n).
Proof. unfold range. by rewrite Z.sub_0_r, Nat2Z.id. Qed.

Lemma unknown_count_cons inverse rgb24 (k n : nat) :
  unknown_count inverse rgb24 k (S n)
  = (if decide (unknown_at inverse rgb24 k) then 1 else 0)
    + unknown_count inverse rgb24 (S k) n.
Proof.
  unfold unknown_count. cbn [seq]. rewrite filter_cons.
  destruct (decide (unknown_at inverse rgb24 k)); simpl; lia.
Qed.

(** The loop over the pixels [k], [k+1], ..., [k+m-1]. *)
Lemma pixel_loop_spec frame rgb24 nidx nemph inverse width (m : nat) :
  ∀ (k : nat) u0 im0 em0 r u im em,
    pixel_loop frame rgb24 nidx nemph inverse width u0 im0 em0
               (map Z.of_nat (seq k m)) = Ok (r, u, im, em) →
    match r with
    | Some found =>
        ∃ i : nat, (k ≤ i < k + m)%nat ∧
          describes inverse rgb24 nidx nemph width i found ∧
          (∀ j : nat, (k ≤ j < i)%nat → ¬ mismatch_at inverse rgb24 nidx nemph j) ∧
          u = u0 + unknown_count inverse rgb24 k (i - k)
    | None =>
        (∀ j : nat, (k ≤ j < k + m)%nat → ¬ mismatch_at inverse rgb24 nidx nemph j) ∧
        u = u0 + unknown_count inverse rgb24 k m ∧ im = im0 ∧ em = em0
    end.
Proof.
  induction m as [|m IH]; intros k u0 im0 em0 r u im em H.
  - simpl in H. injection H as <- <- <- <-.
    split; [intros j Hj; lia|]. unfold unknown_count. simpl. lia.
  - cbn [seq map pixel_loop] in H.
    destruct (pixel_step frame rgb24 nidx nemph inverse width u0 im0 em0 (Z.of_nat k))
      as [[u1 im1 em1|f1 u1 im1 em1]|] eqn:Hstep; simpl in H; [| |done].
    + pose proof (pixel_step_continue _ _ _ _ _ _ _ _ _ _ _ _ _ Hstep) as [-> ->].
      apply pixel_step_continue_spec in Hstep as [Hno Hu].
      assert (u1 = u0 + (if decide (unknown_at inverse rgb24 k) then 1 else 0)) as ->.
      { destruct Hu as [[Hun ->]|[Hun ->]];
          destruct (decide (unknown_at inverse rgb24 k)); (done || lia). }
      apply IH in H. destruct r as [found|].
      * destruct H as (i & Hi & Hd & Hbefore & ->).
        exists i. split; [lia|]. split; [done|]. split.
        -- intros j Hj. destruct (decide (j = k)) as [->|]; [done|].
           apply Hbefore. lia.
        -- replace (i - k)%nat with (S (i - S k)) by lia.
           rewrite unknown_count_cons. lia.
      * destruct H as (Hall & -> & -> & ->). split; [|split; [|done]].
        -- intros j Hj. destruct (decide (j = k)) as [->|]; [done|].
           apply Hall. lia.
        -- rewrite unknown_count_cons. lia.
    + injection H as <- <- <- <-.
      apply pixel_step_return_spec in Hstep as [Hd ->].
      exists k. split; [lia|]. split; [done|]. split.
      * intros j Hj. lia.
      * rewrite Nat.sub_diag. unfold unknown_count. simpl. lia.
Qed.

(** What [find_first_mismatch] returns: the first mismatching pixel in
    row-major order, described as the locator must, with the number of
    unknown colours met before it; or nothing, when no pixel is a
    mismatch. *)
Lemma find_first_mismatch_spec frame rgb24 nidx nemph inverse width r u im em :
  find_first_mismatch frame rgb24 nidx nemph inverse width = Ok (r, u, im, em) →
  match r with
  | Some found =>
      ∃ i : nat, (i < length nidx)%nat ∧
        describes inverse rgb24 nidx nemph width i found ∧
        (∀ j : nat, (j < i)%nat → ¬ mismatch_at inverse rgb24 nidx nemph j) ∧
        u = unknown_count inverse rgb24 0 i
  | None =>
      (∀ j : nat, (j < length nidx)%nat → ¬ mismatch_at inverse rgb24 nidx nemph j) ∧
      u = unknown_count inverse rgb24 0 (length nidx) ∧ im = 0 ∧ em = 0
  end.
Proof.
  unfold find_first_mismatch. rewrite range_0_nat. intros H.
  apply pixel_loop_spec in H. destruct r as [found|].
  - destruct H as (i & Hi & Hd & Hbefore & ->).
    exists i. split; [lia|]. split; [done|]. split.
    + intros j Hj. apply Hbefore. lia.
    + rewrite Nat.sub_0_r. lia.
  - destruct H as (Hall & -> & -> & ->). split; [|split; [lia|done]].
    intros j Hj. apply Hall. lia.
Qed.

End FirstPaletteMismatch.

(** C4, evaluated on a frame of one pixel: the colour of palette entry 0
    with reported index 1.  The mismatch is found at pixel 0, no pixel
    precedes it, and the index-mismatch counter returned with it is 1. *)
Theorem first_palette_mismatch_counts_itself :
  (inverse ← PaletteDiff.build_inverse_rgb_map;
   PaletteDiff.find_first_mismatch 60 [x66; x66; x66] [x01] [x00] inverse 256)
  = Ok (Some {| PaletteDiff.frame := 60;
                PaletteDiff.pixel_index := 0;
                PaletteDiff.x := 0;
                PaletteDiff.y := 0;
                PaletteDiff.mesen_rgb := (0x66, 0x66, 0x66);
                PaletteDiff.candidates := [(0, 0)];
                PaletteDiff.actual_idx := 1;
                PaletteDiff.actual_emph := 0;
                PaletteDiff.reason := "palette_index" |},
        0, 1, 0).
Proof. vm_compute. reflexivity. Qed.

(** ** Frame statistics *)

Section FrameDiff.
Import Rgb24.

Lemma diff_step_inv width s it s' :
  diff_inv s → diff_step width s it = Ok s' → diff_inv s'.
Proof.
  intros [Hpos Hzero] Hstep. unfold diff_step in Hstep.
  destruct it as [idx [[[[ra ga] ba] [[rb gb] bb]]|e]]; simpl in Hstep; [|done].
  destruct ((rb - ra =? 0) && (gb - ga =? 0) && (bb - ba =? 0)).
  { injection Hstep as <-. by split. }
  destruct (a_sum_abs s) as [[sr sg] sb], (a_max_abs s) as [[mr mg] mb].
  destruct (divmod idx width) as [[y x]|]; simpl in Hstep; [|done].
  destruct (incr_item (a_row_counts s) y); simpl in Hstep; [|done].
  destruct (incr_item (a_col_counts s) x); simpl in Hstep; [|done].
  injection Hstep as <-. split; simpl; lia.
Qed.

(** The invariant of the statistics, for every run that returns. *)
Lemma compute_frame_diff_inv frame a b width height stats :
  compute_frame_diff frame a b width height = Ok stats →
  (pixels_diff stats = 0 ↔ no_difference stats) ∧
  (0 < pixels_diff stats → is_Some (bbox stats)).
Proof.
  unfold compute_frame_diff. intros H.
  match type of H with
  | (for_each ?body ?xs ?init ≫= _) = _ =>
      destruct (for_each body xs init) as [s|] eqn:Hloop; [simpl in H|done]
  end.
  apply (for_each_invariant _ diff_inv) in Hloop; cycle 1.
  { split; simpl; [lia|done]. }
  { intros x s1 s2. apply diff_step_inv. }
  destruct Hloop as [Hpos Hzero].
  destruct (a_sum_abs s) as [[sr sg] sb] eqn:Hsum.
  destruct (a_max_abs s) as [[mr mg] mb] eqn:Hmax.
  destruct (Z.eqb_spec (a_pixels_diff s) 0) as [H0|Hne];
    injection H as <-; unfold no_difference; simpl.
  - destruct (Hzero H0) as [[= -> -> ->] _].
    split; [|lia]. split; [|done]. intros _. by split_and!.
  - split; [|by eauto]. split; [done|]. by intros [? _].
Qed.

Lemma iter_pixels_yields (n : nat) :
  ∀ buf : bytes, length buf = (3 * n)%nat →
    length (iter_pixels buf) = n ∧ Forall yields (iter_pixels buf).
Proof.
  induction n as [|n IH]; intros buf Hlen.
  - destruct buf; [by split|done].
  - destruct buf as [|r [|g [|b rest]]]; simpl in Hlen; try lia.
    destruct (IH rest) as [Hl Hy]; [lia|].
    simpl. split; [by rewrite Hl|]. constructor; [by eexists|done].
Qed.

Lemma zip_pixels_yields ga :
  ∀ gb, Forall yields ga → Forall yields gb →
    length (zip_pixels ga gb) = Nat.min (length ga) (length gb) ∧
    Forall yields (zip_pixels ga gb).
Proof.
  induction ga as [|pa ga IH]; intros gb Ha Hb; [by split|].
  apply Forall_cons in Ha as [[a ->] Ha].
  destruct gb as [|pb gb]; [by split|].
  apply Forall_cons in Hb as [[b ->] Hb].
  destruct (IH gb Ha Hb) as [Hl Hy]. simpl.
  split; [by rewrite Hl|]. constructor; [by eexists|done].
Qed.

Lemma enumerate_middle {A} (l : list A) seen it rest :
  enumerate l = seen ++ it :: rest →
  it.1 = Z.of_nat (length seen) ∧ l !! length seen = Some it.2.
Proof.
  intros Heq.
  assert (enumerate l !! length seen = Some it) as Hl
    by (rewrite Heq; by apply list_lookup_middle).
  unfold enumerate in Hl. rewrite list_lookup_imap in Hl.
  destruct (l !! length seen) as [x|]; [|done].
  by injection Hl as <-.
Qed.

(** On buffers of the stated geometry no turn of the pixel loop raises. *)
Lemma compute_frame_diff_total frame (a b : bytes) width height :
  0 ≤ width → 0 ≤ height →
  Z.of_nat (length a) = width * height * 3 → length b = length a →
  ∃ stats, compute_frame_diff frame a b width height = Ok stats.
Proof.
  intros Hw Hh Hla Hlb. unfold compute_frame_diff.
  set (n := Z.to_nat (width * height)).
  destruct (iter_pixels_yields n a) as [Hna Hya]; [lia|].
  destruct (iter_pixels_yields n b) as [Hnb Hyb]; [lia|].
  destruct (zip_pixels_yields _ _ Hya Hyb) as [Hnz Hyz].
  rewrite Hna, Hnb, Nat.min_id in Hnz.
  set (zipped := zip_pixels (iter_pixels a) (iter_pixels b)) in *.
  match goal with
  | |- ∃ _, (for_each ?body ?xs ?init ≫= _) = _ =>
      destruct (for_each_total body
                  (fun _ s => length (a_row_counts s) = Z.to_nat height ∧
                              length (a_col_counts s) = Z.to_nat width)
                  xs init) as (s & -> & _)
  end.
  - simpl. by rewrite !length_replicate.
  - intros seen it rest s Heq [Hrows Hcols].
    destruct (enumerate_middle _ _ _ _ Heq) as [Hidx Hit].
    assert (length seen < n)%nat as Hseen.
    { rewrite <- Hnz. by apply lookup_lt_Some in Hit. }
    destruct it as [idx px]. simpl in Hidx, Hit. subst idx.
    destruct (proj1 (Forall_lookup _ _) Hyz _ _ Hit) as [[pa pb] ->].
    unfold diff_step.
    destruct pa as [[ra ga] ba], pb as [[rb gb] bb]. simpl.
    destruct ((rb - ra =? 0) && (gb - ga =? 0) && (bb - ba =? 0)); [by eauto|].
    destruct (a_sum_abs s) as [[sr sg] sb], (a_max_abs s) as [[mr mg] mb].
    assert (0 < width) as Hwpos by (subst n; nia).
    unfold divmod. destruct (Z.eqb_spec width 0); [lia|]. simpl.
    set (idx := Z.of_nat (length seen)).
    assert (0 ≤ idx < width * height) as Hrange by (subst idx n; lia).
    destruct (incr_item_in_range (a_row_counts s) (idx / width)) as (rows & -> & Hr).
    { rewrite Hrows. split; [apply Z.div_pos; lia|].
      rewrite Z2Nat.id by lia. apply Z.div_lt_upper_bound; lia. }
    destruct (incr_item_in_range (a_col_counts s) (idx mod width)) as (cols & -> & Hc).
    { rewrite Hcols, Z2Nat.id by lia. apply Z.mod_pos_bound. lia. }
    simpl. eexists; split; [done|]. simpl. by rewrite Hr, Hc.
  - simpl. destruct (a_sum_abs s) as [[sr sg] sb], (a_max_abs s) as [[mr mg] mb].
    destruct (a_pixels_diff s =? 0); by eauto.
Qed.

End FrameDiff.

(** C9. On two buffers of the stated geometry [compute_frame_diff]
    returns statistics in which [pixels_diff] is zero exactly when the
    bounding box is absent and every mean and maximum absolute delta is
    zero, and in which a positive [pixels_diff] comes with a bounding
    box. *)
Theorem frame_diff_zero_iff_no_bbox (frame : Z) (a b : bytes) (width height : Z) :
  0 ≤ width → 0 ≤ height →
  Z.of_nat (length a) = width * height * 3 → length b = length a →
  ∃ stats,
    Rgb24.compute_frame_diff frame a b width height = Ok stats ∧
    (Rgb24.pixels_diff stats = 0 ↔
     Rgb24.bbox stats = None ∧
     (Rgb24.mean_abs_r stats == 0)%Q ∧ (Rgb24.mean_abs_g stats == 0)%Q ∧
     (Rgb24.mean_abs_b stats == 0)%Q ∧
     Rgb24.max_abs_r stats = 0 ∧ Rgb24.max_abs_g stats = 0 ∧
     Rgb24.max_abs_b stats = 0) ∧
    (0 < Rgb24.pixels_diff stats → is_Some (Rgb24.bbox stats)).
Proof.
  intros Hw Hh Hla Hlb.
  destruct (compute_frame_diff_total frame a b width height Hw Hh Hla Hlb)
    as [stats Hrun].
  exists stats. split; [done|]. by apply compute_frame_diff_inv in Hrun.
Qed.

Lemma frame_diff_zero_iff_no_bbox_witness :
  ∃ stats,
    Rgb24.compute_frame_diff 60 [x01; x02; x03; x04; x05; x06]
                             [x01; x02; x03; x04; x07; x06] 2 1 = Ok stats ∧
    (Rgb24.pixels_diff stats = 0 ↔
     Rgb24.bbox stats = None ∧
     (Rgb24.mean_abs_r stats == 0)%Q ∧ (Rgb24.mean_abs_g stats == 0)%Q ∧
     (Rgb24.mean_abs_b stats == 0)%Q ∧
     Rgb24.max_abs_r stats = 0 ∧ Rgb24.max_abs_g stats = 0 ∧
     Rgb24.max_abs_b stats = 0) ∧
    (0 < Rgb24.pixels_diff stats → is_Some (Rgb24.bbox stats)).
Proof.
  apply (frame_diff_zero_iff_no_bbox 60 [x01; x02; x03; x04; x05; x06]
           [x01; x02; x03; x04; x07; x06] 2 1); [lia|lia|reflexivity|reflexivity].
Defined.

(** ** The divergence locator of the register traces *)

Section RegisterLocator.
Import PpuReg.

Lemma event_field_value_supported e f :
  f ∈ valid_fields → ∃ n, event_field_value e f = Ok n.
Proof.
  unfold valid_fields. intros Hf. set_unfold in Hf.
  destruct_or!; subst f; by eexists.
Qed.

Lemma any_differs_spec ea eb fields :
  supported fields →
  ∃ d : bool, any_differs ea eb fields = Ok d ∧
              (d = true → differ_on fields ea eb) ∧
              (d = false → agree_on fields ea eb).
Proof.
  induction fields as [|f fields IH]; intros Hsup.
  - exists false. split; [done|]. split; [done|].
    intros _ f Hf. by apply elem_of_nil in Hf.
  - destruct (event_field_value_supported ea f) as [va Ha].
    { apply Hsup. by left. }
    destruct (event_field_value_supported eb f) as [vb Hb].
    { apply Hsup. by left. }
    simpl. rewrite Ha, Hb. simpl.
    destruct (Z.eqb_spec va vb) as [->|Hne]; simpl.
    + destruct IH as (d & Hd & Htrue & Hfalse).
      { intros g Hg. apply Hsup. by right. }
      exists d. split; [done|]. split.
      * intros Hdt. destruct (Htrue Hdt) as (g & Hg & Hdiff).
        exists g. split; [by right|done].
      * intros Hdf g Hg. apply elem_of_cons in Hg as [->|Hg].
        -- by rewrite Ha, Hb.
        -- by apply Hfalse.
    + exists true. split; [done|]. split; [|done].
      intros _. exists f. split; [by left|]. rewrite Ha, Hb. congruence.
Qed.

Lemma agree_not_differ fields ea eb :
  agree_on fields ea eb → ¬ differ_on fields ea eb.
Proof. intros Hag (f & Hf & Hne). by apply Hne, Hag. Qed.

(** On its nine keys the table of [event_field_value] holds the
    component of the record that has the key as its name. *)
Lemma event_field_value_field_of e f :
  f ∈ valid_fields →
  ∃ n, event_field_value e f = Ok n ∧ field_of e f = Some n.
Proof.
  unfold valid_fields. intros Hf. set_unfold in Hf.
  destruct_or!; subst f; eexists; split; reflexivity.
Qed.

Lemma agree_on_fields_agree fields ea eb :
  supported fields → (agree_on fields ea eb ↔ fields_agree fields ea eb).
Proof.
  intros Hsup. split; intros Hag f Hf.
  - destruct (event_field_value_field_of ea f (Hsup f Hf)) as (va & Ha & ->).
    destruct (event_field_value_field_of eb f (Hsup f Hf)) as (vb & Hb & ->).
    specialize (Hag f Hf). rewrite Ha, Hb in Hag. congruence.
  - destruct (event_field_value_field_of ea f (Hsup f Hf)) as (va & -> & Ha).
    destruct (event_field_value_field_of eb f (Hsup f Hf)) as (vb & -> & Hb).
    specialize (Hag f Hf). rewrite Ha, Hb in Hag. congruence.
Qed.

Lemma differ_on_fields_differ fields ea eb :
  supported fields → (differ_on fields ea eb ↔ fields_differ fields ea eb).
Proof.
  intros Hsup. split; intros (f & Hf & Hne); exists f; (split; [done|]).
  - destruct (event_field_value_field_of ea f (Hsup f Hf)) as (va & Ha & ->).
    destruct (event_field_value_field_of eb f (Hsup f Hf)) as (vb & Hb & ->).
    rewrite Ha, Hb in Hne. congruence.
  - destruct (event_field_value_field_of ea f (Hsup f Hf)) as (va & -> & Ha).
    destruct (event_field_value_field_of eb f (Hsup f Hf)) as (vb & -> & Hb).
    rewrite Ha, Hb in Hne. congruence.
Qed.

(** The scan of the common prefix: it stops at the least position whose
    events differ on [fields], and ends with nothing when none does. *)
Lemma scan_spec fields a :
  supported fields →
  ∀ (i : nat) b,
    (∃ (k : nat) ea eb,
        scan i a b fields = Ok (Some ((i + k)%nat, ea, eb)) ∧
        a !! k = Some ea ∧ b !! k = Some eb ∧ differ_on fields ea eb ∧
        prefix_agrees fields (take k a) (take k b)) ∨
    (scan i a b fields = Ok None ∧ prefix_agrees fields a b).
Proof.
  intros Hsup. induction a as [|ea a IH]; intros i b.
  - right. split; [done|]. intros j ? ? Hj. by rewrite lookup_nil in Hj.
  - destruct b as [|eb b].
    { right. split; [done|]. intros j ? ? _ Hj. by rewrite lookup_nil in Hj. }
    simpl. destruct (any_differs_spec ea eb fields Hsup) as (d & -> & Htrue & Hfalse).
    simpl. destruct d.
    + left. exists 0%nat, ea, eb. rewrite Nat.add_0_r.
      split_and!; [done|done|done|by apply Htrue|].
      intros j ? ? Hj. by rewrite take_0, lookup_nil in Hj.
    + destruct (IH (S i) b) as [(k & ea' & eb' & Hrun & Ha & Hb & Hd & Hpre)|[Hrun Hpre]].
      * left. exists (S k), ea', eb'.
        replace (i + S k)%nat with (S i + k)%nat by lia.
        split_and!; [done|done|done|done|].
        intros [|j] xa xb Hxa Hxb; simpl in Hxa, Hxb.
        -- injection Hxa as <-. injection Hxb as <-. by apply Hfalse.
        -- by eapply Hpre.
      * right. split; [done|].
        intros [|j] xa xb Hxa Hxb; simpl in Hxa, Hxb.
        -- injection Hxa as <-. injection Hxb as <-. by apply Hfalse.
        -- by eapply Hpre.
Qed.

(** Full description of [first_mismatch] on supported fields. *)
Lemma first_mismatch_spec a b fields :
  supported fields →
  (∃ (k : nat) ea eb,
      first_mismatch a b fields = Ok (Z.of_nat k, Some ea, Some eb) ∧
      a !! k = Some ea ∧ b !! k = Some eb ∧ differ_on fields ea eb ∧
      prefix_agrees fields (take k a) (take k b)) ∨
  (prefix_agrees fields a b ∧ length a ≠ length b ∧
   first_mismatch a b fields
   = Ok (Z.of_nat (Nat.min (length a) (length b)),
         a !! Nat.min (length a) (length b),
         b !! Nat.min (length a) (length b))) ∨
  (prefix_agrees fields a b ∧ length a = length b ∧
   first_mismatch a b fields = Ok (-1, None, None)).
Proof.
  intros Hsup. unfold first_mismatch.
  destruct (scan_spec fields a Hsup 0%nat b)
    as [(k & ea & eb & -> & Ha & Hb & Hd & Hpre)|[-> Hpre]]; simpl.
  - left. by exists k, ea, eb.
  - right. destruct (Nat.eqb_spec (length a) (length b)); simpl; [right|left]; done.
Qed.

Lemma prefix_agrees_take fields a b (k j : nat) ea eb :
  prefix_agrees fields (take k a) (take k b) → (j < k)%nat →
  a !! j = Some ea → b !! j = Some eb → agree_on fields ea eb.
Proof.
  intros Hpre Hj Ha Hb. apply (Hpre j); by rewrite lookup_take_lt.
Qed.

(** The least differing position is the one returned. *)
Lemma first_mismatch_least a b fields (k : nat) ea eb :
  supported fields →
  a !! k = Some ea → b !! k = Some eb → differ_on fields ea eb →
  (∀ (j : nat) xa xb, (j < k)%nat → a !! j = Some xa → b !! j = Some xb →
                      agree_on fields xa xb) →
  first_mismatch a b fields = Ok (Z.of_nat k, Some ea, Some eb).
Proof.
  intros Hsup Ha Hb Hd Hbefore.
  destruct (first_mismatch_spec a b fields Hsup)
    as [(k' & ea' & eb' & Hrun & Ha' & Hb' & Hd' & Hpre)|[(Hpre & _)|(Hpre & _)]].
  - destruct (Nat.lt_trichotomy k k') as [Hlt|[->|Hgt]].
    + exfalso. eapply agree_not_differ; [|exact Hd].
      by eapply prefix_agrees_take.
    + congruence.
    + exfalso. eapply agree_not_differ; [|exact Hd']. by eapply Hbefore.
  - exfalso. eapply agree_not_differ; [|exact Hd]. by eapply Hpre.
  - exfalso. eapply agree_not_differ; [|exact Hd]. by eapply Hpre.
Qed.

Lemma first_mismatch_agreeing a b fields :
  supported fields → prefix_agrees fields a b → length a = length b →
  first_mismatch a b fields = Ok (-1, None, None).
Proof.
  intros Hsup Hpre Hlen.
  destruct (first_mismatch_spec a b fields Hsup)
    as [(k & ea & eb & _ & Ha & Hb & Hd & _)|[(_ & Hne & _)|(_ & _ & Hrun)]];
    [|done..].
  exfalso. eapply agree_not_differ; [|exact Hd]. by eapply Hpre.
Qed.

Lemma first_mismatch_tail a b fields :
  supported fields → prefix_agrees fields a b → length a ≠ length b →
  first_mismatch a b fields
  = Ok (Z.of_nat (Nat.min (length a) (length b)),
        a !! Nat.min (length a) (length b),
        b !! Nat.min (length a) (length b)).
Proof.
  intros Hsup Hpre Hlen.
  destruct (first_mismatch_spec a b fields Hsup)
    as [(k & ea & eb & _ & Ha & Hb & Hd & _)|[(_ & _ & Hrun)|(_ & Heq & _)]];
    [|done..].
  exfalso. eapply agree_not_differ; [|exact Hd]. by eapply Hpre.
Qed.

(** The same, with the fields read off the records. *)
Lemma first_mismatch_least_fields a b fields (k : nat) ea eb :
  supported fields →
  a !! k = Some ea → b !! k = Some eb → fields_differ fields ea eb →
  (∀ (j : nat) xa xb, (j < k)%nat → a !! j = Some xa → b !! j = Some xb →
                      fields_agree fields xa xb) →
  first_mismatch a b fields = Ok (Z.of_nat k, Some ea, Some eb).
Proof.
  intros Hsup Ha Hb Hd Hbefore. apply first_mismatch_least; [done..| |].
  - by apply differ_on_fields_differ.
  - intros j xa xb Hj Hxa Hxb. apply agree_on_fields_agree; [done|].
    by eapply Hbefore.
Qed.

Lemma first_mismatch_agreeing_fields a b fields :
  supported fields →
  (∀ (j : nat) ea eb, a !! j = Some ea → b !! j = Some eb →
                      fields_agree fields ea eb) →
  length a = length b →
  first_mismatch a b fields = Ok (-1, None, None).
Proof.
  intros Hsup Hpre Hlen. apply first_mismatch_agreeing; [done| |done].
  intros j ea eb Ha Hb. apply agree_on_fields_agree; [done|]. by eapply Hpre.
Qed.

(** Two events returned at a position differ there, and nothing differs
    before. *)
Lemma first_mismatch_found_fields a b fields (k : nat) ea eb :
  supported fields →
  first_mismatch a b fields = Ok (Z.of_nat k, Some ea, Some eb) →
  a !! k = Some ea ∧ b !! k = Some eb ∧ fields_differ fields ea eb ∧
  ∀ (j : nat) xa xb, (j < k)%nat → a !! j = Some xa → b !! j = Some xb →
                     fields_agree fields xa xb.
Proof.
  intros Hsup Hrun.
  destruct (first_mismatch_spec a b fields Hsup)
    as [(k' & ea' & eb' & Hrun' & Ha & Hb & Hd & Hpre)
       |[(_ & Hne & Hrun')|(_ & _ & Hrun')]];
    rewrite Hrun' in Hrun.
  - injection Hrun as Hk <- <-. apply Nat2Z.inj in Hk as ->.
    split_and!; [done|done|by apply differ_on_fields_differ|].
    intros j xa xb Hj Hxa Hxb. apply agree_on_fields_agree; [done|].
    by eapply prefix_agrees_take.
  - injection Hrun as _ Ha Hb.
    apply lookup_lt_Some in Ha, Hb. lia.
  - injection Hrun as Hk. lia.
Qed.

End RegisterLocator.

(** ** The divergence locator of the APU traces *)

Section ApuLocator.
Import ApuTrace.

Lemma apu_key_differs_refl m : key_differs m m = false.
Proof. unfold key_differs. by rewrite !String.eqb_refl. Qed.

(** The key comparison of [compare_events] answers whether kind, address
    and value are the same. *)
Lemma apu_key_differs_same_event m n :
  key_differs m n = false ↔ apu_same_event m n.
Proof.
  unfold key_differs, apu_same_event.
  destruct (String.eqb_spec (ev m) (ev n)), (String.eqb_spec (addr m) (addr n)),
    (String.eqb_spec (value m) (value n)); simpl; split; try done;
    intros (? & ? & ?); done.
Qed.

Lemma apu_key_differs_other_event m n :
  key_differs m n = true ↔ ¬ apu_same_event m n.
Proof.
  rewrite <- apu_key_differs_same_event. by destruct (key_differs m n).
Qed.

Lemma apu_first_differing_spec ms :
  ∀ (i : nat) ns,
    (∃ (k : nat) m n,
        first_differing i ms ns = Some ((i + k)%nat, m, n) ∧
        ms !! k = Some m ∧ ns !! k = Some n ∧ key_differs m n = true ∧
        ∀ (j : nat) xm xn, (j < k)%nat → ms !! j = Some xm → ns !! j = Some xn →
                           key_differs xm xn = false) ∨
    (first_differing i ms ns = None ∧
     ∀ (j : nat) xm xn, ms !! j = Some xm → ns !! j = Some xn →
                        key_differs xm xn = false).
Proof.
  induction ms as [|m ms IH]; intros i ns.
  - right. split; [done|]. intros j ? ? Hj. by rewrite lookup_nil in Hj.
  - destruct ns as [|n ns].
    { right. split; [done|]. intros j ? ? _ Hj. by rewrite lookup_nil in Hj. }
    simpl. destruct (key_differs m n) eqn:Hd.
    + left. exists 0%nat, m, n. rewrite Nat.add_0_r.
      split_and!; [done..|]. intros j ? ? Hj. lia.
    + destruct (IH (S i) ns) as [(k & m' & n' & Hrun & Hm & Hn & Hd' & Hpre)|[Hrun Hpre]].
      * left. exists (S k), m', n'.
        replace (i + S k)%nat with (S i + k)%nat by lia.
        split_and!; [done..|].
        intros [|j] xm xn Hj Hxm Hxn; simpl in Hxm, Hxn.
        -- by injection Hxm as <-; injection Hxn as <-.
        -- apply (Hpre j); [lia|done..].
      * right. split; [done|].
        intros [|j] xm xn Hxm Hxn; simpl in Hxm, Hxn.
        -- by injection Hxm as <-; injection Hxn as <-.
        -- by apply (Hpre j).
Qed.

Lemma apu_compare_events_least ms ns context (k : nat) m n :
  ms !! k = Some m → ns !! k = Some n → key_differs m n = true →
  (∀ (j : nat) xm xn, (j < k)%nat → ms !! j = Some xm → ns !! j = Some xn →
                      key_differs xm xn = false) →
  ∃ rest, compare_events ms ns context
          = (PFirstMismatchFound :: PIndex k
             :: PSide "mesen" (ev m) (addr m) (value m)
             :: PSide "nesium" (ev n) (addr n) (value n) :: rest, 1).
Proof.
  intros Hm Hn Hd Hbefore. unfold compare_events.
  destruct (apu_first_differing_spec ms 0%nat ns)
    as [(k' & m' & n' & -> & Hm' & Hn' & Hd' & Hpre)|[_ Hpre]].
  - destruct (Nat.lt_trichotomy k k') as [Hlt|[->|Hgt]].
    + rewrite (Hpre k m n Hlt Hm Hn) in Hd. done.
    + rewrite Hm in Hm'. rewrite Hn in Hn'.
      injection Hm' as <-. injection Hn' as <-. simpl. by eexists.
    + rewrite (Hbefore k' m' n' Hgt Hm' Hn') in Hd'. done.
  - rewrite (Hpre k m n Hm Hn) in Hd. done.
Qed.

Lemma apu_compare_events_agreeing ms ns context :
  (∀ (j : nat) xm xn, ms !! j = Some xm → ns !! j = Some xn →
                      key_differs xm xn = false) →
  compare_events ms ns context
  = if negb (length ms =? length ns)%nat
    then ([PEventCountMismatch; PEventCount "mesen" (length ms);
           PEventCount "nesium" (length ns)], 1)
    else ([PNoMismatch (Nat.min (length ms) (length ns))], 0).
Proof.
  intros Hsame. unfold compare_events.
  destruct (apu_first_differing_spec ms 0%nat ns)
    as [(k & m & n & _ & Hm & Hn & Hd & _)|[-> _]]; [|done].
  rewrite (Hsame k m n Hm Hn) in Hd. done.
Qed.

Lemma apu_compare_events_same ms context :
  compare_events ms ms context = ([PNoMismatch (length ms)], 0).
Proof.
  rewrite apu_compare_events_agreeing.
  - by rewrite Nat.eqb_refl, Nat.min_id.
  - intros j xm xn Hm Hn. rewrite Hm in Hn. injection Hn as <-.
    apply apu_key_differs_refl.
Qed.

(** The status of [compare_events] is 0 or 1, and 0 exactly when the
    two sequences have one length and pairwise equal keys. *)
Lemma apu_compare_events_status ms ns context :
  ((compare_events ms ns context).2 = 0 ∨ (compare_events ms ns context).2 = 1) ∧
  ((compare_events ms ns context).2 = 0 ↔
   length ms = length ns ∧
   ∀ (j : nat) xm xn, ms !! j = Some xm → ns !! j = Some xn →
                      key_differs xm xn = false).
Proof.
  unfold compare_events.
  destruct (apu_first_differing_spec ms 0%nat ns)
    as [(k & m & n & -> & Hm & Hn & Hd & _)|[-> Hpre]]; simpl.
  - split; [by right|]. split; [done|]. intros [_ Hsame].
    rewrite (Hsame k m n Hm Hn) in Hd. done.
  - destruct (Nat.eqb_spec (length ms) (length ns)); simpl.
    + split; [by left|]. done.
    + split; [by right|]. split; [done|]. by intros [? _].
Qed.

(** The same, with the events compared by kind, address and value. *)
Lemma apu_compare_events_least_event ms ns context (k : nat) m n :
  ms !! k = Some m → ns !! k = Some n → ¬ apu_same_event m n →
  (∀ (j : nat) xm xn, (j < k)%nat → ms !! j = Some xm → ns !! j = Some xn →
                      apu_same_event xm xn) →
  ∃ rest, compare_events ms ns context
          = (PFirstMismatchFound :: PIndex k
             :: PSide "mesen" (ev m) (addr m) (value m)
             :: PSide "nesium" (ev n) (addr n) (value n) :: rest, 1).
Proof.
  intros Hm Hn Hd Hbefore. apply apu_compare_events_least; [done..| |].
  - by apply apu_key_differs_other_event.
  - intros j xm xn Hj Hxm Hxn. apply apu_key_differs_same_event.
    by eapply Hbefore.
Qed.

(** A first mismatch reported at a position: the events there differ in
    kind, address or value, and no earlier pair does. *)
Lemma apu_compare_events_found_event ms ns context (k : nat) rest status :
  compare_events ms ns context
  = (PFirstMismatchFound :: PIndex k :: rest, status) →
  ∃ m n, ms !! k = Some m ∧ ns !! k = Some n ∧ ¬ apu_same_event m n ∧
         ∀ (j : nat) xm xn, (j < k)%nat → ms !! j = Some xm → ns !! j = Some xn →
                            apu_same_event xm xn.
Proof.
  unfold compare_events.
  destruct (apu_first_differing_spec ms 0%nat ns)
    as [(k' & m & n & -> & Hm & Hn & Hd & Hpre)|[-> _]].
  - simpl. intros [= <- _ _]. exists m, n. split_and!; [done..| |].
    + by apply apu_key_differs_other_event.
    + intros j xm xn Hj Hxm Hxn. apply apu_key_differs_same_event.
      by eapply Hpre.
  - by destruct (negb _).
Qed.

End ApuLocator.

(** ** The divergence locator of the NMI traces *)

Section NmiLocator.
Import NmiTrace.

Lemma nmi_first_differing_spec ms :
  ∀ (i : nat) ns,
    (∃ (k : nat) m n,
        first_differing i ms ns = Some ((i + k)%nat, m, n) ∧
        ms !! k = Some m ∧ ns !! k = Some n ∧ key_of m ≠ key_of n ∧
        ∀ (j : nat) xm xn, (j < k)%nat → ms !! j = Some xm → ns !! j = Some xn →
                           key_of xm = key_of xn) ∨
    (first_differing i ms ns = None ∧
     ∀ (j : nat) xm xn, ms !! j = Some xm → ns !! j = Some xn →
                        key_of xm = key_of xn).
Proof.
  induction ms as [|m ms IH]; intros i ns.
  - right. split; [done|]. intros j ? ? Hj. by rewrite lookup_nil in Hj.
  - destruct ns as [|n ns].
    { right. split; [done|]. intros j ? ? _ Hj. by rewrite lookup_nil in Hj. }
    simpl. destruct (bool_decide_reflect (key_of m = key_of n)) as [Heq|Hne]; simpl.
    + destruct (IH (S i) ns) as [(k & m' & n' & Hrun & Hm & Hn & Hd' & Hpre)|[Hrun Hpre]].
      * left. exists (S k), m', n'.
        replace (i + S k)%nat with (S i + k)%nat by lia.
        split_and!; [done..|].
        intros [|j] xm xn Hj Hxm Hxn; simpl in Hxm, Hxn.
        -- by injection Hxm as <-; injection Hxn as <-.
        -- apply (Hpre j); [lia|done..].
      * right. split; [done|].
        intros [|j] xm xn Hxm Hxn; simpl in Hxm, Hxn.
        -- by injection Hxm as <-; injection Hxn as <-.
        -- by apply (Hpre j).
    + left. exists 0%nat, m, n. rewrite Nat.add_0_r.
      split_and!; [done..|]. intros j ? ? Hj. lia.
Qed.

Lemma nmi_compare_events_agreeing ms ns context :
  (∀ (j : nat) xm xn, ms !! j = Some xm → ns !! j = Some xn →
                      key_of xm = key_of xn) →
  compare_events ms ns context
  = if negb (length ms =? length ns)%nat
    then ([PEventCountMismatch; PEventCount "mesen" (length ms);
           PEventCount "nesium" (length ns)], 1)
    else ([PNoMismatch (Nat.min (length ms) (length ns))], 0).
Proof.
  intros Hsame. unfold compare_events.
  destruct (nmi_first_differing_spec ms 0%nat ns)
    as [(k & m & n & _ & Hm & Hn & Hd & _)|[-> _]]; [|done].
  by destruct (Hd (Hsame k m n Hm Hn)).
Qed.

Lemma nmi_compare_events_status ms ns context :
  ((compare_events ms ns context).2 = 0 ∨ (compare_events ms ns context).2 = 1) ∧
  ((compare_events ms ns context).2 = 0 ↔
   length ms = length ns ∧
   ∀ (j : nat) xm xn, ms !! j = Some xm → ns !! j = Some xn →
                      key_of xm = key_of xn).
Proof.
  unfold compare_events.
  destruct (nmi_first_differing_spec ms 0%nat ns)
    as [(k & m & n & -> & Hm & Hn & Hd & _)|[-> Hpre]]; simpl.
  - split; [by right|]. split; [done|]. intros [_ Hsame].
    by destruct (Hd (Hsame k m n Hm Hn)).
  - destruct (Nat.eqb_spec (length ms) (length ns)); simpl.
    + split; [by left|]. done.
    + split; [by right|]. split; [done|]. by intros [? _].
Qed.

End NmiLocator.

(** C1. On supported fields [first_mismatch] returns the least position
    of the common prefix at which some selected field differs, with the
    two events found there, and whatever pair of events it returns stands
    at such a position; two identical sequences give "no mismatch" (-1)
    for any field selection; two sequences that differ in one field [f]
    of the event at position [k] only give [k] when [f] alone is selected
    and "no mismatch" when [f] is not selected.  The APU tool's
    [compare_events], whose key is fixed, likewise reports the least
    position at which kind, address or value differ, and nothing for
    identical sequences.  The fields are those of the records
    ([field_of], [apu_same_event]), not the answers of the code's own
    comparisons. *)
Theorem divergence_locator_least_index
    (a b : list PpuReg.Event) (fields : list string) :
  supported fields →
  (∀ (k : nat) ea eb,
      a !! k = Some ea → b !! k = Some eb → fields_differ fields ea eb →
      (∀ (j : nat) xa xb, (j < k)%nat → a !! j = Some xa → b !! j = Some xb →
                          fields_agree fields xa xb) →
      PpuReg.first_mismatch a b fields = Ok (Z.of_nat k, Some ea, Some eb)) ∧
  (∀ (k : nat) ea eb,
      PpuReg.first_mismatch a b fields = Ok (Z.of_nat k, Some ea, Some eb) →
      a !! k = Some ea ∧ b !! k = Some eb ∧ fields_differ fields ea eb ∧
      ∀ (j : nat) xa xb, (j < k)%nat → a !! j = Some xa → b !! j = Some xb →
                         fields_agree fields xa xb) ∧
  PpuReg.first_mismatch a a fields = Ok (-1, None, None) ∧
  (∀ (k : nat) f ea eb,
      length a = length b → a !! k = Some ea → b !! k = Some eb →
      (∀ j : nat, j ≠ k → a !! j = b !! j) →
      f ∈ PpuReg.valid_fields →
      field_of ea f ≠ field_of eb f →
      (∀ g, g ∈ PpuReg.valid_fields → g ≠ f → field_of ea g = field_of eb g) →
      PpuReg.first_mismatch a b [f] = Ok (Z.of_nat k, Some ea, Some eb) ∧
      (f ∉ fields → PpuReg.first_mismatch a b fields = Ok (-1, None, None))) ∧
  (∀ (ms ns : list ApuTrace.TraceEvent) (context : Z) (k : nat) m n,
      ms !! k = Some m → ns !! k = Some n → ¬ apu_same_event m n →
      (∀ (j : nat) xm xn, (j < k)%nat → ms !! j = Some xm → ns !! j = Some xn →
                          apu_same_event xm xn) →
      ∃ rest, ApuTrace.compare_events ms ns context
              = (ApuTrace.PFirstMismatchFound :: ApuTrace.PIndex k
                 :: ApuTrace.PSide "mesen" (ApuTrace.ev m) (ApuTrace.addr m)
                                   (ApuTrace.value m)
                 :: ApuTrace.PSide "nesium" (ApuTrace.ev n) (ApuTrace.addr n)
                                   (ApuTrace.value n)
                 :: rest, 1)) ∧
  (∀ (ms ns : list ApuTrace.TraceEvent) (context : Z) (k : nat) rest status,
      ApuTrace.compare_events ms ns context
      = (ApuTrace.PFirstMismatchFound :: ApuTrace.PIndex k :: rest, status) →
      ∃ m n, ms !! k = Some m ∧ ns !! k = Some n ∧ ¬ apu_same_event m n ∧
             ∀ (j : nat) xm xn, (j < k)%nat →
                                ms !! j = Some xm → ns !! j = Some xn →
                                apu_same_event xm xn) ∧
  (∀ (ms : list ApuTrace.TraceEvent) (context : Z),
      ApuTrace.compare_events ms ms context
      = ([ApuTrace.PNoMismatch (length ms)], 0)).
Proof.
  intros Hsup. split_and!.
  - intros k ea eb. by apply first_mismatch_least_fields.
  - intros k ea eb. by apply first_mismatch_found_fields.
  - apply first_mismatch_agreeing_fields; [done| |done].
    intros j ea eb Ha Hb. rewrite Ha in Hb. by injection Hb as <-.
  - intros k f ea eb Hlen Ha Hb Hother Hf Hdiff Hrest. split.
    + apply first_mismatch_least_fields; [|done|done| |].
      * intros g Hg. by apply list_elem_of_singleton in Hg as ->.
      * exists f. split; [by apply list_elem_of_singleton|done].
      * intros j xa xb Hj Hxa Hxb. rewrite (Hother j) in Hxa by lia.
        rewrite Hxa in Hxb. by injection Hxb as <-.
    + intros Hnot. apply first_mismatch_agreeing_fields; [done| |done].
      intros j xa xb Hxa Hxb. destruct (decide (j = k)) as [->|Hne].
      * rewrite Ha in Hxa. rewrite Hb in Hxb.
        injection Hxa as <-. injection Hxb as <-.
        intros g Hg. apply Hrest; [by apply Hsup|]. by intros ->.
      * rewrite (Hother j Hne) in Hxa. rewrite Hxa in Hxb. by injection Hxb as <-.
  - intros ms ns context k m n. apply apu_compare_events_least_event.
  - intros ms ns context k rest status. apply apu_compare_events_found_event.
  - intros ms context. apply apu_compare_events_same.
Qed.

Lemma divergence_locator_least_index_witness :
  supported ["addr"; "value"] ∧
  fields_differ ["addr"; "value"] (sample_write 0x3F) (sample_write 0x3E) ∧
  PpuReg.first_mismatch [sample_write 0x3F] [sample_write 0x3E] ["addr"; "value"]
  = Ok (0, Some (sample_write 0x3F), Some (sample_write 0x3E)).
Proof.
  assert (supported ["addr"; "value"]) as Hsup.
  { intros f Hf. unfold PpuReg.valid_fields. set_unfold. tauto. }
  assert (fields_differ ["addr"; "value"] (sample_write 0x3F) (sample_write 0x3E))
    as Hdiff.
  { exists "value". split; [set_solver|]. vm_compute. discriminate. }
  split; [exact Hsup|]. split; [exact Hdiff|].
  apply (proj1 (divergence_locator_least_index
                  [sample_write 0x3F] [sample_write 0x3E] ["addr"; "value"] Hsup)
               0%nat (sample_write 0x3F) (sample_write 0x3E)).
  - reflexivity.
  - reflexivity.
  - exact Hdiff.
  - intros j xa xb Hj. lia.
Defined.

(** C2, as the code has it.  When the common prefix agrees on the
    selected fields and the lengths differ, [first_mismatch] returns the
    length of the shorter sequence with the event of the longer sequence
    at that position and nothing for the shorter one; [compare_events] of
    the NMI and APU tools reports the same situation as an event-count
    mismatch that carries the two lengths only, with status 1. *)
Theorem length_mismatch_reported_at_tail
    (a b : list PpuReg.Event) (fields : list string) :
  supported fields → prefix_agrees fields a b → length a ≠ length b →
  (PpuReg.first_mismatch a b fields
   = Ok (Z.of_nat (Nat.min (length a) (length b)),
         a !! Nat.min (length a) (length b),
         b !! Nat.min (length a) (length b)) ∧
   ((length a < length b)%nat →
    a !! Nat.min (length a) (length b) = None ∧
    is_Some (b !! Nat.min (length a) (length b))) ∧
   ((length b < length a)%nat →
    is_Some (a !! Nat.min (length a) (length b)) ∧
    b !! Nat.min (length a) (length b) = None)) ∧
  (∀ (ms ns : list NmiTrace.TraceEvent) (context : Z),
      (∀ (j : nat) xm xn, ms !! j = Some xm → ns !! j = Some xn →
                          NmiTrace.key_of xm = NmiTrace.key_of xn) →
      length ms ≠ length ns →
      NmiTrace.compare_events ms ns context
      = ([NmiTrace.PEventCountMismatch;
          NmiTrace.PEventCount "mesen" (length ms);
          NmiTrace.PEventCount "nesium" (length ns)], 1)) ∧
  (∀ (ms ns : list ApuTrace.TraceEvent) (context : Z),
      (∀ (j : nat) xm xn, ms !! j = Some xm → ns !! j = Some xn →
                          ApuTrace.key_differs xm xn = false) →
      length ms ≠ length ns →
      ApuTrace.compare_events ms ns context
      = ([ApuTrace.PEventCountMismatch;
          ApuTrace.PEventCount "mesen" (length ms);
          ApuTrace.PEventCount "nesium" (length ns)], 1)).
Proof.
  intros Hsup Hpre Hlen. split_and!.
  - by apply first_mismatch_tail.
  - intros Hlt. rewrite Nat.min_l by lia. split.
    + by apply lookup_ge_None_2.
    + by apply lookup_lt_is_Some_2.
  - intros Hlt. rewrite Nat.min_r by lia. split.
    + by apply lookup_lt_is_Some_2.
    + by apply lookup_ge_None_2.
  - intros ms ns context Hsame Hne.
    rewrite nmi_compare_events_agreeing by done.
    by destruct (Nat.eqb_spec (length ms) (length ns)).
  - intros ms ns context Hsame Hne.
    rewrite apu_compare_events_agreeing by done.
    by destruct (Nat.eqb_spec (length ms) (length ns)).
Qed.

Lemma length_mismatch_reported_at_tail_witness :
  PpuReg.first_mismatch [sample_write 0x3F]
                        [sample_write 0x3F; sample_write 0x3E] ["addr"; "value"]
  = Ok (1, None, Some (sample_write 0x3E)).
Proof.
  refine (proj1 (proj1 (length_mismatch_reported_at_tail
                          [sample_write 0x3F]
                          [sample_write 0x3F; sample_write 0x3E]
                          ["addr"; "value"] _ _ _))).
  - intros f Hf. unfold PpuReg.valid_fields. set_unfold. tauto.
  - intros [|[|j]] ea eb Ha Hb; simpl in Ha, Hb; [|done..].
    injection Ha as <-. injection Hb as <-. done.
  - simpl. lia.
Defined.

(** C2 as stated fails for the NMI tool: with an empty trace against a
    trace of one event the report consists of the two counts; it names no
    position and displays no event. *)
Lemma nmi_length_mismatch_shows_no_event :
  NmiTrace.compare_events [] [sample_nmi] 4
  = ([NmiTrace.PEventCountMismatch;
      NmiTrace.PEventCount "mesen" 0;
      NmiTrace.PEventCount "nesium" 1], 1) ∧
  ¬ nmi_report_shows (NmiTrace.compare_events [] [sample_nmi] 4).1 0 sample_nmi.
Proof.
  split; [reflexivity|].
  intros [Hidx _]. simpl in Hidx.
  repeat (apply elem_of_cons in Hidx as [Hidx|Hidx]; [done|]).
  by apply elem_of_nil in Hidx.
Qed.

(** ** Exit statuses *)

Section ExitStatus.

Lemma rgb24_main_status fs args printed status :
  Rgb24.main fs args = (printed, Returned status) → status = 0.
Proof.
  unfold Rgb24.main. intros H.
  destruct (Rgb24.parse_frames_csv _) as [frames|]; [|done].
  destruct (Rgb24.frames_loop _ _ _ _ _) as [out [all_stats|]]; [|done].
  by injection H as _ <-.
Qed.

Lemma mask_report_status args data_a data_b printed status :
  MaskDiff.report args data_a data_b = (printed, Returned status) →
  (status = 1 ∧ length data_a ≠ length data_b) ∨
  (status = 0 ∧ length data_a = length data_b).
Proof.
  unfold MaskDiff.report. intros H.
  destruct (Nat.eqb_spec (length data_a) (length data_b)) as [Heq|Hne]; simpl in H.
  - right. split; [|done].
    destruct (_ ≫= _) as [positions|]; [|done].
    destruct (_ =? 0); [by injection H as _ <-|].
    destruct (for_each _ _ _); [|done]. by injection H as _ <-.
  - left. by injection H as _ <-.
Qed.

Lemma mask_main_status fs args printed status data_a data_b :
  fs !! MaskDiff.a args = Some data_a → fs !! MaskDiff.b args = Some data_b →
  MaskDiff.main fs args = (printed, Returned status) →
  (status = 1 ∧ length data_a ≠ length data_b) ∨
  (status = 0 ∧ length data_a = length data_b).
Proof.
  unfold MaskDiff.main, MaskDiff.read_bytes. intros -> ->. simpl.
  apply mask_report_status.
Qed.

Lemma palette_frames_loop_found fs args inverse frames :
  ∀ found_any printed found_any',
    PaletteDiff.frames_loop fs args inverse frames found_any
    = (printed, Ok found_any') →
    (found_any' = true ↔
     found_any = true ∨ ∃ found, PaletteDiff.PFirstMismatchAt found ∈ printed).
Proof.
  induction frames as [|frame frames IH]; intros found_any printed found_any' H;
    simpl in H.
  - injection H as <- <-. split; [by left|]. intros [?|[found Hin]]; [done|].
    by apply elem_of_nil in Hin.
  - destruct (PaletteDiff.frame_result fs args inverse frame)
      as [[[[[mismatch|] u] im] em]|]; [| |done].
    + destruct (PaletteDiff.frames_loop fs args inverse frames true)
        as [printed1 r1] eqn:Hrest.
      injection H as <- ->. apply IH in Hrest. split.
      * intros _. right. exists mismatch. by left.
      * intros _. apply Hrest. by left.
    + destruct (PaletteDiff.frames_loop fs args inverse frames found_any)
        as [printed1 r1] eqn:Hrest.
      injection H as <- ->. apply IH in Hrest. rewrite Hrest. split.
      * intros [?|[found Hin]]; [by left|]. right. exists found. by right.
      * intros [?|[found Hin]]; [by left|]. right. exists found.
        by apply elem_of_cons in Hin as [?|?].
Qed.

Lemma palette_main_status fs args printed status :
  PaletteDiff.main fs args = (printed, Returned status) →
  (status = 1 ∧ ∃ found, PaletteDiff.PFirstMismatchAt found ∈ printed) ∨
  (status = 0 ∧ ∀ found, PaletteDiff.PFirstMismatchAt found ∉ printed).
Proof.
  unfold PaletteDiff.main. intros H.
  destruct (_ ≫= _) as [[frames inverse]|]; [|done].
  destruct (PaletteDiff.frames_loop _ _ _ _ _) as [out [found_any|]] eqn:Hloop;
    [|done].
  injection H as -> <-. apply palette_frames_loop_found in Hloop.
  destruct found_any.
  - left. split; [done|]. by destruct (proj1 Hloop eq_refl).
  - right. split; [done|]. intros found Hin.
    assert (false = true) by (apply Hloop; eauto). done.
Qed.

Lemma apu_main_status args printed status :
  ApuTrace.main args = (printed, Returned status) →
  ∃ mesen_lines nesium_lines ms ns,
    ApuTrace.mesen args = Some mesen_lines ∧
    ApuTrace.nesium args = Some nesium_lines ∧
    ApuTrace.parse_events mesen_lines (ApuTrace.include_read_mem args) = Ok ms ∧
    ApuTrace.parse_events nesium_lines (ApuTrace.include_read_mem args) = Ok ns ∧
    (status = 0 ∨ status = 1) ∧
    (status = 0 ↔
     length ms = length ns ∧
     ∀ (j : nat) xm xn, ms !! j = Some xm → ns !! j = Some xn →
                        ApuTrace.key_differs xm xn = false).
Proof.
  unfold ApuTrace.main, ApuTrace.open_trace. intros H.
  destruct (ApuTrace.mesen args) as [ml|]; [simpl in H|done].
  destruct (ApuTrace.parse_events ml _) as [ms|] eqn:Hms; [simpl in H|done].
  destruct (ApuTrace.nesium args) as [nl|]; [simpl in H|done].
  destruct (ApuTrace.parse_events nl _) as [ns|] eqn:Hns; [simpl in H|done].
  destruct (ApuTrace.compare_events ms ns (ApuTrace.context args))
    as [out st] eqn:Hcmp.
  injection H as _ <-. exists ml, nl, ms, ns. split_and!; [done..| |].
  - pose proof (proj1 (apu_compare_events_status ms ns (ApuTrace.context args))) as Hs.
    by rewrite Hcmp in Hs.
  - pose proof (proj2 (apu_compare_events_status ms ns (ApuTrace.context args))) as Hs.
    by rewrite Hcmp in Hs.
Qed.

Lemma nmi_main_status args printed status :
  NmiTrace.main args = (printed, Returned status) →
  ∃ mesen_lines nesium_lines ms ns,
    NmiTrace.mesen args = Some mesen_lines ∧
    NmiTrace.nesium args = Some nesium_lines ∧
    NmiTrace.parse_events mesen_lines = Ok ms ∧
    NmiTrace.parse_events nesium_lines = Ok ns ∧
    (status = 0 ∨ status = 1) ∧
    (status = 0 ↔
     length ms = length ns ∧
     ∀ (j : nat) xm xn, ms !! j = Some xm → ns !! j = Some xn →
                        NmiTrace.key_of xm = NmiTrace.key_of xn).
Proof.
  unfold NmiTrace.main, NmiTrace.open_trace. intros H.
  destruct (NmiTrace.mesen args) as [ml|]; [simpl in H|done].
  destruct (NmiTrace.parse_events ml) as [ms|] eqn:Hms; [simpl in H|done].
  destruct (NmiTrace.nesium args) as [nl|]; [simpl in H|done].
  destruct (NmiTrace.parse_events nl) as [ns|] eqn:Hns; [simpl in H|done].
  destruct (NmiTrace.compare_events ms ns (NmiTrace.context args))
    as [out st] eqn:Hcmp.
  injection H as _ <-. exists ml, nl, ms, ns. split_and!; [done..| |].
  - pose proof (proj1 (nmi_compare_events_status ms ns (NmiTrace.context args))) as Hs.
    by rewrite Hcmp in Hs.
  - pose proof (proj2 (nmi_compare_events_status ms ns (NmiTrace.context args))) as Hs.
    by rewrite Hcmp in Hs.
Qed.

Lemma filter_nil_not {A} (P : A → Prop) `{∀ x, Decision (P x)} (l : list A) :
  filter P l = [] → ∀ x, x ∈ l → ¬ P x.
Proof.
  intros Hnil x Hin HP.
  assert (x ∈ filter P l) as Hx by (by apply list_elem_of_filter).
  rewrite Hnil in Hx. by apply elem_of_nil in Hx.
Qed.

Lemma ppu_main_status args printed status :
  PpuReg.main args = (printed, Returned status) →
  ∃ mesen_lines nesium_lines,
    PpuReg.mesen args = Some mesen_lines ∧
    PpuReg.nesium args = Some nesium_lines ∧
    supported (PpuReg.selected_fields args) ∧
    (status = 0 ∨ status = 1) ∧
    (status = 0 ↔
     length (PpuReg.load_events mesen_lines)
     = length (PpuReg.load_events nesium_lines) ∧
     prefix_agrees (PpuReg.selected_fields args)
                   (PpuReg.load_events mesen_lines)
                   (PpuReg.load_events nesium_lines)).
Proof.
  unfold PpuReg.main, PpuReg.open_trace. intros H.
  destruct (PpuReg.mesen args) as [ml|]; [simpl in H|done].
  destruct (PpuReg.nesium args) as [nl|]; [simpl in H|done].
  destruct (bool_decide_reflect
              (filter (fun f => f ∉ PpuReg.valid_fields) (PpuReg.selected_fields args)
               = [])) as [Hvalid|]; [simpl in H|done].
  destruct (bool_decide (PpuReg.selected_fields args = [])); [done|].
  assert (supported (PpuReg.selected_fields args)) as Hsup.
  { intros f Hf. destruct (decide (f ∈ PpuReg.valid_fields)); [done|].
    by destruct (filter_nil_not _ _ Hvalid f Hf). }
  exists ml, nl. split_and!; [done..| |];
    destruct (first_mismatch_spec (PpuReg.load_events ml) (PpuReg.load_events nl)
                _ Hsup)
      as [(k & ea & eb & Hrun & Ha & Hb & Hd & _)|[(Hpre & Hne & Hrun)|(Hpre & Heq & Hrun)]];
    rewrite Hrun in H.
  - destruct (Z.ltb_spec (Z.of_nat k) 0); [lia|]. injection H as _ <-. by right.
  - destruct (Z.ltb_spec (Z.of_nat (Nat.min (length (PpuReg.load_events ml))
                                            (length (PpuReg.load_events nl)))) 0);
      [lia|]. injection H as _ <-. by right.
  - injection H as _ <-. by left.
  - destruct (Z.ltb_spec (Z.of_nat k) 0); [lia|]. injection H as _ <-.
    split; [done|]. intros [_ Hpre]. exfalso.
    eapply agree_not_differ; [|exact Hd]. by eapply Hpre.
  - destruct (Z.ltb_spec (Z.of_nat (Nat.min (length (PpuReg.load_events ml))
                                            (length (PpuReg.load_events nl)))) 0);
      [lia|]. injection H as _ <-. split; [done|]. by intros [? _].
  - by injection H as _ <-.
Qed.

End ExitStatus.

(** ** Size checks *)

Section SizeChecks.

Lemma read_rgb24_bad_size fs path expected data :
  fs !! path = Some data → Z.of_nat (length data) ≠ expected →
  Rgb24.read_rgb24 fs path expected = Raise ValueError.
Proof.
  intros Hf Hne. unfold Rgb24.read_rgb24. rewrite Hf.
  by destruct (Z.eqb_spec (Z.of_nat (length data)) expected).
Qed.

Lemma read_rgb24_good_size fs path expected data :
  fs !! path = Some data → Z.of_nat (length data) = expected →
  Rgb24.read_rgb24 fs path expected = Ok data.
Proof.
  intros Hf Heq. unfold Rgb24.read_rgb24. rewrite Hf.
  by destruct (Z.eqb_spec (Z.of_nat (length data)) expected).
Qed.

Lemma load_rgb24_bad_size fs path width height data :
  fs !! path = Some data → Z.of_nat (length data) ≠ width * height * 3 →
  PaletteDiff.load_rgb24 fs path width height = Raise ValueError.
Proof.
  intros Hf Hne. unfold PaletteDiff.load_rgb24, PaletteDiff.RGB24_BPP. rewrite Hf.
  by destruct (Z.eqb_spec (Z.of_nat (length data)) (width * height * 3)).
Qed.

Lemma load_plane_bad_size fs path width height data :
  fs !! path = Some data → Z.of_nat (length data) ≠ width * height →
  PaletteDiff.load_plane fs path width height = Raise ValueError.
Proof.
  intros Hf Hne. unfold PaletteDiff.load_plane. rewrite Hf.
  by destruct (Z.eqb_spec (Z.of_nat (length data)) (width * height)).
Qed.

Lemma load_rgb24_cases fs path width height data :
  fs !! path = Some data →
  PaletteDiff.load_rgb24 fs path width height = Ok data ∨
  PaletteDiff.load_rgb24 fs path width height = Raise ValueError.
Proof.
  intros Hf. unfold PaletteDiff.load_rgb24. rewrite Hf.
  destruct (negb _); auto.
Qed.

Lemma load_plane_cases fs path width height data :
  fs !! path = Some data →
  PaletteDiff.load_plane fs path width height = Ok data ∨
  PaletteDiff.load_plane fs path width height = Raise ValueError.
Proof.
  intros Hf. unfold PaletteDiff.load_plane. rewrite Hf.
  destruct (negb _); auto.
Qed.

Lemma rgb24_frame_stats_bad_size fs args expected frame dm dn :
  fs !! dump_path (Rgb24.mesen_prefix args) frame ".rgb24" = Some dm →
  fs !! dump_path (Rgb24.nesium_prefix args) frame ".rgb24" = Some dn →
  Z.of_nat (length dm) ≠ expected ∨ Z.of_nat (length dn) ≠ expected →
  Rgb24.frame_stats fs args expected frame = Raise ValueError.
Proof.
  intros Hm Hn Hbad. unfold Rgb24.frame_stats.
  rewrite !bool_decide_eq_true_2 by (by rewrite ?Hm, ?Hn). simpl.
  destruct (decide (Z.of_nat (length dm) = expected)) as [Heq|Hne].
  - rewrite (read_rgb24_good_size _ _ _ dm Hm Heq). simpl.
    rewrite (read_rgb24_bad_size _ _ _ dn Hn); [done|]. by destruct Hbad.
  - by rewrite (read_rgb24_bad_size _ _ _ dm Hm Hne).
Qed.

Lemma rgb24_frames_loop_raise fs args expected before bad after e :
  ∀ all_stats stats,
    (Rgb24.frames_loop fs args expected before all_stats).2 = Ok stats →
    Rgb24.frame_stats fs args expected bad = Raise e →
    Rgb24.frames_loop fs args expected (before ++ bad :: after) all_stats
    = ((Rgb24.frames_loop fs args expected before all_stats).1, Raise e).
Proof.
  induction before as [|f before IH]; intros all_stats stats Hok Hbad; simpl.
  - by rewrite Hbad.
  - simpl in Hok.
    destruct (Rgb24.frame_stats fs args expected f) as [s|]; [|done].
    destruct (Rgb24.frames_loop fs args expected before (all_stats ++ [s]))
      as [printed r] eqn:Hrest.
    simpl in Hok. subst r.
    rewrite (IH (all_stats ++ [s]) stats); [|by rewrite Hrest|done].
    by rewrite Hrest.
Qed.

Lemma rgb24_main_bad_size fs args before bad after stats dm dn :
  let expected := Rgb24.width args * Rgb24.height args * 3 in
  Rgb24.parse_frames_csv (Rgb24.frames args) = Ok (before ++ bad :: after) →
  (Rgb24.frames_loop fs args expected before []).2 = Ok stats →
  fs !! dump_path (Rgb24.mesen_prefix args) bad ".rgb24" = Some dm →
  fs !! dump_path (Rgb24.nesium_prefix args) bad ".rgb24" = Some dn →
  Z.of_nat (length dm) ≠ expected ∨ Z.of_nat (length dn) ≠ expected →
  Rgb24.main fs args
  = ((Rgb24.frames_loop fs args expected before []).1, Uncaught ValueError).
Proof.
  intros expected Hframes Hbefore Hm Hn Hbad. unfold Rgb24.main.
  rewrite Hframes. unfold Rgb24.BYTES_PER_PIXEL. fold expected.
  rewrite (rgb24_frames_loop_raise _ _ _ _ _ _ ValueError [] stats); [done..|].
  by eapply rgb24_frame_stats_bad_size.
Qed.

Lemma palette_frame_result_bad_size fs args inverse frame dm di de :
  fs !! dump_path (PaletteDiff.mesen_prefix args) frame ".rgb24" = Some dm →
  fs !! dump_path (PaletteDiff.nesium_prefix args) frame ".idx8" = Some di →
  fs !! dump_path (PaletteDiff.nesium_prefix args) frame ".emph8" = Some de →
  Z.of_nat (length dm) ≠ PaletteDiff.width args * PaletteDiff.height args * 3 ∨
  Z.of_nat (length di) ≠ PaletteDiff.width args * PaletteDiff.height args ∨
  Z.of_nat (length de) ≠ PaletteDiff.width args * PaletteDiff.height args →
  PaletteDiff.frame_result fs args inverse frame = Raise ValueError.
Proof.
  intros Hm Hi He Hbad. unfold PaletteDiff.frame_result.
  rewrite !bool_decide_eq_true_2 by (by rewrite ?Hm, ?Hi, ?He). simpl.
  destruct (load_rgb24_cases fs _ (PaletteDiff.width args) (PaletteDiff.height args)
              dm Hm) as [Hlm|Hlm]; rewrite Hlm; [simpl|done].
  destruct (load_plane_cases fs _ (PaletteDiff.width args) (PaletteDiff.height args)
              di Hi) as [Hli|Hli]; rewrite Hli; [simpl|done].
  destruct (load_plane_cases fs _ (PaletteDiff.width args) (PaletteDiff.height args)
              de He) as [Hle|Hle]; rewrite Hle; [simpl|done].
  destruct Hbad as [Hb|[Hb|Hb]].
  - by rewrite (load_rgb24_bad_size _ _ _ _ dm) in Hlm.
  - by rewrite (load_plane_bad_size _ _ _ _ di) in Hli.
  - by rewrite (load_plane_bad_size _ _ _ _ de) in Hle.
Qed.

Lemma palette_frames_loop_raise fs args inverse before bad after e :
  ∀ found_any found_any',
    (PaletteDiff.frames_loop fs args inverse before found_any).2 = Ok found_any' →
    PaletteDiff.frame_result fs args inverse bad = Raise e →
    PaletteDiff.frames_loop fs args inverse (before ++ bad :: after) found_any
    = ((PaletteDiff.frames_loop fs args inverse before found_any).1, Raise e).
Proof.
  induction before as [|f before IH]; intros found_any found_any' Hok Hbad; simpl.
  - by rewrite Hbad.
  - simpl in Hok.
    destruct (PaletteDiff.frame_result fs args inverse f)
      as [[[[[mismatch|] u] im] em]|]; [| |done].
    + destruct (PaletteDiff.frames_loop fs args inverse before true)
        as [printed r] eqn:Hrest.
      simpl in Hok. subst r.
      rewrite (IH true found_any'); [|by rewrite Hrest|done].
      by rewrite Hrest.
    + destruct (PaletteDiff.frames_loop fs args inverse before found_any)
        as [printed r] eqn:Hrest.
      simpl in Hok. subst r.
      rewrite (IH found_any found_any'); [|by rewrite Hrest|done].
      by rewrite Hrest.
Qed.

Lemma palette_main_bad_size fs args inverse before bad after found_any dm di de :
  PaletteDiff.parse_frames_csv (PaletteDiff.frames args)
  = Ok (before ++ bad :: after) →
  PaletteDiff.build_inverse_rgb_map = Ok inverse →
  (PaletteDiff.frames_loop fs args inverse before false).2 = Ok found_any →
  fs !! dump_path (PaletteDiff.mesen_prefix args) bad ".rgb24" = Some dm →
  fs !! dump_path (PaletteDiff.nesium_prefix args) bad ".idx8" = Some di →
  fs !! dump_path (PaletteDiff.nesium_prefix args) bad ".emph8" = Some de →
  Z.of_nat (length dm) ≠ PaletteDiff.width args * PaletteDiff.height args * 3 ∨
  Z.of_nat (length di) ≠ PaletteDiff.width args * PaletteDiff.height args ∨
  Z.of_nat (length de) ≠ PaletteDiff.width args * PaletteDiff.height args →
  PaletteDiff.main fs args
  = ((PaletteDiff.frames_loop fs args inverse before false).1, Uncaught ValueError).
Proof.
  intros Hframes Hinv Hbefore Hm Hi He Hbad. unfold PaletteDiff.main.
  rewrite Hframes, Hinv. simpl.
  rewrite (palette_frames_loop_raise _ _ _ _ _ _ ValueError false found_any);
    [done..|].
  by eapply palette_frame_result_bad_size.
Qed.

End SizeChecks.

(** ** Missing inputs *)

Section MissingInputs.

Lemma ppu_main_missing args :
  PpuReg.mesen args = None ∨ PpuReg.nesium args = None →
  PpuReg.main args = ([], Uncaught FileNotFoundError).
Proof.
  unfold PpuReg.main, PpuReg.open_trace.
  intros [-> | ->]; [done|]. by destruct (PpuReg.mesen args).
Qed.

Lemma apu_main_missing args :
  ApuTrace.mesen args = None ∨ ApuTrace.nesium args = None →
  ∃ e, ApuTrace.main args = ([], Uncaught e).
Proof.
  unfold ApuTrace.main, ApuTrace.open_trace.
  intros [-> | ->]; [by eexists|].
  destruct (ApuTrace.mesen args) as [ml|]; [simpl|by eexists].
  destruct (ApuTrace.parse_events ml _); by eexists.
Qed.

Lemma nmi_main_missing args :
  NmiTrace.mesen args = None ∨ NmiTrace.nesium args = None →
  ∃ e, NmiTrace.main args = ([], Uncaught e).
Proof.
  unfold NmiTrace.main, NmiTrace.open_trace.
  intros [-> | ->]; [by eexists|].
  destruct (NmiTrace.mesen args) as [ml|]; [simpl|by eexists].
  destruct (NmiTrace.parse_events ml); by eexists.
Qed.

Lemma mask_main_missing fs args :
  fs !! MaskDiff.a args = None ∨ fs !! MaskDiff.b args = None →
  MaskDiff.main fs args = ([], Uncaught FileNotFoundError).
Proof.
  unfold MaskDiff.main, MaskDiff.read_bytes.
  intros [-> | ->]; [done|]. by destruct (fs !! MaskDiff.a args).
Qed.

Lemma rgb24_frame_stats_missing fs args expected frame :
  fs !! dump_path (Rgb24.mesen_prefix args) frame ".rgb24" = None ∨
  fs !! dump_path (Rgb24.nesium_prefix args) frame ".rgb24" = None →
  Rgb24.frame_stats fs args expected frame = Raise FileNotFoundError.
Proof.
  unfold Rgb24.frame_stats. intros [Hm|Hn].
  - rewrite bool_decide_eq_false_2; [done|]. rewrite Hm. by intros [? ?].
  - destruct (bool_decide (is_Some (fs !! dump_path (Rgb24.mesen_prefix args) _ _)));
      [simpl|done].
    rewrite bool_decide_eq_false_2; [done|]. rewrite Hn. by intros [? ?].
Qed.

Lemma rgb24_main_missing fs args before bad after stats :
  Rgb24.parse_frames_csv (Rgb24.frames args) = Ok (before ++ bad :: after) →
  (Rgb24.frames_loop fs args (Rgb24.width args * Rgb24.height args * 3)
                     before []).2 = Ok stats →
  fs !! dump_path (Rgb24.mesen_prefix args) bad ".rgb24" = None ∨
  fs !! dump_path (Rgb24.nesium_prefix args) bad ".rgb24" = None →
  Rgb24.main fs args
  = ((Rgb24.frames_loop fs args (Rgb24.width args * Rgb24.height args * 3)
                        before []).1,
     Uncaught FileNotFoundError).
Proof.
  intros Hframes Hbefore Hmissing. unfold Rgb24.main.
  rewrite Hframes. unfold Rgb24.BYTES_PER_PIXEL.
  rewrite (rgb24_frames_loop_raise _ _ _ _ _ _ FileNotFoundError [] stats);
    [done..|].
  by apply rgb24_frame_stats_missing.
Qed.

Lemma palette_frame_result_missing fs args inverse frame :
  fs !! dump_path (PaletteDiff.mesen_prefix args) frame ".rgb24" = None ∨
  fs !! dump_path (PaletteDiff.nesium_prefix args) frame ".idx8" = None ∨
  fs !! dump_path (PaletteDiff.nesium_prefix args) frame ".emph8" = None →
  PaletteDiff.frame_result fs args inverse frame = Raise FileNotFoundError.
Proof.
  unfold PaletteDiff.frame_result. intros Hmissing.
  destruct (fs !! dump_path (PaletteDiff.mesen_prefix args) frame ".rgb24")
    as [dm|] eqn:Hm; cycle 1.
  { rewrite bool_decide_eq_false_2; [done|]. by intros [? ?]. }
  rewrite bool_decide_eq_true_2 by eauto. cbn [negb].
  destruct (fs !! dump_path (PaletteDiff.nesium_prefix args) frame ".idx8")
    as [di|] eqn:Hi; cycle 1.
  { rewrite bool_decide_eq_false_2; [done|]. by intros [? ?]. }
  rewrite bool_decide_eq_true_2 by eauto. cbn [negb].
  destruct (fs !! dump_path (PaletteDiff.nesium_prefix args) frame ".emph8")
    as [de|] eqn:He; cycle 1.
  { rewrite bool_decide_eq_false_2; [done|]. by intros [? ?]. }
  by destruct Hmissing as [?|[?|?]].
Qed.

Lemma palette_main_missing fs args inverse before bad after found_any :
  PaletteDiff.parse_frames_csv (PaletteDiff.frames args)
  = Ok (before ++ bad :: after) →
  PaletteDiff.build_inverse_rgb_map = Ok inverse →
  (PaletteDiff.frames_loop fs args inverse before false).2 = Ok found_any →
  fs !! dump_path (PaletteDiff.mesen_prefix args) bad ".rgb24" = None ∨
  fs !! dump_path (PaletteDiff.nesium_prefix args) bad ".idx8" = None ∨
  fs !! dump_path (PaletteDiff.nesium_prefix args) bad ".emph8" = None →
  PaletteDiff.main fs args
  = ((PaletteDiff.frames_loop fs args inverse before false).1,
     Uncaught FileNotFoundError).
Proof.
  intros Hframes Hinv Hbefore Hmissing. unfold PaletteDiff.main.
  rewrite Hframes, Hinv. simpl.
  rewrite (palette_frames_loop_raise _ _ _ _ _ _ FileNotFoundError false found_any);
    [done..|].
  by apply palette_frame_result_missing.
Qed.

End MissingInputs.


(** C3, as the code has it.  The three trace tools and the palette tool
    return 1 when they found a divergence and 0 when they found none;
    [diff_rgb24_frames] returns 0 whenever it returns, whatever the
    frames contain; [analyze_mask_diff] returns 1 when the two files
    differ in length and 0 otherwise, whatever the masks contain.  A
    missing input ends every tool on an uncaught exception, which is
    exit status 1. *)
Theorem exit_status_by_tool :
  (∀ args printed status,
      PpuReg.main args = (printed, Returned status) →
      ∃ mesen_lines nesium_lines,
        PpuReg.mesen args = Some mesen_lines ∧
        PpuReg.nesium args = Some nesium_lines ∧
        supported (PpuReg.selected_fields args) ∧
        (status = 0 ∨ status = 1) ∧
        (status = 0 ↔
         length (PpuReg.load_events mesen_lines)
         = length (PpuReg.load_events nesium_lines) ∧
         prefix_agrees (PpuReg.selected_fields args)
                       (PpuReg.load_events mesen_lines)
                       (PpuReg.load_events nesium_lines))) ∧
  (∀ args printed status,
      ApuTrace.main args = (printed, Returned status) →
      ∃ mesen_lines nesium_lines ms ns,
        ApuTrace.mesen args = Some mesen_lines ∧
        ApuTrace.nesium args = Some nesium_lines ∧
        ApuTrace.parse_events mesen_lines (ApuTrace.include_read_mem args) = Ok ms ∧
        ApuTrace.parse_events nesium_lines (ApuTrace.include_read_mem args) = Ok ns ∧
        (status = 0 ∨ status = 1) ∧
        (status = 0 ↔
         length ms = length ns ∧
         ∀ (j : nat) xm xn, ms !! j = Some xm → ns !! j = Some xn →
                            ApuTrace.key_differs xm xn = false)) ∧
  (∀ args printed status,
      NmiTrace.main args = (printed, Returned status) →
      ∃ mesen_lines nesium_lines ms ns,
        NmiTrace.mesen args = Some mesen_lines ∧
        NmiTrace.nesium args = Some nesium_lines ∧
        NmiTrace.parse_events mesen_lines = Ok ms ∧
        NmiTrace.parse_events nesium_lines = Ok ns ∧
        (status = 0 ∨ status = 1) ∧
        (status = 0 ↔
         length ms = length ns ∧
         ∀ (j : nat) xm xn, ms !! j = Some xm → ns !! j = Some xn →
                            NmiTrace.key_of xm = NmiTrace.key_of xn)) ∧
  (∀ fs args printed status,
      PaletteDiff.main fs args = (printed, Returned status) →
      (status = 1 ∧ ∃ found, PaletteDiff.PFirstMismatchAt found ∈ printed) ∨
      (status = 0 ∧ ∀ found, PaletteDiff.PFirstMismatchAt found ∉ printed)) ∧
  (∀ fs args printed status,
      Rgb24.main fs args = (printed, Returned status) → status = 0) ∧
  (∀ fs args printed status data_a data_b,
      fs !! MaskDiff.a args = Some data_a → fs !! MaskDiff.b args = Some data_b →
      MaskDiff.main fs args = (printed, Returned status) →
      (status = 1 ∧ length data_a ≠ length data_b) ∨
      (status = 0 ∧ length data_a = length data_b)) ∧
  (∀ e, exit_status (Uncaught e) = 1) ∧
  (∀ args,
      PpuReg.mesen args = None ∨ PpuReg.nesium args = None →
      PpuReg.main args = ([], Uncaught FileNotFoundError)) ∧
  (∀ args,
      ApuTrace.mesen args = None ∨ ApuTrace.nesium args = None →
      ∃ e, ApuTrace.main args = ([], Uncaught e)) ∧
  (∀ args,
      NmiTrace.mesen args = None ∨ NmiTrace.nesium args = None →
      ∃ e, NmiTrace.main args = ([], Uncaught e)) ∧
  (∀ fs args,
      fs !! MaskDiff.a args = None ∨ fs !! MaskDiff.b args = None →
      MaskDiff.main fs args = ([], Uncaught FileNotFoundError)) ∧
  (∀ fs args before bad after stats,
      Rgb24.parse_frames_csv (Rgb24.frames args) = Ok (before ++ bad :: after) →
      (Rgb24.frames_loop fs args (Rgb24.width args * Rgb24.height args * 3)
                         before []).2 = Ok stats →
      fs !! dump_path (Rgb24.mesen_prefix args) bad ".rgb24" = None ∨
      fs !! dump_path (Rgb24.nesium_prefix args) bad ".rgb24" = None →
      (Rgb24.main fs args).2 = Uncaught FileNotFoundError) ∧
  (∀ fs args inverse before bad after found_any,
      PaletteDiff.parse_frames_csv (PaletteDiff.frames args)
      = Ok (before ++ bad :: after) →
      PaletteDiff.build_inverse_rgb_map = Ok inverse →
      (PaletteDiff.frames_loop fs args inverse before false).2 = Ok found_any →
      fs !! dump_path (PaletteDiff.mesen_prefix args) bad ".rgb24" = None ∨
      fs !! dump_path (PaletteDiff.nesium_prefix args) bad ".idx8" = None ∨
      fs !! dump_path (PaletteDiff.nesium_prefix args) bad ".emph8" = None →
      (PaletteDiff.main fs args).2 = Uncaught FileNotFoundError).
Proof.
  split_and!.
  - apply ppu_main_status.
  - apply apu_main_status.
  - apply nmi_main_status.
  - apply palette_main_status.
  - apply rgb24_main_status.
  - apply mask_main_status.
  - done.
  - apply ppu_main_missing.
  - apply apu_main_missing.
  - apply nmi_main_missing.
  - apply mask_main_missing.
  - intros fs args before bad after stats Hframes Hbefore Hmissing.
    by rewrite (rgb24_main_missing fs args before bad after stats).
  - intros fs args inverse before bad after found_any Hframes Hinv Hbefore Hmissing.
    by rewrite (palette_main_missing fs args inverse before bad after found_any).
Qed.

Lemma exit_status_by_tool_witness :
  ∃ mesen_lines nesium_lines ms ns,
    ApuTrace.mesen sample_apu_args = Some mesen_lines ∧
    ApuTrace.nesium sample_apu_args = Some nesium_lines ∧
    ApuTrace.parse_events mesen_lines false = Ok ms ∧
    ApuTrace.parse_events nesium_lines false = Ok ns ∧
    (1 = 0 ∨ 1 = 1) ∧
    (1 = 0 ↔
     length ms = length ns ∧
     ∀ (j : nat) xm xn, ms !! j = Some xm → ns !! j = Some xn →
                        ApuTrace.key_differs xm xn = false).
Proof.
  refine (proj1 (proj2 exit_status_by_tool) sample_apu_args
                (ApuTrace.main sample_apu_args).1 1 _).
  vm_compute. reflexivity.
Defined.

(** C3 as stated fails: on two dumps whose first frame differs in one
    pixel [diff_rgb24_frames] reports the difference and returns 0, and
    on two masks that differ at pixel 5 [analyze_mask_diff] reports one
    differing pixel and returns 0. *)
Lemma frame_tools_return_zero_on_difference :
  sample_dumps !! "m_f1.rgb24" ≠ sample_dumps !! "n_f1.rgb24" ∧
  (∃ printed stats,
      Rgb24.main sample_dumps sample_dump_args = (printed, Returned 0) ∧
      Rgb24.PStats stats ∈ printed ∧ Rgb24.pixels_diff stats = 1) ∧
  (∃ rest,
      MaskDiff.main sample_masks sample_mask_args
      = (MaskDiff.PTotals 16 1 :: rest, Returned 0)) ∧
  exit_status (Rgb24.main sample_dumps sample_dump_args).2 = 0 ∧
  exit_status (MaskDiff.main sample_masks sample_mask_args).2 = 0.
Proof.
  split_and!.
  - vm_compute. discriminate.
  - eexists _, _. split; [vm_compute; reflexivity|].
    split; [apply list_elem_of_here|reflexivity].
  - eexists. vm_compute. reflexivity.
  - vm_compute. reflexivity.
  - vm_compute. reflexivity.
Qed.

(** ** The mask tool on files of an unexpected size *)

Section MaskReport.
Import MaskDiff.

Lemma diff_positions_total total pixels_a pixels_b :
  length pixels_a = Z.to_nat total → length pixels_b = Z.to_nat total →
  ∃ positions, diff_positions total pixels_a pixels_b = Ok positions ∧
               Forall (fun i => 0 ≤ i < total) positions.
Proof.
  intros Ha Hb. unfold diff_positions.
  match goal with
  | |- ∃ _, for_each ?body ?xs ?init = _ ∧ _ =>
      destruct (for_each_total body
                  (fun _ found => Forall (fun i => 0 ≤ i < total) found)
                  xs init) as (positions & Hrun & Hall)
  end.
  - done.
  - intros seen i rest found Heq Hfound.
    assert (0 ≤ i < total) as Hi.
    { apply elem_of_range. rewrite Heq. apply elem_of_app. right. by left. }
    destruct (lookup_lt_is_Some_2 pixels_a (Z.to_nat i)) as [pa Hpa]; [lia|].
    destruct (lookup_lt_is_Some_2 pixels_b (Z.to_nat i)) as [pb Hpb]; [lia|].
    rewrite (item_in_range pixels_a i pa) by (lia || done). simpl.
    rewrite (item_in_range pixels_b i pb) by (lia || done). simpl.
    destruct (negb (pa =? pb)); (eexists; split; [done|]); [|done].
    apply Forall_app. split; [done|]. by constructor.
  - by exists positions.
Qed.

Lemma box_loop_total width height positions :
  0 ≤ width → 0 ≤ height →
  Forall (fun i => 0 ≤ i < width * height) positions →
  ∃ s, for_each (box_step width) positions
                {| min_x := width; max_x := -1; min_y := height; max_y := -1;
                   row_counts := replicate (Z.to_nat height) 0 |} = Ok s.
Proof.
  intros Hw Hh Hall.
  match goal with
  | |- ∃ _, for_each ?body ?xs ?init = _ =>
      destruct (for_each_total body
                  (fun _ s => length (row_counts s) = Z.to_nat height)
                  xs init) as (s & Hrun & _)
  end.
  - simpl. by rewrite length_replicate.
  - intros seen i rest s Heq Hrows.
    assert (0 ≤ i < width * height) as Hi.
    { apply (proj1 (Forall_forall _ _) Hall). rewrite Heq.
      apply elem_of_app. right. by left. }
    assert (0 < width) as Hwpos by nia.
    unfold box_step, divmod. destruct (Z.eqb_spec width 0); [lia|]. simpl.
    destruct (incr_item_in_range (row_counts s) (i / width)) as (rows & -> & Hr).
    { rewrite Hrows. split; [apply Z.div_pos; lia|].
      rewrite Z2Nat.id by lia. apply Z.div_lt_upper_bound; lia. }
    simpl. eexists; split; [done|]. simpl. by rewrite Hr.
  - by exists s.
Qed.

(** With a non-negative geometry and two files of one length the mask
    tool never stops early: a length other than the expected one adds a
    warning in front of the report, and the status is 0. *)
Lemma mask_report_warns args data_a data_b :
  0 ≤ width args → 0 ≤ height args →
  length data_a = length data_b →
  Z.of_nat (length data_a) ≠ (width args * height args + 7) / 8 →
  ∃ diff_count rest,
    report args data_a data_b
    = (PWarning (length data_a) ((width args * height args + 7) / 8)
                (width args) (height args)
       :: PTotals (width args * height args) diff_count :: rest,
       Returned 0).
Proof.
  intros Hw Hh Hlen Hsize. unfold report.
  rewrite (proj2 (Nat.eqb_eq _ _) Hlen). simpl.
  destruct (Z.eqb_spec (Z.of_nat (length data_a))
                       ((width args * height args + 7) / 8)); [done|]. simpl.
  destruct (unpack_mask_spec data_a _ _ Hw Hh) as (pa & -> & Hpa & _).
  destruct (unpack_mask_spec data_b _ _ Hw Hh) as (pb & -> & Hpb & _). simpl.
  destruct (diff_positions_total _ pa pb Hpa Hpb) as (positions & -> & Hall).
  destruct (Z.of_nat (length positions) =? 0); [by eexists _, _|].
  destruct (box_loop_total _ _ positions Hw Hh Hall) as [s ->].
  by eexists _, _.
Qed.

Lemma mask_report_size_mismatch args data_a data_b :
  length data_a ≠ length data_b →
  report args data_a data_b
  = ([PSizeMismatch (length data_a) (length data_b)], Returned 1).
Proof.
  intros Hne. unfold report.
  by destruct (Nat.eqb_spec (length data_a) (length data_b)).
Qed.

End MaskReport.

(** C5, as the code has it.  An rgb24 dump or an idx8/emph8 plane whose
    length is not the expected one makes its loader raise [ValueError];
    the exception leaves [main], after the reports of the frames that
    come earlier in the frame list and before anything about the frame
    itself.  The mask tool stops (status 1) only when its two files
    differ in length; a common length other than [ceil(w*h/8)] adds a
    warning and the comparison is made and reported, with status 0. *)
Theorem size_mismatch_handling :
  (∀ fs path expected data,
      fs !! path = Some data → Z.of_nat (length data) ≠ expected →
      Rgb24.read_rgb24 fs path expected = Raise ValueError) ∧
  (∀ fs path width height data,
      fs !! path = Some data → Z.of_nat (length data) ≠ width * height * 3 →
      PaletteDiff.load_rgb24 fs path width height = Raise ValueError) ∧
  (∀ fs path width height data,
      fs !! path = Some data → Z.of_nat (length data) ≠ width * height →
      PaletteDiff.load_plane fs path width height = Raise ValueError) ∧
  (∀ fs args before bad after stats dm dn,
      Rgb24.parse_frames_csv (Rgb24.frames args) = Ok (before ++ bad :: after) →
      (Rgb24.frames_loop fs args (Rgb24.width args * Rgb24.height args * 3)
                         before []).2 = Ok stats →
      fs !! dump_path (Rgb24.mesen_prefix args) bad ".rgb24" = Some dm →
      fs !! dump_path (Rgb24.nesium_prefix args) bad ".rgb24" = Some dn →
      Z.of_nat (length dm) ≠ Rgb24.width args * Rgb24.height args * 3 ∨
      Z.of_nat (length dn) ≠ Rgb24.width args * Rgb24.height args * 3 →
      Rgb24.main fs args
      = ((Rgb24.frames_loop fs args (Rgb24.width args * Rgb24.height args * 3)
                            before []).1,
         Uncaught ValueError)) ∧
  (∀ fs args inverse before bad after found_any dm di de,
      PaletteDiff.parse_frames_csv (PaletteDiff.frames args)
      = Ok (before ++ bad :: after) →
      PaletteDiff.build_inverse_rgb_map = Ok inverse →
      (PaletteDiff.frames_loop fs args inverse before false).2 = Ok found_any →
      fs !! dump_path (PaletteDiff.mesen_prefix args) bad ".rgb24" = Some dm →
      fs !! dump_path (PaletteDiff.nesium_prefix args) bad ".idx8" = Some di →
      fs !! dump_path (PaletteDiff.nesium_prefix args) bad ".emph8" = Some de →
      Z.of_nat (length dm) ≠ PaletteDiff.width args * PaletteDiff.height args * 3 ∨
      Z.of_nat (length di) ≠ PaletteDiff.width args * PaletteDiff.height args ∨
      Z.of_nat (length de) ≠ PaletteDiff.width args * PaletteDiff.height args →
      PaletteDiff.main fs args
      = ((PaletteDiff.frames_loop fs args inverse before false).1,
         Uncaught ValueError)) ∧
  (∀ args data_a data_b,
      length data_a ≠ length data_b →
      MaskDiff.report args data_a data_b
      = ([MaskDiff.PSizeMismatch (length data_a) (length data_b)], Returned 1)) ∧
  (∀ args data_a data_b,
      0 ≤ MaskDiff.width args → 0 ≤ MaskDiff.height args →
      length data_a = length data_b →
      Z.of_nat (length data_a)
      ≠ (MaskDiff.width args * MaskDiff.height args + 7) / 8 →
      ∃ diff_count rest,
        MaskDiff.report args data_a data_b
        = (MaskDiff.PWarning (length data_a)
             ((MaskDiff.width args * MaskDiff.height args + 7) / 8)
             (MaskDiff.width args) (MaskDiff.height args)
           :: MaskDiff.PTotals (MaskDiff.width args * MaskDiff.height args)
                               diff_count
           :: rest,
           Returned 0)).
Proof.
  split_and!.
  - apply read_rgb24_bad_size.
  - apply load_rgb24_bad_size.
  - apply load_plane_bad_size.
  - intros fs args before bad after stats dm dn.
    apply rgb24_main_bad_size.
  - apply palette_main_bad_size.
  - apply mask_report_size_mismatch.
  - apply mask_report_warns.
Qed.

Lemma size_mismatch_handling_witness :
  ∃ stats,
    Rgb24.main truncated_dumps sample_dump_args
    = ([Rgb24.PStats stats], Uncaught ValueError).
Proof.
  eexists.
  refine (proj1 (proj2 (proj2 (proj2 size_mismatch_handling)))
                truncated_dumps sample_dump_args [1] 2 [] _
                [x00; x00; x00] [x00; x00] _ _ _ _ _).
  - vm_compute. reflexivity.
  - vm_compute. reflexivity.
  - vm_compute. reflexivity.
  - vm_compute. reflexivity.
  - right. vm_compute. discriminate.
Defined.

(** C5 as stated fails for the 1bpp masks: two files of three bytes,
    offered as masks of a 4x4 picture (two bytes), are compared and
    reported after a warning, and the status is 0. *)
Lemma oversized_masks_are_compared :
  (∀ data, oversized_masks !! "a.mask" = Some data →
           Z.of_nat (length data) ≠ (4 * 4 + 7) / 8) ∧
  MaskDiff.main oversized_masks sample_mask_args
  = ([MaskDiff.PWarning 3 2 4 4; MaskDiff.PTotals 16 0], Returned 0) ∧
  exit_status (MaskDiff.main oversized_masks sample_mask_args).2 = 0.
Proof.
  split_and!.
  - intros data Hdata. vm_compute in Hdata. injection Hdata as <-.
    vm_compute. discriminate.
  - vm_compute. reflexivity.
  - vm_compute. reflexivity.
Qed.

(** ** Malformed numbers in trace lines *)

Section MalformedNumbers.

Lemma ppu_get_int_sentinel fields name base text :
  fields !! name = Some text → PyInt.int_of_str base text = None →
  PpuReg.get_int fields name base = -1.
Proof. intros Hf Hbad. unfold PpuReg.get_int. by rewrite Hf, Hbad. Qed.

Lemma ppu_parse_line_accepts line :
  ppu_accepts line →
  ∃ e, PpuReg.parse_line line = Some e ∧
       PpuReg.cpu_cycle e = PpuReg.get_int (ppu_fields line) "cpu_cycle" 10 ∧
       PpuReg.frame e = PpuReg.get_int (ppu_fields line) "frame" 10 ∧
       PpuReg.scanline e = PpuReg.get_int (ppu_fields line) "scanline" 10 ∧
       PpuReg.dot e = PpuReg.get_int (ppu_fields line) "dot" 10 ∧
       PpuReg.addr e = PpuReg.get_int (ppu_fields line) "addr" 16 ∧
       PpuReg.value e = PpuReg.get_int (ppu_fields line) "value" 16 ∧
       PpuReg.v e = PpuReg.get_int (ppu_fields line) "v" 16 ∧
       PpuReg.t e = PpuReg.get_int (ppu_fields line) "t" 16 ∧
       PpuReg.x e = PpuReg.get_int (ppu_fields line) "x" 16.
Proof.
  intros (Hne & Htag & Hev). unfold PpuReg.parse_line.
  destruct (String.eqb_spec (PyStr.strip line) ""); [done|].
  rewrite Htag. simpl. fold (ppu_fields line).
  rewrite bool_decide_eq_true_2 by done. simpl.
  eexists. split; [done|]. by split_and!.
Qed.

Lemma ppu_load_events_foldl lines :
  ∀ events,
    foldl (fun events line =>
             match PpuReg.parse_line line with
             | Some evt => events ++ [evt]
             | None => events
             end) events lines
    = events ++ omap PpuReg.parse_line lines.
Proof.
  induction lines as [|line lines IH]; intros events; simpl.
  - by rewrite app_nil_r.
  - rewrite IH. destruct (PpuReg.parse_line line); [|done].
    by rewrite <- (assoc_L _ events).
Qed.

Lemma ppu_load_events_all lines :
  PpuReg.load_events lines = omap PpuReg.parse_line lines.
Proof. unfold PpuReg.load_events. by rewrite ppu_load_events_foldl. Qed.

Lemma apu_normalize_hex_cases value width :
  (∃ r, ApuTrace.normalize_hex value width = Ok r) ∨
  ApuTrace.normalize_hex value width = Raise ValueError.
Proof.
  unfold ApuTrace.normalize_hex.
  destruct (String.eqb _ ""); [by eauto|].
  destruct (PyInt.int_of_str 16 _); by eauto.
Qed.

Lemma apu_step_raises_ValueError irm events line e :
  ApuTrace.parse_events_step irm events line = Raise e → e = ValueError.
Proof.
  unfold ApuTrace.parse_events_step.
  destruct (negb (PyStr.startswith _ _)); [done|].
  destruct (negb (bool_decide _)); [done|].
  destruct (String.eqb _ ""); [done|].
  destruct (apu_normalize_hex_cases
              (dict_get (ApuTrace.parse_fields line) "addr" "") 4) as [[a ->]| ->];
    simpl; [|congruence].
  destruct (apu_normalize_hex_cases
              (dict_get (ApuTrace.parse_fields line) "value" "00") 2) as [[v ->]| ->];
    simpl; [done|congruence].
Qed.

Lemma apu_step_malformed irm events line :
  apu_accepts irm line →
  ApuTrace.normalize_hex (dict_get (ApuTrace.parse_fields line) "addr" "") 4
  = Raise ValueError ∨
  ApuTrace.normalize_hex (dict_get (ApuTrace.parse_fields line) "value" "00") 2
  = Raise ValueError →
  ApuTrace.parse_events_step irm events line = Raise ValueError.
Proof.
  intros (Htag & Hev & Haddr) Hbad. unfold ApuTrace.parse_events_step.
  rewrite Htag. simpl. rewrite bool_decide_eq_true_2 by done. simpl.
  destruct (String.eqb_spec (dict_get (ApuTrace.parse_fields line) "addr" "") "");
    [done|].
  destruct (apu_normalize_hex_cases
              (dict_get (ApuTrace.parse_fields line) "addr" "") 4) as [[a Ha]|Ha];
    rewrite Ha; simpl; [|done].
  destruct Hbad as [Hbad|Hbad]; [congruence|]. by rewrite Hbad.
Qed.

Lemma apu_parse_events_malformed irm lines line :
  line ∈ lines → apu_accepts irm line →
  ApuTrace.normalize_hex (dict_get (ApuTrace.parse_fields line) "addr" "") 4
  = Raise ValueError ∨
  ApuTrace.normalize_hex (dict_get (ApuTrace.parse_fields line) "value" "00") 2
  = Raise ValueError →
  ApuTrace.parse_events lines irm = Raise ValueError.
Proof.
  intros Hin Hacc Hbad. unfold ApuTrace.parse_events.
  generalize (@nil ApuTrace.TraceEvent) as events.
  induction lines as [|l lines IH]; intros events; [by apply elem_of_nil in Hin|].
  simpl. destruct (ApuTrace.parse_events_step irm events l) as [events'|e] eqn:Hstep.
  - simpl. apply elem_of_cons in Hin as [->|Hin]; [|by apply IH].
    by rewrite apu_step_malformed in Hstep.
  - simpl. by apply apu_step_raises_ValueError in Hstep as ->.
Qed.

Lemma nmi_normalize_hex_cases value width :
  (∃ r, NmiTrace.normalize_hex value width = Ok r) ∨
  NmiTrace.normalize_hex value width = Raise ValueError.
Proof.
  unfold NmiTrace.normalize_hex.
  destruct (String.eqb _ ""); [by eauto|].
  destruct (PyInt.int_of_str 16 _); by eauto.
Qed.

Lemma nmi_step_raises_ValueError events line e :
  NmiTrace.parse_events_step events line = Raise e → e = ValueError.
Proof.
  unfold NmiTrace.parse_events_step.
  destruct (negb (PyStr.startswith _ _)); [done|].
  destruct (NmiTrace.normalize_event _ _) as [norm_ev|]; [|done].
  destruct (bool_decide _); [|done].
  destruct (NmiTrace.parse_fields line !! "addr") as [a|]; [|done].
  destruct (NmiTrace.parse_fields line !! "value") as [v|]; [|done].
  destruct (nmi_normalize_hex_cases a 4) as [[a' ->]| ->]; simpl; [|congruence].
  destruct (nmi_normalize_hex_cases v 2) as [[v' ->]| ->]; simpl; [done|congruence].
Qed.

Lemma nmi_step_malformed events line addr value :
  nmi_accepts line addr value →
  NmiTrace.normalize_hex addr 4 = Raise ValueError ∨
  NmiTrace.normalize_hex value 2 = Raise ValueError →
  NmiTrace.parse_events_step events line = Raise ValueError.
Proof.
  intros (Htag & Hev & Haddr & Hval) Hbad. unfold NmiTrace.parse_events_step.
  rewrite Htag. simpl. unfold NmiTrace.normalize_event.
  rewrite bool_decide_eq_true_2 by done.
  rewrite bool_decide_eq_true_2 by done. rewrite Haddr, Hval.
  destruct (nmi_normalize_hex_cases addr 4) as [[a Ha]|Ha]; rewrite Ha; simpl; [|done].
  destruct Hbad as [Hbad|Hbad]; [congruence|]. by rewrite Hbad.
Qed.

Lemma nmi_parse_events_malformed lines line addr value :
  line ∈ lines → nmi_accepts line addr value →
  NmiTrace.normalize_hex addr 4 = Raise ValueError ∨
  NmiTrace.normalize_hex value 2 = Raise ValueError →
  NmiTrace.parse_events lines = Raise ValueError.
Proof.
  intros Hin Hacc Hbad. unfold NmiTrace.parse_events.
  generalize (@nil NmiTrace.TraceEvent) as events.
  induction lines as [|l lines IH]; intros events; [by apply elem_of_nil in Hin|].
  simpl. destruct (NmiTrace.parse_events_step events l) as [events'|e] eqn:Hstep.
  - simpl. apply elem_of_cons in Hin as [->|Hin]; [|by apply IH].
    by rewrite (nmi_step_malformed _ _ addr value) in Hstep.
  - simpl. by apply nmi_step_raises_ValueError in Hstep as ->.
Qed.

End MalformedNumbers.

(** C6, as the code has it.  In the register pipeline every line with
    the tag and [ev=write] gives an event, in which a numeric field whose
    text [int] rejects is read as -1, and [load_events] goes through all
    lines.  In the APU and NMI pipelines a kept line whose address or
    value is not hexadecimal makes [normalize_hex] raise [ValueError],
    and the exception leaves [parse_events]. *)
Theorem malformed_numbers_by_pipeline :
  (∀ line,
      ppu_accepts line →
      ∃ e, PpuReg.parse_line line = Some e ∧
           sentinel_if_malformed (ppu_fields line) "cpu_cycle" 10 (PpuReg.cpu_cycle e) ∧
           sentinel_if_malformed (ppu_fields line) "frame" 10 (PpuReg.frame e) ∧
           sentinel_if_malformed (ppu_fields line) "scanline" 10 (PpuReg.scanline e) ∧
           sentinel_if_malformed (ppu_fields line) "dot" 10 (PpuReg.dot e) ∧
           sentinel_if_malformed (ppu_fields line) "addr" 16 (PpuReg.addr e) ∧
           sentinel_if_malformed (ppu_fields line) "value" 16 (PpuReg.value e) ∧
           sentinel_if_malformed (ppu_fields line) "v" 16 (PpuReg.v e) ∧
           sentinel_if_malformed (ppu_fields line) "t" 16 (PpuReg.t e) ∧
           sentinel_if_malformed (ppu_fields line) "x" 16 (PpuReg.x e)) ∧
  (∀ lines, PpuReg.load_events lines = omap PpuReg.parse_line lines) ∧
  (∀ include_read_mem lines line,
      line ∈ lines → apu_accepts include_read_mem line →
      ApuTrace.normalize_hex (dict_get (ApuTrace.parse_fields line) "addr" "") 4
      = Raise ValueError ∨
      ApuTrace.normalize_hex (dict_get (ApuTrace.parse_fields line) "value" "00") 2
      = Raise ValueError →
      ApuTrace.parse_events lines include_read_mem = Raise ValueError) ∧
  (∀ lines line addr value,
      line ∈ lines → nmi_accepts line addr value →
      NmiTrace.normalize_hex addr 4 = Raise ValueError ∨
      NmiTrace.normalize_hex value 2 = Raise ValueError →
      NmiTrace.parse_events lines = Raise ValueError).
Proof.
  split_and!.
  - intros line Hacc.
    destruct (ppu_parse_line_accepts line Hacc)
      as (e & He & H1 & H2 & H3 & H4 & H5 & H6 & H7 & H8 & H9).
    exists e. split; [done|].
    rewrite H1, H2, H3, H4, H5, H6, H7, H8, H9.
    split_and!; intros text Hf Hbad; by eapply ppu_get_int_sentinel.
  - apply ppu_load_events_all.
  - apply apu_parse_events_malformed.
  - apply nmi_parse_events_malformed.
Qed.

Lemma malformed_numbers_by_pipeline_witness :
  ApuTrace.parse_events
    ["APUTRACE|ev=write|addr=4015|value=0F"; "APUTRACE|ev=write|addr=zz|value=00"]
    false
  = Raise ValueError.
Proof.
  refine (proj1 (proj2 (proj2 malformed_numbers_by_pipeline)) false _
                "APUTRACE|ev=write|addr=zz|value=00" _ _ _).
  - set_solver.
  - split_and!; [reflexivity| |vm_compute; discriminate].
    vm_compute. set_solver.
  - left. vm_compute. reflexivity.
Defined.

(** C6 as stated fails for the APU and NMI pipelines: one kept line with
    a malformed address makes [parse_events] raise, and the tool ends on
    the uncaught exception. *)
Lemma malformed_hex_aborts_apu_parse :
  ApuTrace.parse_events ["APUTRACE|ev=write|addr=zz|value=00"] false
  = Raise ValueError ∧
  NmiTrace.parse_events ["NMITRACE|src=mesen|ev=read|addr=zz|value=00"]
  = Raise ValueError ∧
  ApuTrace.main {| ApuTrace.mesen := Some ["APUTRACE|ev=write|addr=zz|value=00"];
                   ApuTrace.nesium := Some [];
                   ApuTrace.context := 3;
                   ApuTrace.include_read_mem := false |}
  = ([], Uncaught ValueError).
Proof. split_and!; vm_compute; reflexivity. Qed.

(** ** Strings *)

Section Strings.
Import PyStr PyInt.

Lemma string_app_cons c s1 s2 : String c s1 +:+ s2 = String c (s1 +:+ s2).
Proof. reflexivity. Qed.

Lemma string_app_nil s : "" +:+ s = s.
Proof. reflexivity. Qed.

Lemma string_length_app s1 s2 :
  String.length (s1 +:+ s2) = (String.length s1 + String.length s2)%nat.
Proof.
  induction s1 as [|c s1 IH]; [done|].
  rewrite string_app_cons. simpl. by rewrite IH.
Qed.

Lemma string_forall_app P s1 s2 :
  string_forall P (s1 +:+ s2) = string_forall P s1 && string_forall P s2.
Proof.
  induction s1 as [|c s1 IH]; [done|].
  rewrite string_app_cons. simpl. by rewrite IH, andb_assoc.
Qed.

Lemma string_forall_impl (P Q : ascii → bool) s :
  (∀ c, P c = true → Q c = true) →
  string_forall P s = true → string_forall Q s = true.
Proof.
  intros HPQ. induction s as [|c s IH]; simpl; [done|].
  intros [Hc Hs]%andb_true_iff. by rewrite (HPQ c Hc), IH.
Qed.

Lemma zeros_length w : String.length (zeros w) = w.
Proof. induction w as [|w IH]; simpl; [done|]. by rewrite IH. Qed.

Lemma zeros_forall (P : ascii → bool) w :
  P "0"%char = true → string_forall P (zeros w) = true.
Proof. intros HP. induction w as [|w IH]; simpl; [done|]. by rewrite HP, IH. Qed.

Lemma zeros_snoc w : zeros w +:+ "0" = zeros (S w).
Proof.
  induction w as [|w IH]; [done|].
  change (zeros (S w)) with (String "0" (zeros w)).
  by rewrite string_app_cons, IH.
Qed.

Lemma lower_nonempty s : s ≠ "" → lower s ≠ "".
Proof. by destruct s. Qed.

(** Stripping leaves alone a text without characters to drop. *)
Lemma lstrip_by_none p s :
  string_forall (fun c => negb (p c)) s = true → lstrip_by p s = s.
Proof.
  destruct s as [|c s]; simpl; [done|].
  intros [Hc _]%andb_true_iff. by destruct (p c).
Qed.

Lemma rstrip_by_none p s :
  string_forall (fun c => negb (p c)) s = true → rstrip_by p s = s.
Proof.
  induction s as [|c s IH]; simpl; [done|].
  intros [Hc Hs]%andb_true_iff. rewrite (IH Hs).
  destruct s; [|done]. by destruct (p c).
Qed.

Lemma strip_by_none p s :
  string_forall (fun c => negb (p c)) s = true → strip_by p s = s.
Proof.
  intros Hs. unfold strip_by. by rewrite lstrip_by_none, rstrip_by_none.
Qed.

(** Lower-casing commutes with stripping white space. *)
Lemma is_space_lower c : is_space (lower_char c) = is_space c.
Proof. destruct c as [[] [] [] [] [] [] [] []]; reflexivity. Qed.

Lemma lower_lstrip s : lower (lstrip_by is_space s) = lstrip_by is_space (lower s).
Proof.
  induction s as [|c s IH]; simpl; [done|].
  rewrite is_space_lower. by destruct (is_space c).
Qed.

Lemma lower_rstrip s : lower (rstrip_by is_space s) = rstrip_by is_space (lower s).
Proof.
  induction s as [|c s IH]; simpl; [done|].
  rewrite <- IH, is_space_lower.
  destruct (rstrip_by is_space s); simpl; [|done].
  by destruct (is_space c).
Qed.

Lemma lower_strip s : lower (strip s) = strip (lower s).
Proof. unfold strip, strip_by. by rewrite lower_rstrip, lower_lstrip. Qed.

End Strings.

(** ** Hexadecimal digits *)

Section HexDigits.
Import PyStr PyInt.

(** Facts about single characters, by enumeration. *)
Ltac by_cases_on_char c :=
  destruct c as [[] [] [] [] [] [] [] []]; try reflexivity; try discriminate.

Lemma digit_value_lower c : digit_value (lower_char c) = digit_value c.
Proof. by_cases_on_char c. Qed.

Lemma is_hex_digit_lower c : is_hex_digit (lower_char c) = is_hex_digit c.
Proof. unfold is_hex_digit. by rewrite digit_value_lower. Qed.

Lemma hex_digit_not_space c : is_hex_digit c = true → negb (is_space c) = true.
Proof. by_cases_on_char c. Qed.

Lemma hex_digit_not_cspace c : is_hex_digit c = true → negb (is_cspace c) = true.
Proof. by_cases_on_char c. Qed.

Lemma hex_digit_not_special c :
  is_hex_digit c = true →
  Ascii.eqb c "-" = false ∧ Ascii.eqb c "+" = false ∧ Ascii.eqb c "_" = false ∧
  Ascii.eqb c "x" = false ∧ Ascii.eqb c "X" = false.
Proof. by_cases_on_char c; intros _; by split_and!. Qed.

Lemma hex_digit_value c :
  is_hex_digit c = true → ∃ d, digit_value c = Some d ∧ 0 ≤ d < 16.
Proof.
  by_cases_on_char c; intros _; (eexists; split; [vm_compute; reflexivity|lia]).
Qed.

Lemma upper_hex_is_hex_digit c : is_upper_hex c = true → is_hex_digit c = true.
Proof. by_cases_on_char c. Qed.

Lemma hex_char_upper d : 0 ≤ d < 16 → is_upper_hex (hex_char d) = true.
Proof.
  intros Hd.
  assert (d = 0 ∨ d = 1 ∨ d = 2 ∨ d = 3 ∨ d = 4 ∨ d = 5 ∨ d = 6 ∨ d = 7 ∨
          d = 8 ∨ d = 9 ∨ d = 10 ∨ d = 11 ∨ d = 12 ∨ d = 13 ∨ d = 14 ∨ d = 15)
    as Hcases by lia.
  destruct_or!; subst d; reflexivity.
Qed.

Lemma hex_char_value d : 0 ≤ d < 16 → digit_value (hex_char d) = Some d.
Proof.
  intros Hd.
  assert (d = 0 ∨ d = 1 ∨ d = 2 ∨ d = 3 ∨ d = 4 ∨ d = 5 ∨ d = 6 ∨ d = 7 ∨
          d = 8 ∨ d = 9 ∨ d = 10 ∨ d = 11 ∨ d = 12 ∨ d = 13 ∨ d = 14 ∨ d = 15)
    as Hcases by lia.
  destruct_or!; subst d; reflexivity.
Qed.

(** The scan of a run of hexadecimal digits computes its value. *)
Lemma scan_hex_text s :
  string_forall is_hex_digit s = true →
  ∀ acc, scan_digits 16 false acc s = Some (hex_value_from acc s).
Proof.
  induction s as [|c s IH]; simpl; [done|].
  intros [Hc Hs]%andb_true_iff acc.
  destruct (hex_digit_not_special c Hc) as (_ & _ & -> & _).
  destruct (hex_digit_value c Hc) as (d & -> & Hd). simpl.
  destruct (Z.ltb_spec d 16); [|lia]. by apply IH.
Qed.

Lemma hex_value_from_lower s : ∀ acc, hex_value_from acc (lower s) = hex_value_from acc s.
Proof.
  induction s as [|c s IH]; simpl; [done|].
  intros acc. by rewrite digit_value_lower, IH.
Qed.

Lemma hex_value_from_app s1 s2 :
  ∀ acc, hex_value_from acc (s1 +:+ s2) = hex_value_from (hex_value_from acc s1) s2.
Proof.
  induction s1 as [|c s1 IH]; [done|].
  intros acc. rewrite string_app_cons. simpl. by rewrite IH.
Qed.

Lemma hex_value_from_zeros w : hex_value_from 0 (zeros w) = 0.
Proof. induction w as [|w IH]; simpl; [done|]. exact IH. Qed.

Lemma string_forall_lower_hex s :
  string_forall is_hex_digit (lower s) = string_forall is_hex_digit s.
Proof.
  induction s as [|c s IH]; simpl; [done|].
  by rewrite is_hex_digit_lower, IH.
Qed.

Lemma hex_go_S fuel n acc :
  hex_go (S fuel) n acc
  = if n <? 16 then String (hex_char (n mod 16)) acc
    else hex_go fuel (n / 16) (String (hex_char (n mod 16)) acc).
Proof. reflexivity. Qed.

Lemma div16_bound n (k : nat) :
  0 ≤ n < 16 ^ Z.of_nat (S k) → 0 ≤ n / 16 < 16 ^ Z.of_nat k.
Proof.
  intros Hn. split; [apply Z.div_pos; lia|].
  apply Z.div_lt_upper_bound; [lia|].
  replace (Z.of_nat (S k)) with (Z.succ (Z.of_nat k)) in Hn by lia.
  rewrite Z.pow_succ_r in Hn by lia. lia.
Qed.

(** The digits written by [hex_go], read back. *)
Lemma hex_go_value fuel :
  ∀ n tail, 0 ≤ n < 16 ^ Z.of_nat (S fuel) →
    hex_value_from 0 (hex_go (S fuel) n tail) = hex_value_from n tail.
Proof.
  induction fuel as [|fuel IH]; intros n tail Hn; rewrite hex_go_S.
  - change (16 ^ Z.of_nat 1) with 16 in Hn.
    destruct (Z.ltb_spec n 16); [|lia].
    simpl. rewrite Z.mod_small by lia. by rewrite hex_char_value by lia.
  - destruct (Z.ltb_spec n 16) as [Hsmall|Hbig].
    + simpl. rewrite Z.mod_small by lia. by rewrite hex_char_value by lia.
    + rewrite IH by (by apply div16_bound).
      simpl. rewrite hex_char_value by (apply Z.mod_pos_bound; lia).
      simpl. f_equal. pose proof (Z.div_mod n 16). lia.
Qed.

Lemma hex_go_forall (P : ascii → bool) fuel :
  (∀ d, 0 ≤ d < 16 → P (hex_char d) = true) →
  ∀ n tail, 0 ≤ n → string_forall P tail = true →
    string_forall P (hex_go fuel n tail) = true.
Proof.
  intros HP. induction fuel as [|fuel IH]; intros n tail Hn Htail; [done|].
  rewrite hex_go_S.
  assert (string_forall P (String (hex_char (n mod 16)) tail) = true) as Hcons.
  { simpl. by rewrite HP, Htail by (apply Z.mod_pos_bound; lia). }
  destruct (n <? 16); [done|]. apply IH; [apply Z.div_pos; lia|done].
Qed.

Lemma hex_go_length fuel :
  ∀ n tail (k : nat), (1 ≤ k)%nat → 0 ≤ n < 16 ^ Z.of_nat k →
    (String.length (hex_go (S fuel) n tail) ≤ k + String.length tail)%nat.
Proof.
  induction fuel as [|fuel IH]; intros n tail k Hk Hn; rewrite hex_go_S.
  - destruct (n <? 16); simpl; lia.
  - destruct (Z.ltb_spec n 16) as [Hsmall|Hbig]; [simpl; lia|].
    destruct k as [|[|k]]; [lia| |].
    + change (16 ^ Z.of_nat 1) with 16 in Hn. lia.
    + etrans; [apply (IH _ _ (S k)); [lia|by apply div16_bound]|]. simpl. lia.
Qed.

Lemma hex_go_nonempty fuel n tail : hex_go (S fuel) n tail ≠ "".
Proof.
  revert n tail. induction fuel as [|fuel IH]; intros n tail; rewrite hex_go_S.
  - by destruct (n <? 16).
  - destruct (n <? 16); [done|]. apply IH.
Qed.

Lemma hex_upper_fuel n :
  0 ≤ n → n < 16 ^ Z.of_nat (S (Z.to_nat (Z.log2 n))).
Proof.
  intros Hn. destruct (Z.eq_dec n 0) as [->|Hne]; [done|].
  pose proof (Z.log2_spec n ltac:(lia)) as [_ Hlt].
  pose proof (Z.log2_nonneg n).
  replace (Z.of_nat (S (Z.to_nat (Z.log2 n)))) with (Z.succ (Z.log2 n)) by lia.
  eapply Z.lt_le_trans; [exact Hlt|].
  apply Z.pow_le_mono_l. lia.
Qed.

Lemma hex_upper_value n : 0 ≤ n → hex_value (hex_upper n) = n.
Proof.
  intros Hn. unfold hex_value, hex_upper.
  rewrite hex_go_value; [done|]. split; [done|]. by apply hex_upper_fuel.
Qed.

Lemma hex_upper_forall n : 0 ≤ n → string_forall is_upper_hex (hex_upper n) = true.
Proof.
  intros Hn. unfold hex_upper. apply hex_go_forall; [|done..].
  apply hex_char_upper.
Qed.

Lemma hex_upper_length n (k : nat) :
  (1 ≤ k)%nat → 0 ≤ n < 16 ^ Z.of_nat k → (String.length (hex_upper n) ≤ k)%nat.
Proof.
  intros Hk Hn. unfold hex_upper.
  etrans; [by apply hex_go_length|]. simpl. lia.
Qed.

End HexDigits.

(** ** Hex normalization *)

Section NormalizeHex.
Import PyStr PyInt.

Lemma int_of_str_unsigned base s c t :
  strip_by is_cspace s = String c t →
  Ascii.eqb c "-" = false → Ascii.eqb c "+" = false →
  int_of_str base s = parse_body base (skip_prefix base (String c t)).
Proof.
  intros Hs Hminus Hplus. unfold int_of_str. rewrite Hs.
  destruct c as [[] [] [] [] [] [] [] []]; try discriminate;
    cbv beta iota zeta; by destruct (parse_body _ _).
Qed.

Lemma int_of_str_negative base s t :
  strip_by is_cspace s = String "-" t →
  int_of_str base s = (fun v => - v) <$> parse_body base (skip_prefix base t).
Proof.
  intros Hs. unfold int_of_str. rewrite Hs. cbv beta iota zeta.
  by destruct (parse_body _ _).
Qed.

Lemma skip_prefix_hex t :
  string_forall is_hex_digit t = true → skip_prefix 16 t = t.
Proof.
  destruct t as [|c0 [|c1 rest]]; [done| |].
  - intros _. destruct c0 as [[] [] [] [] [] [] [] []]; reflexivity.
  - simpl. intros [_ [Hc1 _]%andb_true_iff]%andb_true_iff.
    destruct (hex_digit_not_special c1 Hc1) as (_ & _ & _ & Hx & HX).
    unfold skip_prefix.
    destruct c0 as [[] [] [] [] [] [] [] []]; try reflexivity.
    by rewrite Hx, HX.
Qed.

Lemma parse_body_hex t : hex_text t → parse_body 16 t = Some (hex_value t).
Proof.
  intros [Hne Hall]. destruct t as [|c t]; [done|]. unfold parse_body.
  assert (is_hex_digit c = true) as Hc by (simpl in Hall; by destruct (is_hex_digit c)).
  destruct (hex_digit_not_special c Hc) as (_ & _ & -> & _).
  by apply scan_hex_text.
Qed.

Lemma int_of_str_hex t : hex_text t → int_of_str 16 t = Some (hex_value t).
Proof.
  intros Ht. pose proof Ht as [Hne Hall]. destruct t as [|c t]; [done|].
  assert (is_hex_digit c = true) as Hc by (simpl in Hall; by destruct (is_hex_digit c)).
  destruct (hex_digit_not_special c Hc) as (Hminus & Hplus & _).
  rewrite (int_of_str_unsigned 16 _ c t); [|..|done|done].
  - rewrite skip_prefix_hex by done. by apply parse_body_hex.
  - apply strip_by_none.
    by apply (string_forall_impl is_hex_digit), Hall; apply hex_digit_not_cspace.
Qed.

Lemma int_of_str_neg_hex t :
  hex_text t → int_of_str 16 (String "-" t) = Some (- hex_value t).
Proof.
  intros Ht. pose proof Ht as [Hne Hall].
  rewrite (int_of_str_negative 16 _ t).
  - rewrite skip_prefix_hex by done. by rewrite parse_body_hex.
  - apply strip_by_none. simpl.
    by apply (string_forall_impl is_hex_digit), Hall; apply hex_digit_not_cspace.
Qed.

Lemma startswith_0x_hex t :
  string_forall is_hex_digit t = true → startswith t "0x" = false.
Proof.
  unfold startswith. destruct t as [|c0 [|c1 rest]]; [done| |].
  - intros _. cbn [String.prefix]. by destruct (ascii_dec _ c0).
  - intros Hall. simpl in Hall.
    apply andb_true_iff in Hall as [_ [Hc1 _]%andb_true_iff].
    cbn [String.prefix]. destruct (ascii_dec _ c0); [|done].
    destruct (ascii_dec _ c1) as [<-|]; [done|done].
Qed.

Lemma startswith_0x_cons s : startswith (String "0" (String "x" s)) "0x" = true.
Proof. unfold startswith. destruct s; reflexivity. Qed.

Lemma hex_text_lower t : hex_text t → hex_text (lower t).
Proof.
  intros [Hne Hall]. split; [by apply lower_nonempty|].
  by rewrite string_forall_lower_hex.
Qed.

(** A run of digits, with or without the prefix, is normalized to the
    formatted value. *)
Lemma normalize_hex_hex_text t width :
  hex_text t →
  ApuTrace.normalize_hex t width = Ok (format_0X (hex_value t) width).
Proof.
  intros Ht. pose proof Ht as [Hne Hall]. unfold ApuTrace.normalize_hex.
  unfold strip. rewrite strip_by_none
    by (by apply (string_forall_impl is_hex_digit), Hall; apply hex_digit_not_space).
  pose proof (hex_text_lower t Ht) as [Hlne Hlall].
  rewrite startswith_0x_hex by done.
  destruct (String.eqb_spec (lower t) ""); [done|].
  rewrite int_of_str_hex by (by split).
  unfold hex_value. by rewrite hex_value_from_lower.
Qed.

Lemma normalize_hex_prefixed t width (x : ascii) :
  x = "x"%char ∨ x = "X"%char → hex_text t →
  ApuTrace.normalize_hex (String "0" (String x t)) width
  = Ok (format_0X (hex_value t) width).
Proof.
  intros Hx Ht. pose proof Ht as [Hne Hall]. unfold ApuTrace.normalize_hex.
  unfold strip. rewrite strip_by_none; cycle 1.
  { simpl. destruct Hx as [-> | ->]; simpl;
      by apply (string_forall_impl is_hex_digit), Hall; apply hex_digit_not_space. }
  pose proof (hex_text_lower t Ht) as [Hlne Hlall].
  replace (lower (String "0" (String x t))) with (String "0" (String "x" (lower t)))
    by (by destruct Hx as [-> | ->]).
  rewrite startswith_0x_cons. cbn [drop].
  destruct (String.eqb_spec (lower t) ""); [done|].
  rewrite int_of_str_hex by (by split).
  unfold hex_value. by rewrite hex_value_from_lower.
Qed.

Lemma normalize_hex_neg_hex_text t width :
  hex_text t →
  ApuTrace.normalize_hex (String "-" t) width = Ok (format_0X (- hex_value t) width).
Proof.
  intros Ht. pose proof Ht as [Hne Hall]. unfold ApuTrace.normalize_hex.
  unfold strip. rewrite strip_by_none; cycle 1.
  { simpl. by apply (string_forall_impl is_hex_digit), Hall; apply hex_digit_not_space. }
  pose proof (hex_text_lower t Ht) as [Hlne Hlall].
  change (lower (String "-" t)) with (String "-" (lower t)).
  change (startswith (String "-" (lower t)) "0x") with false. cbv iota.
  change (String.eqb (String "-" (lower t)) "") with false. cbv iota.
  rewrite int_of_str_neg_hex by (by split).
  unfold hex_value. by rewrite hex_value_from_lower.
Qed.

(** Shape of the formatted text. *)
Lemma format_0X_nonneg n width :
  0 ≤ n →
  format_0X n width = zeros (width - String.length (hex_upper n)) +:+ hex_upper n.
Proof.
  intros Hn. unfold format_0X. rewrite Z.abs_eq by done.
  destruct (Z.ltb_spec n 0); [lia|]. simpl String.length.
  by rewrite Nat.sub_0_r, string_app_nil.
Qed.

Lemma format_0X_neg n width :
  n < 0 →
  format_0X n width
  = String "-" (zeros (width - 1 - String.length (hex_upper (- n))) +:+ hex_upper (- n)).
Proof.
  intros Hn. unfold format_0X. rewrite Z.abs_neq by lia.
  destruct (Z.ltb_spec n 0); [|lia]. simpl String.length.
  by rewrite string_app_cons, string_app_nil.
Qed.

Lemma padded_hex_text (k : nat) n :
  0 ≤ n →
  hex_text (zeros k +:+ hex_upper n) ∧ hex_value (zeros k +:+ hex_upper n) = n.
Proof.
  intros Hn. split; [split|].
  - unfold hex_upper. destruct k; [apply hex_go_nonempty|done].
  - rewrite string_forall_app, zeros_forall by done. simpl.
    apply (string_forall_impl is_upper_hex); [apply upper_hex_is_hex_digit|].
    by apply hex_upper_forall.
  - unfold hex_value. rewrite hex_value_from_app, hex_value_from_zeros.
    by apply hex_upper_value.
Qed.

(** Normalizing a formatted number gives it back. *)
Lemma normalize_hex_format n width :
  ApuTrace.normalize_hex (format_0X n width) width = Ok (format_0X n width).
Proof.
  destruct (Z.lt_ge_cases n 0) as [Hneg|Hpos].
  - rewrite (format_0X_neg n width Hneg).
    destruct (padded_hex_text (width - 1 - String.length (hex_upper (- n))) (- n))
      as [Ht Hv]; [lia|].
    rewrite normalize_hex_neg_hex_text by done. rewrite Hv, Z.opp_involutive.
    by rewrite (format_0X_neg n width Hneg).
  - rewrite (format_0X_nonneg n width Hpos).
    destruct (padded_hex_text (width - String.length (hex_upper n)) n) as [Ht Hv];
      [done|].
    rewrite normalize_hex_hex_text by done. rewrite Hv.
    by rewrite (format_0X_nonneg n width Hpos).
Qed.

Lemma normalize_hex_zeros width :
  ApuTrace.normalize_hex (zeros width) width = Ok (zeros width).
Proof.
  destruct width as [|w]; [done|].
  assert (zeros (S w) = format_0X 0 (S w)) as ->.
  { rewrite format_0X_nonneg by done. change (hex_upper 0) with "0".
    simpl String.length. replace (S w - 1)%nat with w by lia.
    by rewrite zeros_snoc. }
  apply normalize_hex_format.
Qed.

Lemma normalize_hex_idempotent value width r :
  ApuTrace.normalize_hex value width = Ok r →
  ApuTrace.normalize_hex r width = Ok r.
Proof.
  unfold ApuTrace.normalize_hex at 1.
  destruct (String.eqb _ "").
  - intros [= <-]. apply normalize_hex_zeros.
  - destruct (int_of_str 16 _) as [n|]; [|done].
    intros [= <-]. apply normalize_hex_format.
Qed.

Lemma normalize_hex_case_insensitive s1 s2 width :
  lower s1 = lower s2 →
  ApuTrace.normalize_hex s1 width = ApuTrace.normalize_hex s2 width.
Proof.
  intros Heq. unfold ApuTrace.normalize_hex. by rewrite !lower_strip, Heq.
Qed.

(** Width and alphabet of the result for a value that fits. *)
Lemma format_0X_fits n (width : nat) :
  (1 ≤ width)%nat → 0 ≤ n < 16 ^ Z.of_nat width →
  String.length (format_0X n width) = width ∧
  string_forall is_upper_hex (format_0X n width) = true.
Proof.
  intros Hw Hn. rewrite format_0X_nonneg by lia. split.
  - rewrite string_length_app, zeros_length.
    pose proof (hex_upper_length n width Hw Hn). lia.
  - rewrite string_forall_app, zeros_forall by done. simpl.
    apply hex_upper_forall. lia.
Qed.

Lemma format_0X_min_length n (width : nat) :
  (width ≤ String.length (format_0X n width))%nat.
Proof.
  destruct (Z.lt_ge_cases n 0) as [Hneg|Hpos].
  - rewrite format_0X_neg by done. simpl.
    rewrite string_length_app, zeros_length. lia.
  - rewrite format_0X_nonneg by done.
    rewrite string_length_app, zeros_length. lia.
Qed.

Lemma nmi_normalize_hex_same value width :
  NmiTrace.normalize_hex value width = ApuTrace.normalize_hex value width.
Proof. reflexivity. Qed.

End NormalizeHex.

Lemma hex_value_from_nonneg s :
  string_forall is_hex_digit s = true →
  ∀ acc, 0 ≤ acc → 0 ≤ hex_value_from acc s.
Proof.
  induction s as [|c s IH]; simpl; [done|].
  intros [Hc Hs]%andb_true_iff acc Hacc.
  destruct (hex_digit_value c Hc) as (d & -> & Hd). simpl.
  apply IH; [done|lia].
Qed.

(** A run of hexadecimal digits denotes less than 16 to its length. *)
Lemma hex_value_from_bound s :
  string_forall is_hex_digit s = true →
  ∀ acc, 0 ≤ acc →
    hex_value_from acc s < (acc + 1) * 16 ^ Z.of_nat (String.length s).
Proof.
  induction s as [|c s IH]; simpl String.length; simpl hex_value_from;
    simpl string_forall.
  - intros _ acc Hacc. change (16 ^ Z.of_nat 0) with 1. lia.
  - intros [Hc Hs]%andb_true_iff acc Hacc.
    destruct (hex_digit_value c Hc) as (d & -> & Hd). simpl default.
    eapply Z.lt_le_trans; [apply (IH Hs); lia|].
    rewrite Nat2Z.inj_succ, Z.pow_succ_r by lia.
    assert (0 < 16 ^ Z.of_nat (String.length s)) by (apply Z.pow_pos_nonneg; lia).
    nia.
Qed.

(** A value of at least [16^width] takes more than [width] digits. *)
Lemma hex_upper_long n (width : nat) :
  16 ^ Z.of_nat width ≤ n → (width < String.length (PyInt.hex_upper n))%nat.
Proof.
  intros Hbig.
  assert (0 < 16 ^ Z.of_nat width) by (apply Z.pow_pos_nonneg; lia).
  assert (0 ≤ n) as Hn by lia.
  pose proof (hex_value_from_bound (PyInt.hex_upper n)) as Hbound.
  specialize (Hbound (string_forall_impl _ _ _ upper_hex_is_hex_digit
                                         (hex_upper_forall n Hn)) 0 ltac:(lia)).
  fold (hex_value (PyInt.hex_upper n)) in Hbound.
  rewrite hex_upper_value in Hbound by done.
  destruct (Nat.lt_ge_cases width (String.length (PyInt.hex_upper n)))
    as [Hlt|Hge]; [done|].
  assert (16 ^ Z.of_nat (String.length (PyInt.hex_upper n)) ≤ 16 ^ Z.of_nat width)
    by (apply Z.pow_le_mono_r; lia).
  lia.
Qed.

(** The formatted text of a value that is not negative: upper-case
    digits that denote the value, and the bare digits of the value when
    it does not fit the width. *)
Lemma format_0X_upper n (width : nat) :
  0 ≤ n → string_forall is_upper_hex (PyInt.format_0X n width) = true.
Proof.
  intros Hn. rewrite format_0X_nonneg by done.
  rewrite string_forall_app, zeros_forall by done. simpl.
  by apply hex_upper_forall.
Qed.

Lemma format_0X_value n (width : nat) :
  0 ≤ n → hex_value (PyInt.format_0X n width) = n.
Proof.
  intros Hn. rewrite format_0X_nonneg by done.
  by destruct (padded_hex_text (width - String.length (PyInt.hex_upper n)) n).
Qed.

Lemma format_0X_long n (width : nat) :
  16 ^ Z.of_nat width ≤ n →
  (width < String.length (PyInt.format_0X n width))%nat ∧
  PyInt.format_0X n width = PyInt.hex_upper n.
Proof.
  intros Hbig. pose proof (hex_upper_long n width Hbig) as Hlong.
  assert (0 < 16 ^ Z.of_nat width) by (apply Z.pow_pos_nonneg; lia).
  rewrite format_0X_nonneg by lia.
  replace (width - String.length (PyInt.hex_upper n))%nat with 0%nat by lia.
  by rewrite string_app_nil.
Qed.

(** C8, as the code has it.  For a well-formed hexadecimal text, with or
    without the [0x] prefix, [normalize_hex] gives the value formatted in
    upper case and padded with zeros to at least the requested width: the
    result is always made of upper-case hexadecimal digits that denote the
    value of the text; it has exactly the requested width when the value
    is below [16^width], and is longer than the width, being the digits of
    the value without padding, when the value is [16^width] or more.  The
    empty text gives zeros.  Normalizing a result again changes nothing,
    texts that differ in letter case only are normalized alike, and
    ["0x1A"], ["1a"] and ["001A"] all give ["001A"] at width 4.  The NMI
    tool's function is the same one. *)
Theorem hex_normalization :
  (∀ t (width : nat),
      hex_text t →
      ApuTrace.normalize_hex t width
      = Ok (PyInt.format_0X (hex_value t) width) ∧
      ApuTrace.normalize_hex ("0x" +:+ t) width
      = Ok (PyInt.format_0X (hex_value t) width) ∧
      ApuTrace.normalize_hex ("0X" +:+ t) width
      = Ok (PyInt.format_0X (hex_value t) width) ∧
      (width ≤ String.length (PyInt.format_0X (hex_value t) width))%nat ∧
      ((1 ≤ width)%nat → hex_value t < 16 ^ Z.of_nat width →
       String.length (PyInt.format_0X (hex_value t) width) = width ∧
       string_forall is_upper_hex (PyInt.format_0X (hex_value t) width) = true) ∧
      string_forall is_upper_hex (PyInt.format_0X (hex_value t) width) = true ∧
      hex_value (PyInt.format_0X (hex_value t) width) = hex_value t ∧
      (16 ^ Z.of_nat width ≤ hex_value t →
       (width < String.length (PyInt.format_0X (hex_value t) width))%nat ∧
       PyInt.format_0X (hex_value t) width = PyInt.hex_upper (hex_value t))) ∧
  (∀ width : nat, ApuTrace.normalize_hex "" width = Ok (PyStr.zeros width)) ∧
  (∀ value (width : nat) r,
      ApuTrace.normalize_hex value width = Ok r →
      ApuTrace.normalize_hex r width = Ok r) ∧
  (∀ s1 s2 (width : nat),
      PyStr.lower s1 = PyStr.lower s2 →
      ApuTrace.normalize_hex s1 width = ApuTrace.normalize_hex s2 width) ∧
  ApuTrace.normalize_hex "0x1A" 4 = Ok "001A" ∧
  ApuTrace.normalize_hex "1a" 4 = Ok "001A" ∧
  ApuTrace.normalize_hex "001A" 4 = Ok "001A" ∧
  (∀ value (width : nat),
      NmiTrace.normalize_hex value width = ApuTrace.normalize_hex value width).
Proof.
  split_and!.
  - intros t width Ht.
    assert (0 ≤ hex_value t) as Hpos.
    { destruct Ht as [_ Hall]. by apply hex_value_from_nonneg. }
    split_and!.
    + by apply normalize_hex_hex_text.
    + apply (normalize_hex_prefixed t width "x"); [by left|done].
    + apply (normalize_hex_prefixed t width "X"); [by right|done].
    + apply format_0X_min_length.
    + intros Hw Hfit. by apply format_0X_fits.
    + by apply format_0X_upper.
    + by apply format_0X_value.
    + apply format_0X_long.
  - done.
  - apply normalize_hex_idempotent.
  - apply normalize_hex_case_insensitive.
  - reflexivity.
  - reflexivity.
  - reflexivity.
  - apply nmi_normalize_hex_same.
Qed.

Lemma hex_normalization_witness :
  hex_text "4015" ∧
  ApuTrace.normalize_hex "0x4015" 4 = Ok (PyInt.format_0X (hex_value "4015") 4) ∧
  String.length (PyInt.format_0X (hex_value "4015") 4) = 4%nat ∧
  hex_text "12345" ∧
  (4 < String.length (PyInt.format_0X (hex_value "12345") 4))%nat.
Proof.
  assert (hex_text "4015") as Ht by (split; [discriminate|reflexivity]).
  assert (hex_text "12345") as Hu by (split; [discriminate|reflexivity]).
  split; [exact Ht|].
  destruct (proj1 hex_normalization "4015" 4%nat Ht) as (_ & Hx & _ & _ & Hfit & _).
  split; [exact Hx|]. split; [apply Hfit; [lia|]; vm_compute; reflexivity|].
  split; [exact Hu|].
  destruct (proj1 hex_normalization "12345" 4%nat Hu)
    as (_ & _ & _ & _ & _ & _ & _ & Hlong).
  apply Hlong. vm_compute. discriminate.
Defined.

(** C8 as stated fails in its fixed-width part: a well-formed text of
    five digits is normalized, at width 4, to a text of five digits. *)
Lemma normalize_hex_longer_than_width :
  hex_text "12345" ∧
  ApuTrace.normalize_hex "12345" 4 = Ok "12345" ∧
  NmiTrace.normalize_hex "12345" 4 = Ok "12345" ∧
  String.length "12345" ≠ 4%nat.
Proof.
  split_and!; [split; [discriminate|reflexivity]|reflexivity|reflexivity|].
  simpl. lia.
Qed.

(** * Further properties: the trace tools *)


Section ForEachApp.

Context {A S : Type} (body : S → A → result S).

Lemma for_each_app xs ys s :
  for_each body (xs ++ ys) s = (s' ← for_each body xs s; for_each body ys s').
Proof.
  revert s. induction xs as [|x xs IH]; intros s; simpl; [done|].
  destruct (body s x); simpl; [apply IH|done].
Qed.

(** A turn that leaves the state alone can be dropped from the loop. *)
Lemma for_each_skip xs x ys s :
  (∀ s, body s x = Ok s) →
  for_each body (xs ++ x :: ys) s = for_each body (xs ++ ys) s.
Proof.
  intros Hskip. rewrite !for_each_app. destruct (for_each body xs s); simpl; [|done].
  by rewrite Hskip.
Qed.

End ForEachApp.

Section Normal.

Import PyStr PyInt.

Lemma upper_hex_is_format_char c : is_upper_hex c = true → is_format_char c = true.
Proof. unfold is_format_char. intros ->. by rewrite orb_true_r. Qed.

Lemma format_0X_chars n width : string_forall is_format_char (format_0X n width) = true.
Proof.
  destruct (Z.lt_ge_cases n 0) as [Hneg|Hpos].
  - rewrite format_0X_neg by done. simpl.
    rewrite string_forall_app, zeros_forall by done. simpl.
    apply (string_forall_impl is_upper_hex); [apply upper_hex_is_format_char|].
    apply hex_upper_forall. lia.
  - rewrite format_0X_nonneg by done.
    rewrite string_forall_app, zeros_forall by done. simpl.
    apply (string_forall_impl is_upper_hex); [apply upper_hex_is_format_char|].
    by apply hex_upper_forall.
Qed.

Lemma normalize_hex_normal value width r :
  ApuTrace.normalize_hex value width = Ok r → normal_hex width r.
Proof.
  intros Hrun. split; [by eapply normalize_hex_idempotent|].
  unfold ApuTrace.normalize_hex in Hrun.
  destruct (String.eqb _ "").
  - injection Hrun as <-. rewrite zeros_length. split; [done|].
    by apply zeros_forall.
  - destruct (int_of_str 16 _) as [n|]; [|done]. injection Hrun as <-.
    split; [apply format_0X_min_length|apply format_0X_chars].
Qed.

End Normal.

Section ApuEvents.

Import PyStr PyInt ApuTrace.

Lemma apu_step_cases irm events line events' :
  parse_events_step irm events line = Ok events' →
  events' = events ∨
  ∃ e, events' = events ++ [e] ∧ index e = length events ∧
       apu_read_from e line ∧
       ev e ∈ allowed_events irm ∧
       normal_hex 4 (addr e) ∧ normal_hex 2 (value e).
Proof.
  unfold parse_events_step. intros H.
  destruct (startswith line "APUTRACE|") eqn:Htag; simpl in H; [|left; congruence].
  destruct (bool_decide_reflect
              (dict_get (parse_fields line) "ev" "" ∈ allowed_events irm))
    as [Hev|]; simpl in H; [|left; congruence].
  destruct (String.eqb _ ""); [left; congruence|].
  destruct (normalize_hex (dict_get (parse_fields line) "addr" "") 4)
    as [a|] eqn:Ha; simpl in H; [|done].
  destruct (normalize_hex (dict_get (parse_fields line) "value" "00") 2)
    as [v|] eqn:Hv; simpl in H; [|done].
  injection H as <-. right. eexists. split; [done|]. simpl.
  split_and!; try done.
  - by eapply normalize_hex_normal.
  - by eapply normalize_hex_normal.
Qed.

End ApuEvents.





Section NmiEvents.

Import PyStr PyInt NmiTrace.

Lemma nmi_normalize_hex_normal value width r :
  normalize_hex value width = Ok r → normal_hex width r.
Proof. rewrite nmi_normalize_hex_same. apply normalize_hex_normal. Qed.

Lemma normalize_event_cases src ev norm_ev :
  normalize_event src ev = Some norm_ev →
  (norm_ev = ev ∧ (ev = "read" ∨ ev = "write")) ∨
  (norm_ev = "nmi_take" ∧ ev ≠ "read" ∧ ev ≠ "write").
Proof.
  unfold normalize_event.
  destruct (bool_decide_reflect (ev ∈ ({["read"; "write"]} : gset string)))
    as [Hin|Hnot].
  - intros [= <-]. left. split; [done|]. set_unfold. tauto.
  - assert (ev ≠ "read" ∧ ev ≠ "write") as [? ?] by (set_unfold; tauto).
    destruct (_ && _); [intros [= <-]; by right|].
    destruct (_ && _); [intros [= <-]; by right|done].
Qed.

End NmiEvents.



Section SkippedLines.

Import PyStr PyInt.

Lemma apu_step_skips irm line events :
  ¬ apu_accepts irm line → ApuTrace.parse_events_step irm events line = Ok events.
Proof.
  intros Hnot. unfold ApuTrace.parse_events_step.
  destruct (startswith line "APUTRACE|") eqn:Htag; [simpl|done].
  destruct (bool_decide_reflect
              (dict_get (ApuTrace.parse_fields line) "ev" ""
               ∈ ApuTrace.allowed_events irm)) as [Hev|]; [simpl|done].
  destruct (String.eqb_spec (dict_get (ApuTrace.parse_fields line) "addr" "") "")
    as [|Haddr]; [done|].
  by destruct Hnot.
Qed.

Lemma nmi_step_skips line events :
  ¬ nmi_keeps line → NmiTrace.parse_events_step events line = Ok events.
Proof.
  intros Hnot. unfold NmiTrace.parse_events_step.
  destruct (startswith line "NMITRACE|") eqn:Htag; [simpl|done].
  destruct (NmiTrace.normalize_event _ _) as [norm_ev|] eqn:Hnorm; [|done].
  destruct (bool_decide_reflect (norm_ev ∈ ({["read"; "write"]} : gset string)))
    as [Hin|Hout].
  - destruct (NmiTrace.parse_fields line !! "addr") as [a|] eqn:Ha; [|done].
    destruct (NmiTrace.parse_fields line !! "value") as [v|] eqn:Hv; [|done].
    destruct Hnot. split; [done|]. exists norm_ev. split; [done|]. intros _.
    rewrite Ha, Hv. by split.
  - destruct Hnot. split; [done|]. exists norm_ev. split; [done|]. by intros ?.
Qed.

Lemma startswith_other_head c line t tag :
  c ≠ t → startswith (String c line) (String t tag) = false.
Proof.
  intros Hne. unfold startswith. cbn [String.prefix].
  destruct (ascii_dec t c) as [->|]; [done|done].
Qed.

End SkippedLines.


Section Symmetry.

Lemma apu_key_differs_sym m n : ApuTrace.key_differs m n = ApuTrace.key_differs n m.
Proof.
  unfold ApuTrace.key_differs.
  by rewrite (String.eqb_sym (ApuTrace.ev m)), (String.eqb_sym (ApuTrace.addr m)),
    (String.eqb_sym (ApuTrace.value m)).
Qed.

Lemma apu_first_differing_sym ms :
  ∀ (i : nat) ns,
    ApuTrace.first_differing i ns ms
    = (fun '(k, m, n) => (k, n, m)) <$> ApuTrace.first_differing i ms ns.
Proof.
  induction ms as [|m ms IH]; intros i [|n ns]; simpl; try done.
  rewrite apu_key_differs_sym. destruct (ApuTrace.key_differs m n); [done|apply IH].
Qed.

Lemma nmi_first_differing_sym ms :
  ∀ (i : nat) ns,
    NmiTrace.first_differing i ns ms
    = (fun '(k, m, n) => (k, n, m)) <$> NmiTrace.first_differing i ms ns.
Proof.
  induction ms as [|m ms IH]; intros i [|n ns]; simpl; try done.
  destruct (bool_decide_reflect (NmiTrace.key_of m = NmiTrace.key_of n)) as [Heq|Hne].
  - rewrite bool_decide_eq_true_2 by done. simpl. apply IH.
  - rewrite bool_decide_eq_false_2 by (by intros ?). done.
Qed.

End Symmetry.


Section Windows.

Lemma range_nil lo hi : hi ≤ lo → range lo hi = [].
Proof. intros H. unfold range. by replace (Z.to_nat (hi - lo)) with 0%nat by lia. Qed.

Lemma range_cons lo hi : lo < hi → range lo hi = lo :: range (lo + 1) hi.
Proof.
  intros H. unfold range.
  replace (Z.to_nat (hi - lo)) with (S (Z.to_nat (hi - (lo + 1)))) by lia.
  cbn [seq map]. f_equal; [lia|].
  rewrite <- seq_shift, map_map. apply map_ext. intros k. lia.
Qed.

Lemma range_length lo hi : length (range lo hi) = Z.to_nat (hi - lo).
Proof. unfold range. by rewrite length_map, length_seq. Qed.

(** The rows that a loop over [range lo hi] builds from [events[i]] are
    those of the slice [events[lo:hi]], numbered from [lo]. *)
Lemma slice_rows {A B : Type} (row : Z → A → B) (events : list A) (n : nat) :
  ∀ lo, 0 ≤ lo → lo + Z.of_nat n ≤ Z.of_nat (length events) →
    flat_map (fun i => match events !! Z.to_nat i with
                       | Some e => [row i e]
                       | None => []
                       end)
             (range lo (lo + Z.of_nat n))
    = imap (fun k e => row (lo + Z.of_nat k) e)
           (take n (drop (Z.to_nat lo) events)).
Proof.
  induction n as [|n IH]; intros lo Hlo Hhi.
  - rewrite range_nil by lia. done.
  - rewrite range_cons by lia.
    destruct (lookup_lt_is_Some_2 events (Z.to_nat lo)) as [e He]; [lia|].
    cbn [flat_map]. rewrite He.
    rewrite (drop_S _ _ _ He). cbn [take imap app].
    rewrite Z.add_0_r. f_equal.
    replace (lo + Z.of_nat (S n)) with ((lo + 1) + Z.of_nat n) by lia.
    rewrite IH by lia.
    replace (Z.to_nat (lo + 1)) with (S (Z.to_nat lo)) by lia.
    apply imap_ext. intros k x _. simpl. f_equal. lia.
Qed.

Lemma slice_rows_range {A B : Type} (row : Z → A → B) (events : list A) lo stop :
  0 ≤ lo → stop ≤ Z.of_nat (length events) →
  flat_map (fun i => match events !! Z.to_nat i with
                     | Some e => [row i e]
                     | None => []
                     end)
           (range lo stop)
  = imap (fun k e => row (lo + Z.of_nat k) e)
         (take (Z.to_nat (stop - lo)) (drop (Z.to_nat lo) events)).
Proof.
  intros Hlo Hstop. destruct (Z.le_gt_cases stop lo) as [Hempty|Hlt].
  - rewrite range_nil by done. by replace (Z.to_nat (stop - lo)) with 0%nat by lia.
  - replace stop with (lo + Z.of_nat (Z.to_nat (stop - lo))) at 1 by lia.
    apply slice_rows; lia.
Qed.

End Windows.



Section StripMargins.

Import PyStr.

Context (p : ascii → bool).

Lemma lstrip_by_margin pre s :
  string_forall p pre = true → lstrip_by p (pre +:+ s) = lstrip_by p s.
Proof.
  induction pre as [|c pre IH]; [done|]. simpl.
  intros [Hc Hpre]%andb_true_iff. rewrite Hc. by apply IH.
Qed.

Lemma lstrip_by_all s : string_forall p s = true → lstrip_by p s = "".
Proof.
  induction s as [|c s IH]; [done|]. simpl.
  intros [Hc Hs]%andb_true_iff. rewrite Hc. by apply IH.
Qed.

Lemma rstrip_by_all s : string_forall p s = true → rstrip_by p s = "".
Proof.
  induction s as [|c s IH]; [done|]. simpl.
  intros [Hc Hs]%andb_true_iff. by rewrite IH, Hc.
Qed.

Lemma rstrip_by_margin s post :
  string_forall p post = true → rstrip_by p (s +:+ post) = rstrip_by p s.
Proof.
  intros Hpost. induction s as [|c s IH].
  - by apply rstrip_by_all.
  - rewrite string_app_cons. simpl. by rewrite IH.
Qed.

Lemma lstrip_by_app s post :
  lstrip_by p (s +:+ post)
  = match lstrip_by p s with
    | EmptyString => lstrip_by p post
    | kept => kept +:+ post
    end.
Proof.
  induction s as [|c s IH]; [done|].
  rewrite string_app_cons. simpl. destruct (p c); [exact IH|done].
Qed.

Lemma strip_by_margin pre s post :
  string_forall p pre = true → string_forall p post = true →
  strip_by p (pre +:+ s +:+ post) = strip_by p s.
Proof.
  intros Hpre Hpost. unfold strip_by.
  rewrite lstrip_by_margin by done. rewrite lstrip_by_app.
  destruct (lstrip_by p s) as [|c kept] eqn:Hs.
  - by rewrite lstrip_by_all.
  - by rewrite rstrip_by_margin.
Qed.

Lemma rstrip_by_idemp s : rstrip_by p (rstrip_by p s) = rstrip_by p s.
Proof.
  induction s as [|c s IH]; [done|]. simpl.
  destruct (rstrip_by p s) as [|d r] eqn:Hr.
  - destruct (p c) eqn:Hc; [done|]. simpl. by rewrite Hc.
  - change (rstrip_by p (String c (String d r)))
      with (match rstrip_by p (String d r) with
            | EmptyString => if p c then EmptyString else String c EmptyString
            | r' => String c r'
            end).
    by rewrite IH.
Qed.

Lemma lstrip_by_head s c kept : lstrip_by p s = String c kept → p c = false.
Proof.
  induction s as [|d s IH]; [done|]. simpl.
  destruct (p d) eqn:Hd; [exact IH|]. by intros [= <- _].
Qed.

Lemma rstrip_by_head c s :
  p c = false → ∃ kept, rstrip_by p (String c s) = String c kept.
Proof.
  intros Hc. simpl. destruct (rstrip_by p s); [|by eexists].
  rewrite Hc. by eexists.
Qed.

Lemma strip_by_idemp s : strip_by p (strip_by p s) = strip_by p s.
Proof.
  unfold strip_by. destruct (lstrip_by p s) as [|c kept] eqn:Hs; [done|].
  apply lstrip_by_head in Hs.
  destruct (rstrip_by_head c kept Hs) as [kept' Hr]. rewrite Hr at 1.
  simpl lstrip_by. rewrite Hs. rewrite <- Hr. apply rstrip_by_idemp.
Qed.

End StripMargins.



Section FieldSelection.

Import PpuReg.

Lemma filter_not_valid_nil fields :
  filter (fun f => f ∉ valid_fields) fields = [] ↔ supported fields.
Proof.
  split.
  - intros Hnil f Hf. destruct (decide (f ∈ valid_fields)); [done|].
    by destruct (filter_nil_not _ _ Hnil f Hf).
  - intros Hsup. induction fields as [|f fields IH]; [done|].
    rewrite filter_cons. destruct (decide (f ∉ valid_fields)) as [Hbad|_].
    + destruct Hbad. apply Hsup. by left.
    + apply IH. intros g Hg. apply Hsup. by right.
Qed.

End FieldSelection.



(** * Further properties: frame lists and pixel iteration *)

Section SortedSet.

Lemma insert_sorted_perm {A} (before : A → A → bool) x l :
  insert_sorted before x l ≡ₚ x :: l.
Proof.
  induction l as [|y l IH]; simpl; [done|].
  destruct (before x y); [done|]. rewrite IH. apply Permutation_swap.
Qed.

Lemma sorted_foldl_perm {A} (before : A → A → bool) l :
  ∀ acc, foldl (fun acc x => insert_sorted before x acc) acc l ≡ₚ acc ++ l.
Proof.
  induction l as [|x l IH]; intros acc; simpl.
  - by rewrite app_nil_r.
  - rewrite IH, insert_sorted_perm. simpl. apply Permutation_middle.
Qed.

Lemma sorted_perm {A} (before : A → A → bool) l : sorted before l ≡ₚ l.
Proof. unfold sorted. by rewrite sorted_foldl_perm. Qed.

Lemma insert_sorted_lt x l :
  StronglySorted Z.lt l → x ∉ l → StronglySorted Z.lt (insert_sorted Z.ltb x l).
Proof.
  intros Hs Hx. induction Hs as [|y l Hs IH Hy]; simpl.
  - repeat constructor.
  - destruct (Z.ltb_spec x y) as [Hlt|Hge].
    + constructor; [by constructor|]. constructor; [done|].
      eapply Forall_impl; [exact Hy|]. intros z Hz. simpl in Hz. lia.
    + assert (x ≠ y) by (intros ->; apply Hx; by left).
      constructor.
      * apply IH. intros Hin. apply Hx. by right.
      * apply Forall_forall. intros z Hz.
        rewrite (insert_sorted_perm Z.ltb x l) in Hz.
        apply elem_of_cons in Hz as [->|Hz]; [lia|].
        by apply (proj1 (Forall_forall _ _) Hy).
Qed.

Lemma sorted_foldl_lt l :
  ∀ acc, StronglySorted Z.lt acc → NoDup (acc ++ l) →
    StronglySorted Z.lt (foldl (fun acc x => insert_sorted Z.ltb x acc) acc l).
Proof.
  induction l as [|x l IH]; intros acc Hs Hnd; simpl; [done|].
  apply IH.
  - apply insert_sorted_lt; [done|].
    apply NoDup_app in Hnd as (_ & Hdisj & _). intros Hin.
    apply (Hdisj x Hin). by left.
  - rewrite (insert_sorted_perm Z.ltb x acc). simpl.
    by rewrite Permutation_middle.
Qed.

Lemma sorted_set_spec xs :
  strictly_increasing (sorted_set xs) ∧ ∀ n, n ∈ sorted_set xs ↔ n ∈ xs.
Proof.
  unfold sorted_set. split.
  - assert (StronglySorted Z.lt (sorted Z.ltb (remove_dups xs))) as Hs.
    { apply sorted_foldl_lt; [constructor|]. simpl. apply NoDup_remove_dups. }
    intros i j a b Hi Hj Hij.
    revert i j a b Hi Hj Hij. induction Hs as [|y l Hs IH Hy]; intros i j a b Hi Hj Hij.
    + by rewrite lookup_nil in Hi.
    + destruct j as [|j]; [lia|]. simpl in Hj. destruct i as [|i].
      * injection Hi as <-. apply (proj1 (Forall_forall _ _) Hy).
        by eapply list_elem_of_lookup_2.
      * simpl in Hi. apply (IH i j); [done..|lia].
  - intros n. rewrite (sorted_perm Z.ltb (remove_dups xs)).
    apply elem_of_remove_dups.
Qed.

End SortedSet.

Lemma for_each_raise_from {A S : Type} (body : S → A → result S) xs s e :
  for_each body xs s = Raise e → ∃ s' x, x ∈ xs ∧ body s' x = Raise e.
Proof.
  revert s. induction xs as [|x xs IH]; intros s; simpl; [done|].
  destruct (body s x) as [s'|e'] eqn:Hb; simpl.
  - intros Hrun. destruct (IH s' Hrun) as (s1 & y & Hy & Hstep).
    exists s1, y. split; [by right|done].
  - intros [= ->]. exists s, x. split; [by left|done].
Qed.

Section CsvInts.

Lemma csv_ints_spec value out :
  csv_ints value = Ok out → ∀ n, n ∈ out ↔ frame_listed value n.
Proof.
  unfold csv_ints, frame_listed. intros Hrun.
  refine (for_each_visited _
            (fun seen out => ∀ n, n ∈ out ↔
               ∃ token, token ∈ seen ∧ PyStr.strip token ≠ "" ∧
                        PyInt.int_of_str 10 (PyStr.strip token) = Some n)
            _ [] out _ _ Hrun); clear Hrun out.
  - intros n. split; [intros H; by apply elem_of_nil in H|].
    intros (t & Ht & _). by apply elem_of_nil in Ht.
  - intros seen token out out' IH Hstep n.
    destruct (String.eqb_spec (PyStr.strip token) "") as [Hblank|Hne].
    + injection Hstep as <-. rewrite IH. split.
      * intros (t & Ht & ?). exists t. split; [|done]. apply elem_of_app. by left.
      * intros (t & Ht & Hnb & Hn). apply elem_of_app in Ht as [Ht|Ht]; [by exists t|].
        apply list_elem_of_singleton in Ht as ->. done.
    + destruct (PyInt.int_of_str 10 (PyStr.strip token)) as [m|] eqn:Hm; [|done].
      injection Hstep as <-. rewrite elem_of_app, IH, list_elem_of_singleton. split.
      * intros [(t & Ht & ?)| ->].
        -- exists t. split; [|done]. apply elem_of_app. by left.
        -- exists token. split; [|done]. apply elem_of_app. right. by left.
      * intros (t & Ht & Hnb & Hn). apply elem_of_app in Ht as [Ht|Ht].
        -- left. by exists t.
        -- apply list_elem_of_singleton in Ht as ->. right. congruence.
Qed.

Lemma csv_ints_raises value e : csv_ints value = Raise e → e = ValueError.
Proof.
  unfold csv_ints. intros Hrun.
  apply for_each_raise_from in Hrun as (out & token & _ & Hstep).
  destruct (String.eqb _ ""); [done|].
  destruct (PyInt.int_of_str 10 _); congruence.
Qed.

End CsvInts.


(** ** Pixels of two dumps *)

Section IterPixels.

Import Rgb24.

Lemma observed_rgb_S r g b (rest : bytes) (j : nat) :
  observed_rgb (r :: g :: b :: rest) (S j) = observed_rgb rest j.
Proof.
  unfold observed_rgb.
  replace (3 * S j)%nat with (S (S (S (3 * j)))) by lia.
  replace (S (S (S (3 * j))) + 1)%nat with (S (S (S (3 * j + 1)))) by lia.
  replace (S (S (S (3 * j))) + 2)%nat with (S (S (S (3 * j + 2)))) by lia.
  done.
Qed.

Lemma iter_pixels_spec (n : nat) :
  ∀ buf : bytes, (length buf / 3)%nat = n →
    (∀ i : nat, (i < n)%nat →
       ∃ rgb, observed_rgb buf i = Some rgb ∧ iter_pixels buf !! i = Some (Ok rgb)) ∧
    (if decide ((length buf) mod 3 = 0)%nat
     then length (iter_pixels buf) = n
     else iter_pixels buf !! n = Some (Raise IndexError) ∧
          length (iter_pixels buf) = S n).
Proof.
  induction n as [|n IH]; intros buf Hn.
  - assert (length buf < 3)%nat as Hlen.
    { destruct (Nat.lt_ge_cases (length buf) 3) as [|Hge]; [done|].
      pose proof (Nat.Div0.div_le_mono 3 (length buf) 3 Hge) as Hd.
      rewrite Hn in Hd. simpl in Hd. lia. }
    split; [intros i Hi; lia|].
    destruct buf as [|r [|g [|b rest]]]; simpl in Hlen; [done|done|done|lia].
  - destruct buf as [|r [|g [|b rest]]]; try (simpl in Hn; lia).
    assert (length rest / 3 = n)%nat as Hrest.
    { change (length (r :: g :: b :: rest)) with (1 * 3 + length rest)%nat in Hn.
      rewrite Nat.div_add_l in Hn by lia. lia. }
    destruct (IH rest Hrest) as [Hpix Hend]. split.
    + intros [|i] Hi.
      * eexists. split; [reflexivity|reflexivity].
      * rewrite observed_rgb_S. simpl. apply Hpix. lia.
    + change (length (r :: g :: b :: rest)) with (1 * 3 + length rest)%nat.
      rewrite Nat.add_comm, Nat.Div0.mod_add.
      destruct (decide (length rest mod 3 = 0)%nat); simpl.
      * by rewrite Hend.
      * destruct Hend as [Hl Hlen]. by rewrite Hlen.
Qed.

End IterPixels.


(** * Further properties: the statistics of [compute_frame_diff] *)

Section FrameDiffSpec.

Import Rgb24.

Lemma zip_pixels_lookup ga :
  ∀ gb (i : nat), Forall yields ga → Forall yields gb →
    zip_pixels ga gb !! i
    = match ga !! i, gb !! i with
      | Some (Ok pa), Some (Ok pb) => Some (Ok (pa, pb))
      | _, _ => None
      end.
Proof.
  induction ga as [|pa ga IH]; intros gb i Ha Hb; [done|].
  apply Forall_cons in Ha as [[a ->] Ha].
  destruct gb as [|pb gb].
  { destruct i as [|i]; simpl; [done|]. by destruct (ga !! i) as [[|]|]. }
  apply Forall_cons in Hb as [[b ->] Hb].
  destruct i as [|i]; simpl; [done|]. by apply IH.
Qed.

Lemma zipped_pixel (a b : bytes) (n i : nat) :
  length a = (3 * n)%nat → length b = (3 * n)%nat → (i < n)%nat →
  ∃ pa pb, observed_rgb a i = Some pa ∧ observed_rgb b i = Some pb ∧
           zip_pixels (iter_pixels a) (iter_pixels b) !! i = Some (Ok (pa, pb)).
Proof.
  intros Ha Hb Hi.
  destruct (iter_pixels_yields n a Ha) as [_ Hya].
  destruct (iter_pixels_yields n b Hb) as [_ Hyb].
  assert (length a / 3 = n)%nat as Hda by (rewrite Ha, Nat.mul_comm; by apply Nat.div_mul).
  assert (length b / 3 = n)%nat as Hdb by (rewrite Hb, Nat.mul_comm; by apply Nat.div_mul).
  destruct (proj1 (iter_pixels_spec n a Hda) i Hi) as (pa & Hoa & Hla).
  destruct (proj1 (iter_pixels_spec n b Hdb) i Hi) as (pb & Hob & Hlb).
  exists pa, pb. split_and!; [done..|].
  by rewrite zip_pixels_lookup, Hla, Hlb.
Qed.

Lemma differing_pixels_S a b k :
  differing_pixels a b (S k)
  = differing_pixels a b k ++ (if decide (pixel_differs a b k) then [k] else []).
Proof.
  unfold differing_pixels. rewrite seq_S, filter_app. by rewrite filter_cons, filter_nil.
Qed.

Lemma total_abs_delta_S a b c k :
  total_abs_delta a b c (S k) = total_abs_delta a b c k + abs_delta a b (3 * k + c).
Proof.
  unfold total_abs_delta. rewrite seq_S, map_app. cbn [map Nat.add].
  generalize (abs_delta a b (3 * k + c)).
  generalize (map (fun i => abs_delta a b (3 * i + c)) (seq 0 k)).
  intros l y. induction l as [|x l IH]; cbn [foldr app]; [lia|]. rewrite IH. lia.
Qed.

Lemma observed_rgb_bytes (buf : bytes) (i : nat) r g b :
  observed_rgb buf i = Some (r, g, b) →
  ∃ br bg bb, buf !! (3 * i)%nat = Some br ∧ buf !! (3 * i + 1)%nat = Some bg ∧
              buf !! (3 * i + 2)%nat = Some bb ∧
              r = byte_val br ∧ g = byte_val bg ∧ b = byte_val bb.
Proof.
  unfold observed_rgb. intros H.
  destruct (buf !! (3 * i)%nat) as [br|] eqn:Hr; [|done].
  destruct (buf !! (3 * i + 1)%nat) as [bg|] eqn:Hg; [|done].
  destruct (buf !! (3 * i + 2)%nat) as [bb|] eqn:Hb; [|done].
  injection H as <- <- <-. by exists br, bg, bb.
Qed.

Lemma abs_delta_observed a b (i : nat) ra ga ba rb gb bb :
  observed_rgb a i = Some (ra, ga, ba) → observed_rgb b i = Some (rb, gb, bb) →
  abs_delta a b (3 * i + 0) = Z.abs (rb - ra) ∧
  abs_delta a b (3 * i + 1) = Z.abs (gb - ga) ∧
  abs_delta a b (3 * i + 2) = Z.abs (bb - ba).
Proof.
  intros Ha Hb.
  apply observed_rgb_bytes in Ha as (xr & xg & xb & Har & Hag & Hab & -> & -> & ->).
  apply observed_rgb_bytes in Hb as (yr & yg & yb & Hbr & Hbg & Hbb & -> & -> & ->).
  unfold abs_delta. rewrite Nat.add_0_r. by rewrite Har, Hag, Hab, Hbr, Hbg, Hbb.
Qed.

Lemma greatest_abs_delta_S a b c k hi :
  greatest_abs_delta a b c k hi →
  greatest_abs_delta a b c (S k) (Z.max hi (abs_delta a b (3 * k + c))).
Proof.
  intros (Hpos & Hup & Hatt). split_and!; [lia| |].
  - intros i Hi. destruct (decide (i = k)) as [->|]; [lia|].
    specialize (Hup i). lia.
  - destruct (Z.max_spec hi (abs_delta a b (3 * k + c))) as [[_ ->]|[_ ->]].
    + right. exists k. split; [lia|done].
    + destruct Hatt as [->|(i & Hi & <-)]; [by left|].
      right. exists i. split; [lia|done].
Qed.

Lemma abs_delta_nonneg a b j : 0 ≤ abs_delta a b j.
Proof. unfold abs_delta. destruct (a !! j), (b !! j); lia. Qed.

Lemma greatest_abs_delta_zero a b c k hi :
  greatest_abs_delta a b c k hi → abs_delta a b (3 * k + c) = 0 →
  greatest_abs_delta a b c (S k) hi.
Proof.
  intros H H0. pose proof H as (Hpos & _ & _).
  apply greatest_abs_delta_S in H. rewrite H0 in H.
  by rewrite Z.max_l in H by lia.
Qed.

Lemma tight_box_first width (k : nat) :
  tight_box [k] width
    (column_of width k, row_of width k, column_of width k, row_of width k).
Proof.
  unfold tight_box. split_and!.
  - intros i Hi. apply list_elem_of_singleton in Hi as ->. lia.
  - exists k. split; [by left|done].
  - exists k. split; [by left|done].
  - exists k. split; [by left|done].
  - exists k. split; [by left|done].
Qed.

Lemma tight_box_snoc positions width (k : nat) x0 y0 x1 y1 :
  tight_box positions width (x0, y0, x1, y1) →
  tight_box (positions ++ [k]) width
    (Z.min (column_of width k) x0, Z.min (row_of width k) y0,
     Z.max x1 (column_of width k), Z.max y1 (row_of width k)).
Proof.
  intros (Hin & (i0 & Hi0 & Hx0) & (j0 & Hj0 & Hy0) & (i1 & Hi1 & Hx1)
          & (j1 & Hj1 & Hy1)).
  unfold tight_box. split_and!.
  - intros i Hi. apply elem_of_app in Hi as [Hi|Hi].
    + specialize (Hin i Hi). lia.
    + apply list_elem_of_singleton in Hi as ->. lia.
  - destruct (Z.min_spec (column_of width k) x0) as [[_ ->]|[_ ->]].
    + exists k. split; [|done]. apply elem_of_app. right. by left.
    + exists i0. split; [|done]. apply elem_of_app. by left.
  - destruct (Z.min_spec (row_of width k) y0) as [[_ ->]|[_ ->]].
    + exists k. split; [|done]. apply elem_of_app. right. by left.
    + exists j0. split; [|done]. apply elem_of_app. by left.
  - destruct (Z.max_spec x1 (column_of width k)) as [[_ ->]|[_ ->]].
    + exists k. split; [|done]. apply elem_of_app. right. by left.
    + exists i1. split; [|done]. apply elem_of_app. by left.
  - destruct (Z.max_spec y1 (row_of width k)) as [[_ ->]|[_ ->]].
    + exists k. split; [|done]. apply elem_of_app. right. by left.
    + exists j1. split; [|done]. apply elem_of_app. by left.
Qed.

(** The box after one more position, as the loops compute it. *)
Lemma tight_box_step positions width height (k : nat) min_x min_y max_x max_y :
  0 ≤ column_of width k < width → 0 ≤ row_of width k < height →
  (positions = [] → min_x = width ∧ min_y = height ∧ max_x = -1 ∧ max_y = -1) →
  (positions ≠ [] → tight_box positions width (min_x, min_y, max_x, max_y)) →
  tight_box (positions ++ [k]) width
    (if column_of width k <? min_x then column_of width k else min_x,
     if row_of width k <? min_y then row_of width k else min_y,
     if max_x <? column_of width k then column_of width k else max_x,
     if max_y <? row_of width k then row_of width k else max_y).
Proof.
  intros Hx Hy Hnone Hbox.
  destruct (decide (positions = [])) as [->|Hne].
  - destruct (Hnone eq_refl) as (-> & -> & -> & ->).
    destruct (Z.ltb_spec (column_of width k) width); [|lia].
    destruct (Z.ltb_spec (row_of width k) height); [|lia].
    destruct (Z.ltb_spec (-1) (column_of width k)); [|lia].
    destruct (Z.ltb_spec (-1) (row_of width k)); [|lia].
    apply tight_box_first.
  - pose proof (tight_box_snoc _ _ k _ _ _ _ (Hbox Hne)) as Hnext.
    replace (if column_of width k <? min_x then column_of width k else min_x)
      with (Z.min (column_of width k) min_x)
      by (destruct (Z.ltb_spec (column_of width k) min_x); lia).
    replace (if row_of width k <? min_y then row_of width k else min_y)
      with (Z.min (row_of width k) min_y)
      by (destruct (Z.ltb_spec (row_of width k) min_y); lia).
    replace (if max_x <? column_of width k then column_of width k else max_x)
      with (Z.max max_x (column_of width k))
      by (destruct (Z.ltb_spec max_x (column_of width k)); lia).
    replace (if max_y <? row_of width k then row_of width k else max_y)
      with (Z.max max_y (row_of width k))
      by (destruct (Z.ltb_spec max_y (row_of width k)); lia).
    exact Hnext.
Qed.

Lemma count_where_snoc {V : Type} `{EqDecision V} (f : nat → V) positions (k : nat) v :
  count_where f (positions ++ [k]) v
  = count_where f positions v + (if decide (f k = v) then 1 else 0).
Proof.
  unfold count_where. rewrite filter_app, length_app, filter_cons, filter_nil.
  destruct (decide (f k = v)); simpl; lia.
Qed.

Lemma incr_item_spec (l : list Z) i c :
  0 ≤ i → l !! Z.to_nat i = Some c →
  incr_item l i = Ok (<[Z.to_nat i := c + 1]> l).
Proof.
  intros Hi Hl. unfold incr_item. rewrite (item_in_range l i c) by done. simpl.
  apply set_item_in_range. apply lookup_lt_Some in Hl. lia.
Qed.

Lemma tallies_incr counts (f : nat → Z) positions (k : nat) :
  tallies counts f positions → 0 ≤ f k < Z.of_nat (length counts) →
  ∃ counts', incr_item counts (f k) = Ok counts' ∧
             length counts' = length counts ∧
             tallies counts' f (positions ++ [k]).
Proof.
  intros Htal Hk.
  destruct (lookup_lt_is_Some_2 counts (Z.to_nat (f k))) as [c Hc]; [lia|].
  rewrite (incr_item_spec counts (f k) c) by (lia || done).
  eexists. split; [done|]. split; [by rewrite length_insert|].
  intros v c' Hv. rewrite count_where_snoc.
  destruct (decide (v = Z.to_nat (f k))) as [->|Hne].
  - rewrite list_lookup_insert_eq in Hv by (by eapply lookup_lt_Some).
    injection Hv as <-. rewrite (Htal _ _ Hc).
    rewrite decide_True by lia. done.
  - rewrite list_lookup_insert_ne in Hv by done.
    rewrite (Htal _ _ Hv). rewrite decide_False by lia. lia.
Qed.

Lemma tallies_replicate n f : tallies (replicate n 0) f [].
Proof.
  intros v c Hv. apply lookup_replicate in Hv as [-> _]. done.
Qed.

Lemma count_where_nonneg {V : Type} `{EqDecision V} (f : nat → V) positions v :
  0 ≤ count_where f positions v.
Proof. unfold count_where. lia. Qed.

Lemma count_where_zero {V : Type} `{EqDecision V} (f : nat → V) positions v :
  (∀ i, i ∈ positions → f i ≠ v) → count_where f positions v = 0.
Proof.
  intros Hnone. unfold count_where.
  destruct (filter (fun i => f i = v) positions) as [|i l] eqn:Hf; [done|].
  assert (i ∈ filter (fun i => f i = v) positions) as Hi by (rewrite Hf; by left).
  apply list_elem_of_filter in Hi as [Hv Hi]. by destruct (Hnone i Hi).
Qed.

Lemma counter_incr_keys key c :
  map fst (Rgb24.counter_incr key c)
  = if decide (key ∈ map fst c) then map fst c else map fst c ++ [key].
Proof.
  induction c as [|[k n] c IH].
  - destruct (decide (key ∈ map fst [])) as [Hin|_]; [|done].
    by apply elem_of_nil in Hin.
  - cbn [Rgb24.counter_incr].
    destruct (bool_decide_reflect (k = key)) as [->|Hne].
    + destruct (decide (key ∈ map fst ((key, n) :: c))) as [_|Hnot]; [done|].
      destruct Hnot. by left.
    + cbn [map fst]. rewrite IH.
      destruct (decide (key ∈ map fst c)) as [Hin|Hnot].
      * destruct (decide (key ∈ k :: map fst c)) as [_|Hnot]; [done|].
        destruct Hnot. by right.
      * destruct (decide (key ∈ k :: map fst c)) as [Hin|_]; [|done].
        apply elem_of_cons in Hin as [?|?]; [by subst|done].
Qed.

Lemma counter_incr_elem key c d n :
  NoDup (map fst c) →
  (d, n) ∈ Rgb24.counter_incr key c →
  (d ≠ key ∧ (d, n) ∈ c) ∨
  (d = key ∧ (((key ∉ map fst c) ∧ n = 1) ∨ (∃ m, (key, m) ∈ c ∧ n = m + 1))).
Proof.
  induction c as [|[k m] c IH]; simpl; intros Hnd Hin.
  - apply list_elem_of_singleton in Hin as [= -> ->]. right. split; [done|].
    left. split; [|done]. by intros ?%elem_of_nil.
  - apply NoDup_cons in Hnd as [Hk Hnd].
    destruct (bool_decide_reflect (k = key)) as [->|Hne].
    + apply elem_of_cons in Hin as [[= -> ->]|Hin].
      * right. split; [done|]. right. exists m. split; [by left|done].
      * left. split; [|by right]. intros ->. apply Hk.
        apply list_elem_of_fmap. by exists (key, n).
    + apply elem_of_cons in Hin as [[= -> ->]|Hin].
      * left. split; [done|by left].
      * destruct (IH Hnd Hin) as [[Hd Hc]|[-> [[Hnot ->]|(m' & Hm' & ->)]]].
        -- left. split; [done|by right].
        -- right. split; [done|]. left. split; [|done].
           intros [?|?]%elem_of_cons; [by subst|done].
        -- right. split; [done|]. right. exists m'. split; [by right|done].
Qed.

Lemma counter_of_incr c (f : nat → Z * Z * Z) positions (k : nat) :
  counter_of c f positions →
  counter_of (Rgb24.counter_incr (f k) c) f (positions ++ [k]).
Proof.
  intros (Hnd & Hkeys & Hcounts). split_and!.
  - rewrite counter_incr_keys. destruct (decide (f k ∈ map fst c)); [done|].
    apply NoDup_app. split; [done|]. split; [|apply NoDup_singleton].
    intros d Hd Hk. apply list_elem_of_singleton in Hk as ->. done.
  - intros i Hi. rewrite counter_incr_keys.
    apply elem_of_app in Hi as [Hi|Hi]; [|apply list_elem_of_singleton in Hi as ->].
    + specialize (Hkeys i Hi). destruct (decide (f k ∈ map fst c)); [done|].
      apply elem_of_app. by left.
    + destruct (decide (f k ∈ map fst c)); [done|]. apply elem_of_app. right. by left.
  - intros d n Hin. rewrite count_where_snoc.
    apply (counter_incr_elem _ _ _ _ Hnd) in Hin
      as [[Hd Hc]|[-> [[Hnot ->]|(m & Hm & ->)]]].
    + destruct (Hcounts d n Hc) as [Hpos ->]. rewrite decide_False by congruence.
      split; lia.
    + rewrite decide_True by done. rewrite count_where_zero; [lia|].
      intros i Hi Heq. apply Hnot. rewrite <- Heq. by apply Hkeys.
    + destruct (Hcounts _ m Hm) as [Hpos ->]. rewrite decide_True by done. lia.
Qed.

Lemma delta_of_observed a b (i : nat) ra ga ba rb gb bb :
  observed_rgb a i = Some (ra, ga, ba) → observed_rgb b i = Some (rb, gb, bb) →
  delta_of a b i = (rb - ra, gb - ga, bb - ba).
Proof. intros Ha Hb. unfold delta_of. by rewrite Ha, Hb. Qed.

(** One turn of the pixel loop, at pixel [k] of a picture that has it. *)
Lemma diff_step_state a b width height (k : nat) s pa pb :
  0 < width → 0 ≤ height → Z.of_nat k < width * height →
  observed_rgb a k = Some pa → observed_rgb b k = Some pb →
  frame_diff_state a b width height k s →
  ∃ s', diff_step width s (Z.of_nat k, Ok (pa, pb)) = Ok s' ∧
        frame_diff_state a b width height (S k) s'.
Proof.
  intros Hw Hh Hk Hoa Hob
    (Hrows & Hcols & Hcnt & Hsum & Hr & Hg & Hb & Hnone & Hbox & Htr & Htc & Hctr).
  destruct pa as [[ra ga] ba], pb as [[rb gb] bb].
  destruct (abs_delta_observed a b k _ _ _ _ _ _ Hoa Hob) as (Hdr & Hdg & Hdb).
  unfold diff_step. simpl.
  destruct ((rb - ra =? 0) && (gb - ga =? 0) && (bb - ba =? 0)) eqn:Hsame.
  - apply andb_true_iff in Hsame as [[Hr0 Hg0]%andb_true_iff Hb0].
    apply Z.eqb_eq in Hr0, Hg0, Hb0.
    assert (¬ pixel_differs a b k) as Hnd.
    { unfold pixel_differs. rewrite Hoa, Hob. intros Hne. apply Hne.
      do 3 f_equal; lia. }
    exists s. split; [done|].
    unfold frame_diff_state.
    rewrite differing_pixels_S, decide_False, app_nil_r by done.
    rewrite !total_abs_delta_S, Hdr, Hdg, Hdb, Hr0, Hg0, Hb0. simpl. rewrite !Z.add_0_r.
    split_and!; try done.
    + apply greatest_abs_delta_zero; [done|]. rewrite Hdr, Hr0. done.
    + apply greatest_abs_delta_zero; [done|]. rewrite Hdg, Hg0. done.
    + apply greatest_abs_delta_zero; [done|]. rewrite Hdb, Hb0. done.
  - assert (pixel_differs a b k) as Hd.
    { unfold pixel_differs. rewrite Hoa, Hob. intros [= -> -> ->].
      rewrite !Z.sub_diag in Hsame. done. }
    destruct (a_sum_abs s) as [[sr sg] sb] eqn:Hs.
    destruct (a_max_abs s) as [[mr mg] mb] eqn:Hmax.
    unfold divmod. destruct (Z.eqb_spec width 0); [lia|]. simpl.
    assert (0 ≤ column_of width k < width) as Hx by (apply Z.mod_pos_bound; lia).
    assert (0 ≤ row_of width k < height) as Hy.
    { split; [apply Z.div_pos; lia|]. apply Z.div_lt_upper_bound; lia. }
    destruct (tallies_incr _ _ _ k Htr) as (rows & Hrun_r & Hlen_r & Htr');
      [rewrite Hrows; lia|].
    destruct (tallies_incr _ _ _ k Htc) as (cols & Hrun_c & Hlen_c & Htc');
      [rewrite Hcols; lia|].
    unfold row_of in Hrun_r. unfold column_of in Hrun_c.
    rewrite Hrun_r. simpl. rewrite Hrun_c. simpl.
    eexists. split; [done|].
    unfold frame_diff_state. simpl.
    rewrite differing_pixels_S, decide_True, length_app by done.
    rewrite !total_abs_delta_S, Hdr, Hdg, Hdb. injection Hsum as -> -> ->.
    simpl in Hr, Hg, Hb.
    split_and!; [lia|lia|simpl; lia|done| | | | | |done|done|].
    + apply greatest_abs_delta_S in Hr. rewrite Hdr in Hr.
      by destruct (Z.ltb_spec mr (Z.abs (rb - ra)));
        [rewrite Z.max_r in Hr by lia|rewrite Z.max_l in Hr by lia].
    + apply greatest_abs_delta_S in Hg. rewrite Hdg in Hg.
      by destruct (Z.ltb_spec mg (Z.abs (gb - ga)));
        [rewrite Z.max_r in Hg by lia|rewrite Z.max_l in Hg by lia].
    + apply greatest_abs_delta_S in Hb. rewrite Hdb in Hb.
      by destruct (Z.ltb_spec mb (Z.abs (bb - ba)));
        [rewrite Z.max_r in Hb by lia|rewrite Z.max_l in Hb by lia].
    + intros Hnil. by apply app_eq_nil in Hnil as [_ ?].
    + intros _. by apply (tight_box_step _ width height k).
    + rewrite <- (delta_of_observed a b k _ _ _ _ _ _ Hoa Hob).
      by apply counter_of_incr.
Qed.

End FrameDiffSpec.

Section FrameDiffLoop.

Import Rgb24.

Lemma frame_diff_loop (a b : bytes) width height :
  0 ≤ width → 0 ≤ height →
  Z.of_nat (length a) = width * height * 3 → length b = length a →
  ∃ s,
    for_each (diff_step width)
             (enumerate (zip_pixels (iter_pixels a) (iter_pixels b)))
             {| a_pixels_diff := 0; a_sum_abs := (0, 0, 0); a_max_abs := (0, 0, 0);
                a_delta_counts := [];
                a_row_counts := replicate (Z.to_nat height) 0;
                a_col_counts := replicate (Z.to_nat width) 0;
                a_min_x := width; a_min_y := height; a_max_x := -1; a_max_y := -1 |}
    = Ok s ∧
    frame_diff_state a b width height (Z.to_nat (width * height)) s.
Proof.
  intros Hw Hh Hla Hlb.
  set (n := Z.to_nat (width * height)).
  assert (length a = 3 * n)%nat as Ha by lia.
  assert (length b = 3 * n)%nat as Hb by lia.
  destruct (iter_pixels_yields n a Ha) as [Hna Hya].
  destruct (iter_pixels_yields n b Hb) as [Hnb Hyb].
  destruct (zip_pixels_yields _ _ Hya Hyb) as [Hnz _].
  rewrite Hna, Hnb, Nat.min_id in Hnz.
  match goal with
  | |- ∃ _, for_each ?body ?xs ?init = _ ∧ _ =>
      destruct (for_each_total body
                  (fun seen s => frame_diff_state a b width height (length seen) s)
                  xs init) as (s & Hrun & Hstate)
  end.
  - unfold frame_diff_state. simpl. rewrite !length_replicate.
    split_and!; try done.
    + split_and!; [done| |by left]. intros i Hi. lia.
    + split_and!; [done| |by left]. intros i Hi. lia.
    + split_and!; [done| |by left]. intros i Hi. lia.
    + apply tallies_replicate.
    + apply tallies_replicate.
    + split_and!; [constructor| |].
      * intros i Hi. by apply elem_of_nil in Hi.
      * intros d m Hin. by apply elem_of_nil in Hin.
  - intros seen it rest s Heq Hstate.
    destruct (enumerate_middle _ _ _ _ Heq) as [Hidx Hit].
    assert (length seen < n)%nat as Hseen.
    { rewrite <- Hnz. by apply lookup_lt_Some in Hit. }
    destruct it as [idx px]. simpl in Hidx, Hit. subst idx.
    destruct (zipped_pixel a b n (length seen) Ha Hb Hseen) as (pa & pb & Hoa & Hob & Hz).
    rewrite Hz in Hit. injection Hit as <-.
    rewrite length_app. simpl. replace (length seen + 1)%nat with (S (length seen)) by lia.
    apply diff_step_state; [subst n; nia|done|subst n; lia|done..].
  - exists s. split; [done|].
    unfold enumerate in Hstate. by rewrite length_imap, Hnz in Hstate.
Qed.

(** The final state of the loop, for a run that returned. *)
Lemma compute_frame_diff_state frame (a b : bytes) width height stats :
  0 ≤ width → 0 ≤ height →
  Z.of_nat (length a) = width * height * 3 → length b = length a →
  compute_frame_diff frame a b width height = Ok stats →
  ∃ s, frame_diff_state a b width height (Z.to_nat (width * height)) s ∧
       pixels_diff stats = a_pixels_diff s ∧
       (max_abs_r stats, max_abs_g stats, max_abs_b stats) = a_max_abs s ∧
       bbox stats
       = (if a_pixels_diff s =? 0 then None
          else Some (a_min_x s, a_min_y s, a_max_x s, a_max_y s)) ∧
       (a_pixels_diff s ≠ 0 →
        (mean_abs_r stats, mean_abs_g stats, mean_abs_b stats)
        = (quot (a_sum_abs s).1.1 (a_pixels_diff s),
           quot (a_sum_abs s).1.2 (a_pixels_diff s),
           quot (a_sum_abs s).2 (a_pixels_diff s))) ∧
       top_deltas stats = most_common_ten (a_delta_counts s) ∧
       top_rows stats = top_ten (a_row_counts s) ∧
       top_cols stats = top_ten (a_col_counts s).
Proof.
  intros Hw Hh Hla Hlb.
  destruct (frame_diff_loop a b width height Hw Hh Hla Hlb) as (s & Hrun & Hstate).
  unfold compute_frame_diff. rewrite Hrun. simpl.
  destruct (a_sum_abs s) as [[sr sg] sb] eqn:Hsum.
  destruct (a_max_abs s) as [[mr mg] mb] eqn:Hmax.
  destruct (Z.eqb_spec (a_pixels_diff s) 0) as [H0|Hne];
    intros [= <-]; exists s; rewrite Hsum, Hmax; simpl; split_and!; try done.
  - by rewrite (proj2 (Z.eqb_eq _ _) H0).
  - by rewrite (proj2 (Z.eqb_neq _ _) Hne).
Qed.

End FrameDiffLoop.







(** * Further properties: the report of [diff_rgb24_frames] *)

Section Rgb24Report.

Import Rgb24.

Lemma compute_frame_diff_header frame a b width height stats :
  compute_frame_diff frame a b width height = Ok stats →
  Rgb24.frame stats = frame ∧ pixels_total stats = width * height.
Proof.
  unfold compute_frame_diff. intros H.
  match type of H with
  | (for_each ?body ?xs ?init ≫= _) = _ =>
      destruct (for_each body xs init) as [s|]; [simpl in H|done]
  end.
  destruct (a_sum_abs s) as [[sr sg] sb], (a_max_abs s) as [[mr mg] mb].
  destruct (a_pixels_diff s =? 0); by injection H as <-.
Qed.

Lemma frame_stats_header fs args expected frame stats :
  frame_stats fs args expected frame = Ok stats →
  Rgb24.frame stats = frame ∧ pixels_total stats = width args * height args.
Proof.
  unfold frame_stats. intros H.
  destruct (negb _); [done|]. destruct (negb _); [done|].
  destruct (read_rgb24 fs (dump_path (mesen_prefix args) frame ".rgb24") expected)
    as [m|]; [simpl in H|done].
  destruct (read_rgb24 fs (dump_path (nesium_prefix args) frame ".rgb24") expected)
    as [n|]; [simpl in H|done].
  by apply compute_frame_diff_header in H.
Qed.

Lemma frames_loop_returns fs args expected frames :
  ∀ all_stats printed stats',
    frames_loop fs args expected frames all_stats = (printed, Ok stats') →
    ∃ new, stats' = all_stats ++ new ∧ printed = map PStats new ∧
           Forall2 (fun frame stats => frame_stats fs args expected frame = Ok stats)
                   frames new.
Proof.
  induction frames as [|frame frames IH]; intros all_stats printed stats' H; simpl in H.
  - injection H as <- <-. exists []. by rewrite app_nil_r.
  - destruct (frame_stats fs args expected frame) as [stats|] eqn:Hstats; [|done].
    destruct (frames_loop fs args expected frames (all_stats ++ [stats]))
      as [printed1 r] eqn:Hrest.
    injection H as <- ->.
    destruct (IH _ _ _ Hrest) as (new & -> & -> & Hall).
    exists (stats :: new). split_and!; [by rewrite <- (assoc_L _ all_stats)|done|].
    by constructor.
Qed.

Lemma sum_of_foldr f l : sum_of f l = foldr Z.add 0 (map f l).
Proof.
  unfold sum_of.
  enough (∀ acc, foldl (fun n s => n + f s) acc l = acc + foldr Z.add 0 (map f l))
    as H by (rewrite H; lia).
  induction l as [|x l IH]; intros acc; simpl; [lia|]. rewrite IH. lia.
Qed.

Lemma sum_of_constant f l c :
  Forall (fun s => f s = c) l → sum_of f l = Z.of_nat (length l) * c.
Proof.
  intros Hall. rewrite sum_of_foldr.
  induction Hall as [|x l Hx _ IH]; simpl; [lia|]. rewrite IH, Hx. lia.
Qed.

End Rgb24Report.



(** * Further properties: the rankings of [compute_frame_diff] *)

Section InsertionSort.

Context {A : Type} (before : A → A → bool).

Let le (x y : A) : Prop := before y x = false.

Hypothesis before_asym : ∀ x y, before x y = true → before y x = false.

Hypothesis le_trans : ∀ x y z, le x y → le y z → le x z.

Lemma insert_sorted_sorted x l :
  StronglySorted le l → StronglySorted le (insert_sorted before x l).
Proof.
  intros Hs. induction Hs as [|y l Hs IH Hy]; simpl.
  - repeat constructor.
  - destruct (before x y) eqn:Hxy.
    + constructor; [by constructor|]. constructor; [by apply before_asym|].
      eapply Forall_impl; [exact Hy|]. intros z Hz.
      eapply le_trans; [|exact Hz]. by apply before_asym.
    + constructor; [done|]. apply Forall_forall. intros z Hz.
      rewrite (insert_sorted_perm before x l) in Hz.
      apply elem_of_cons in Hz as [->|Hz]; [done|].
      by apply (proj1 (Forall_forall _ _) Hy).
Qed.

Lemma sorted_sorted l : StronglySorted le (sorted before l).
Proof.
  unfold sorted.
  enough (∀ acc, StronglySorted le acc →
                 StronglySorted le (foldl (fun acc x => insert_sorted before x acc) acc l))
    as H by (apply H; constructor).
  induction l as [|x l IH]; intros acc Hacc; simpl; [done|].
  by apply IH, insert_sorted_sorted.
Qed.

Lemma strongly_sorted_lookup l (i j : nat) p q :
  StronglySorted le l → l !! i = Some p → l !! j = Some q → (i < j)%nat → le p q.
Proof.
  intros Hs. revert i j. induction Hs as [|y l Hs IH Hy]; intros i j Hi Hj Hij.
  - by rewrite lookup_nil in Hi.
  - destruct j as [|j]; [lia|]. simpl in Hj. destruct i as [|i].
    + injection Hi as <-. apply (proj1 (Forall_forall _ _) Hy).
      by eapply list_elem_of_lookup_2.
    + simpl in Hi. apply (IH i j); [done..|lia].
Qed.

End InsertionSort.

Section TopTen.

Import Rgb24.

Lemma ranking_sorted (l : list (Z * Z)) :
  ranked (sorted (fun p q : Z * Z =>
                    (q.2 <? p.2) || ((p.2 =? q.2) && (p.1 <? q.1))) l).
Proof.
  set (before := fun p q : Z * Z => (q.2 <? p.2) || ((p.2 =? q.2) && (p.1 <? q.1))).
  assert (∀ x y, before x y = true → before y x = false) as Hasym.
  { intros x y. unfold before.
    destruct (Z.ltb_spec y.2 x.2), (Z.ltb_spec x.2 y.2),
      (Z.eqb_spec x.2 y.2), (Z.eqb_spec y.2 x.2),
      (Z.ltb_spec x.1 y.1), (Z.ltb_spec y.1 x.1); simpl; (done || lia). }
  assert (∀ x y z, before y x = false → before z y = false → before z x = false)
    as Htrans.
  { intros x y z. unfold before.
    destruct (Z.ltb_spec x.2 y.2), (Z.eqb_spec y.2 x.2), (Z.ltb_spec y.1 x.1),
      (Z.ltb_spec y.2 z.2), (Z.eqb_spec z.2 y.2), (Z.ltb_spec z.1 y.1),
      (Z.ltb_spec x.2 z.2), (Z.eqb_spec z.2 x.2), (Z.ltb_spec z.1 x.1);
      simpl; (done || lia). }
  pose proof (sorted_sorted before Hasym Htrans l) as Hs.
  intros i j p q Hi Hj Hij.
  pose proof (strongly_sorted_lookup before _ i j p q Hs Hi Hj Hij) as Hle.
  unfold before in Hle.
  destruct (Z.ltb_spec p.2 q.2); simpl in Hle; [done|].
  destruct (Z.eqb_spec q.2 p.2); simpl in Hle; [|lia].
  destruct (Z.ltb_spec q.1 p.1); [done|]. lia.
Qed.

Lemma ranked_take (n : nat) l : ranked l → ranked (take n l).
Proof.
  intros Hr i j p q Hi Hj Hij.
  apply lookup_take_Some in Hi as [Hi _]. apply lookup_take_Some in Hj as [Hj _].
  by apply (Hr i j).
Qed.

Lemma elem_of_nonzero_counts (counts : list Z) v c :
  (v, c) ∈ filter (fun p : Z * Z => 0 < p.2) (enumerate counts) ↔
  0 < c ∧ 0 ≤ v ∧ counts !! Z.to_nat v = Some c.
Proof.
  rewrite list_elem_of_filter. unfold enumerate. rewrite elem_of_lookup_imap. simpl.
  split.
  - intros (Hc & i & y & [= -> ->] & Hi). rewrite Nat2Z.id. split_and!; [done|lia|done].
  - intros (Hc & Hv & Hl). split; [done|]. exists (Z.to_nat v), c.
    split; [|done]. f_equal. lia.
Qed.

(** The best [limit] of a table of counts that tallies [positions]. *)
Lemma best_of_counts (counts : list Z) (limit : nat) (f : nat → Z) positions size :
  Z.of_nat (length counts) = size → tallies counts f positions →
  best_of (take limit
             (sorted (fun p q : Z * Z =>
                        (q.2 <? p.2) || ((p.2 =? q.2) && (p.1 <? q.1)))
                     (filter (fun p : Z * Z => 0 < p.2) (enumerate counts))))
          limit f positions size.
Proof.
  intros Hsize Htal.
  set (full := sorted _ _).
  assert (∀ v c, (v, c) ∈ full ↔ 0 < c ∧ 0 ≤ v ∧ counts !! Z.to_nat v = Some c)
    as Hfull.
  { intros v c. unfold full. rewrite (sorted_perm _ _). apply elem_of_nonzero_counts. }
  assert (ranked full) as Hranked by apply ranking_sorted.
  split_and!.
  - by apply ranked_take.
  - rewrite length_take. lia.
  - intros v c Hin. apply list_elem_of_lookup in Hin as [i Hi].
    apply lookup_take_Some in Hi as [Hi _].
    apply list_elem_of_lookup_2, Hfull in Hi as (Hc & Hv & Hl).
    pose proof (lookup_lt_Some _ _ _ Hl).
    split_and!; [done|lia|done|].
    rewrite (Htal _ _ Hl). f_equal. lia.
  - intros v Hv Hpos.
    destruct (lookup_lt_is_Some_2 counts (Z.to_nat v)) as [c Hc]; [lia|].
    pose proof (Htal _ _ Hc) as Hcv. rewrite Z2Nat.id in Hcv by lia. subst c.
    assert ((v, count_where f positions v) ∈ full) as Hin.
    { apply Hfull. split_and!; [done|lia|done]. }
    apply list_elem_of_lookup in Hin as [i Hi].
    destruct (decide (i < limit)%nat) as [Hlt|Hge].
    + left. apply (list_elem_of_lookup_2 _ i). by apply lookup_take_Some.
    + right. pose proof (lookup_lt_Some _ _ _ Hi). split.
      * rewrite length_take. lia.
      * intros w c Hw. apply list_elem_of_lookup in Hw as [j Hj].
        apply lookup_take_Some in Hj as [Hj Hjl].
        destruct (Hranked j i _ _ Hj Hi) as [?|[? _]]; simpl in *; lia.
Qed.

End TopTen.



Section MostCommon.

Import Rgb24.

Lemma most_frequent_counter (c : list ((Z * Z * Z) * Z)) (limit : nat) f positions :
  counter_of c f positions →
  most_frequent (take limit (sorted (fun p q : (Z * Z * Z) * Z => q.2 <? p.2) c))
                limit f positions.
Proof.
  intros (Hnd & Hkeys & Hcounts).
  set (before := fun p q : (Z * Z * Z) * Z => q.2 <? p.2).
  set (full := sorted before c).
  assert (full ≡ₚ c) as Hperm by apply sorted_perm.
  assert (StronglySorted (fun x y => before y x = false) full) as Hs.
  { apply sorted_sorted.
    - intros x y. unfold before. destruct (Z.ltb_spec y.2 x.2), (Z.ltb_spec x.2 y.2);
        (done || lia).
    - intros x y z. unfold before.
      destruct (Z.ltb_spec x.2 y.2), (Z.ltb_spec y.2 z.2), (Z.ltb_spec x.2 z.2);
        (done || lia). }
  assert (∀ (i j : nat) p q, full !! i = Some p → full !! j = Some q → (i < j)%nat →
                             q.2 ≤ p.2) as Hfall.
  { intros i j p q Hi Hj Hij.
    pose proof (strongly_sorted_lookup before _ i j p q Hs Hi Hj Hij) as Hle.
    unfold before in Hle. by destruct (Z.ltb_spec p.2 q.2). }
  split_and!.
  - intros i j p q Hi Hj Hij.
    apply lookup_take_Some in Hi as [Hi _]. apply lookup_take_Some in Hj as [Hj _].
    by apply (Hfall i j).
  - rewrite length_take. lia.
  - change (map fst (take limit full)) with (fst <$> take limit full).
    rewrite fmap_take. apply (sublist_NoDup (take limit (fst <$> full)) (fst <$> full)).
    + by rewrite Hperm.
    + apply sublist_take.
  - intros d n Hin. apply Hcounts. rewrite <- Hperm.
    eapply list_elem_of_lookup in Hin as [i Hi].
    apply lookup_take_Some in Hi as [Hi _]. by eapply list_elem_of_lookup_2.
  - intros i Hi. specialize (Hkeys i Hi).
    apply list_elem_of_fmap in Hkeys as ([d n] & Hd & Hin). simpl in Hd. subst d.
    destruct (Hcounts _ _ Hin) as [_ ->].
    rewrite <- Hperm in Hin. apply list_elem_of_lookup in Hin as [k Hk].
    destruct (decide (k < limit)%nat) as [Hlt|Hge].
    + left. apply (list_elem_of_lookup_2 _ k). by apply lookup_take_Some.
    + right. pose proof (lookup_lt_Some _ _ _ Hk). split.
      * rewrite length_take. lia.
      * intros d n Hw. apply list_elem_of_lookup in Hw as [j Hj].
        apply lookup_take_Some in Hj as [Hj Hjl].
        apply (Hfall j k _ _ Hj Hk). lia.
Qed.

End MostCommon.



(** * Further properties: the mask report *)

Section MaskDiffSpec.

Import MaskDiff.

Lemma range_lookup_0 (total : Z) (k : nat) :
  Z.of_nat k < total → range 0 total !! k = Some (Z.of_nat k).
Proof.
  intros Hk. unfold range. rewrite list_lookup_fmap, lookup_seq_lt by lia.
  simpl. f_equal; lia.
Qed.

Lemma range_middle_0 total seen (i : Z) rest :
  range 0 total = seen ++ i :: rest → i = Z.of_nat (length seen) ∧ i < total.
Proof.
  intros Heq.
  assert (range 0 total !! length seen = Some i) as Hl
    by (rewrite Heq; by apply list_lookup_middle).
  pose proof (lookup_lt_Some _ _ _ Hl) as Hlt. rewrite range_length in Hlt.
  rewrite range_lookup_0 in Hl by lia. injection Hl as <-. lia.
Qed.

Lemma differing_bits_S a b k :
  differing_bits a b (S k)
  = differing_bits a b k ++ (if decide (bit_differs a b k) then [k] else []).
Proof.
  unfold differing_bits. rewrite seq_S, filter_app. by rewrite filter_cons, filter_nil.
Qed.

Lemma differing_bits_lt a b n i : i ∈ differing_bits a b n → (i < n)%nat.
Proof.
  unfold differing_bits. intros [_ Hi]%list_elem_of_filter.
  apply elem_of_seq in Hi. lia.
Qed.

(** The comprehension that collects the differing positions. *)
Lemma diff_positions_spec (a b : bytes) total pixels_a pixels_b :
  length pixels_a = Z.to_nat total → length pixels_b = Z.to_nat total →
  (∀ i : nat, (i < length pixels_a)%nat → pixels_a !! i = Some (mask_bit a i)) →
  (∀ i : nat, (i < length pixels_b)%nat → pixels_b !! i = Some (mask_bit b i)) →
  diff_positions total pixels_a pixels_b
  = Ok (map Z.of_nat (differing_bits a b (Z.to_nat total))).
Proof.
  intros Hla Hlb Hpa Hpb. unfold diff_positions.
  match goal with
  | |- for_each ?body ?xs ?init = _ =>
      destruct (for_each_total body
                  (fun seen found =>
                     found = map Z.of_nat (differing_bits a b (length seen)))
                  xs init) as (found & Hrun & Hfound)
  end.
  - done.
  - intros seen i rest found Heq ->.
    destruct (range_middle_0 _ _ _ _ Heq) as [-> Hi].
    rewrite (item_in_range pixels_a _ (mask_bit a (length seen)));
      [|lia|rewrite Nat2Z.id; apply Hpa; lia]. simpl.
    rewrite (item_in_range pixels_b _ (mask_bit b (length seen)));
      [|lia|rewrite Nat2Z.id; apply Hpb; lia]. simpl.
    rewrite length_app. simpl. replace (length seen + 1)%nat with (S (length seen)) by lia.
    rewrite differing_bits_S, map_app.
    destruct (Z.eqb_spec (mask_bit a (length seen)) (mask_bit b (length seen)))
      as [Heqb|Hneb]; simpl.
    + eexists. split; [done|]. rewrite decide_False by (by intros ?).
      by rewrite app_nil_r.
    + eexists. split; [done|]. by rewrite decide_True.
  - rewrite Hrun, Hfound. by rewrite range_length, Z.sub_0_r.
Qed.

Lemma box_step_state width height positions (k : nat) s :
  0 < width → 0 ≤ height → Z.of_nat k < width * height →
  box_state width height positions s →
  ∃ s', box_step width s (Z.of_nat k) = Ok s' ∧
        box_state width height (positions ++ [k]) s'.
Proof.
  intros Hw Hh Hk (Hrows & Htal & Hnone & Hbox).
  assert (0 ≤ column_of width k < width) as Hx by (apply Z.mod_pos_bound; lia).
  assert (0 ≤ row_of width k < height) as Hy.
  { split; [apply Z.div_pos; lia|]. apply Z.div_lt_upper_bound; lia. }
  unfold box_step, divmod. destruct (Z.eqb_spec width 0); [lia|]. simpl.
  destruct (tallies_incr _ _ _ k Htal) as (rows & Hrun & Hlen & Htal');
    [rewrite Hrows; lia|].
  unfold row_of in Hrun. rewrite Hrun. simpl.
  eexists. split; [done|]. unfold box_state. simpl. split_and!.
  - lia.
  - done.
  - intros Hnil. by apply app_eq_nil in Hnil as [_ ?].
  - intros _.
    pose proof (tight_box_step positions width height k _ _ _ _ Hx Hy Hnone Hbox)
      as Hnext.
    unfold tight_box in *. unfold column_of, row_of in *.
    destruct Hnext as (H1 & H2 & H3 & H4 & H5). split_and!; done.
Qed.

Lemma box_loop_state width height (positions : list nat) :
  0 ≤ width → 0 ≤ height →
  (∀ i, i ∈ positions → Z.of_nat i < width * height) →
  ∃ s, for_each (box_step width) (map Z.of_nat positions)
                {| min_x := width; max_x := -1; min_y := height; max_y := -1;
                   row_counts := replicate (Z.to_nat height) 0 |} = Ok s ∧
       box_state width height positions s.
Proof.
  intros Hw Hh Hall.
  enough (∀ todo visited s,
            (∀ i, i ∈ todo → Z.of_nat i < width * height) →
            box_state width height visited s →
            ∃ s', for_each (box_step width) (map Z.of_nat todo) s = Ok s' ∧
                  box_state width height (visited ++ todo) s') as Hloop.
  { apply (Hloop positions []); [done|].
    split_and!; [simpl; by rewrite length_replicate|apply tallies_replicate|done|done]. }
  induction todo as [|k todo IH]; intros visited s Htodo Hstate.
  - exists s. by rewrite app_nil_r.
  - assert (Z.of_nat k < width * height) as Hk by (apply Htodo; by left).
    destruct (box_step_state width height visited k s) as (s1 & Hstep & Hstate1);
      [nia|done..|].
    simpl. rewrite Hstep. simpl.
    destruct (IH (visited ++ [k]) s1) as (s' & Hrun & Hstate'); [|done|].
    { intros i Hi. apply Htodo. by right. }
    exists s'. split; [done|]. by rewrite <- (assoc_L _ visited) in Hstate'.
Qed.

Lemma nonzero_counts_length (counts : list Z) (g : nat → Z) :
  (∀ (y : nat) c, counts !! y = Some c → c = g y) →
  length (filter (fun p : Z * Z => 0 < p.2) (Rgb24.enumerate counts))
  = length (filter (fun y : nat => 0 < g y) (seq 0 (length counts))).
Proof.
  induction counts as [|x counts IH] using rev_ind; intros Hg; [done|].
  unfold Rgb24.enumerate in *. rewrite imap_app, length_app, seq_app, !filter_app.
  simpl. rewrite !length_app, IH; cycle 1.
  { intros y c Hy. apply Hg. by apply lookup_app_l_Some. }
  f_equal. rewrite !filter_cons, !filter_nil. simpl. rewrite Nat.add_0_r.
  rewrite <- (Hg (length counts) x) by (by apply list_lookup_middle).
  by destruct (decide (0 < x)).
Qed.

End MaskDiffSpec.



(** * Further properties: the emphasis model *)

Section Emphasis.

Import PaletteDiff.

Lemma components_ok : forallb component_ok (range 0 256) = true.
Proof. vm_compute. reflexivity. Qed.

Lemma component_facts c :
  0 ≤ c ≤ 255 →
  ∃ f, PyFloat.of_int c = Ok f ∧
       clamp_u8 f = Ok (attenuated c 0) ∧
       clamp_u8 (PrimFloat.mul f attenuation) = Ok (attenuated c 1) ∧
       clamp_u8 (PrimFloat.mul (PrimFloat.mul f attenuation) attenuation)
       = Ok (attenuated c 2).
Proof.
  intros Hc.
  assert (component_ok c = true) as H.
  { apply Is_true_true.
    apply (proj1 (Forall_forall _ _)
             (proj1 (forallb_True component_ok (range 0 256))
                    (proj2 (Is_true_true _) components_ok))).
    apply elem_of_range. lia. }
  unfold component_ok in H. destruct (PyFloat.of_int c) as [f|]; [|done].
  apply andb_prop in H as [H H2]. apply andb_prop in H as [H0 H1].
  apply bool_decide_eq_true_1 in H0, H1, H2. by exists f.
Qed.

Lemma attenuated_le c k : 0 ≤ c → 0 ≤ k → 0 ≤ attenuated c k ≤ c.
Proof.
  intros Hc Hk. unfold attenuated.
  assert (0 < 84 ^ k ≤ 100 ^ k) as [H1 H2].
  { split; [by apply Z.pow_pos_nonneg|]. apply Z.pow_le_mono_l. lia. }
  split.
  - apply Z.div_pos; [|lia]. apply Z.mul_nonneg_nonneg; lia.
  - apply Z.div_le_upper_bound; [lia|]. rewrite (Z.mul_comm (100 ^ k)).
    apply Z.mul_le_mono_nonneg_l; lia.
Qed.

Lemma emphasis_low_bits emphasis i :
  0 ≤ i < 3 → Z.testbit (Z.land emphasis 7) i = Z.testbit emphasis i.
Proof.
  intros Hi. change 7 with (Z.ones 3). rewrite Z.land_ones by lia.
  apply Z.mod_pow2_bits_low. lia.
Qed.

Lemma emphasis_range emphasis : 0 ≤ Z.land emphasis 7 < 8.
Proof.
  change 7 with (Z.ones 3). rewrite Z.land_ones by lia.
  apply Z.mod_pos_bound. lia.
Qed.

Lemma apply_emphasis_value r g b color_index emphasis :
  0 ≤ r ≤ 255 → 0 ≤ g ≤ 255 → 0 ≤ b ≤ 255 →
  Z.land emphasis 7 ≠ 0 → Z.land color_index 15 ≤ 13 →
  apply_emphasis (r, g, b) color_index emphasis
  = Ok (attenuated r (dimmings emphasis 1 2),
        attenuated g (dimmings emphasis 0 2),
        attenuated b (dimmings emphasis 0 1)).
Proof.
  intros Hr Hg Hb He Hc.
  destruct (component_facts r Hr) as (fr & Hfr & Hr0 & Hr1 & Hr2).
  destruct (component_facts g Hg) as (fg & Hfg & Hg0 & Hg1 & Hg2).
  destruct (component_facts b Hb) as (fb & Hfb & Hb0 & Hb1 & Hb2).
  unfold dimmings.
  rewrite <- (emphasis_low_bits emphasis 0), <- (emphasis_low_bits emphasis 1),
    <- (emphasis_low_bits emphasis 2) by lia.
  unfold apply_emphasis. cbn [fst snd].
  rewrite Hfr, Hfg, Hfb.
  destruct (Z.ltb_spec 13 (Z.land color_index 15)) as [|_]; [lia|].
  pose proof (emphasis_range emphasis) as Hrange.
  destruct (Z.land emphasis 7) as [|p|p]; [done| |lia].
  assert (p = 1 ∨ p = 2 ∨ p = 3 ∨ p = 4 ∨ p = 5 ∨ p = 6 ∨ p = 7)%positive
    as Hp by lia.
  destruct Hp as [->|[->|[->|[->|[->|[->| ->]]]]]];
    repeat match goal with
           | |- context [negb (Z.land ?a ?m =? 0)] =>
               let v := eval vm_compute in (negb (Z.land a m =? 0)) in
               change (negb (Z.land a m =? 0)) with v
           | |- context [Z.b2z (Z.testbit ?a ?i) + Z.b2z (Z.testbit ?a ?j)] =>
               let v := eval vm_compute in
                          (Z.b2z (Z.testbit a i) + Z.b2z (Z.testbit a j)) in
               change (Z.b2z (Z.testbit a i) + Z.b2z (Z.testbit a j)) with v
           end;
    unfold mbind, result_bind; cbv beta iota zeta delta [Z.eqb orb];
    rewrite ?Hr0, ?Hr1, ?Hr2; cbv beta iota;
    rewrite ?Hg0, ?Hg1, ?Hg2; cbv beta iota;
    rewrite ?Hb0, ?Hb1, ?Hb2; reflexivity.
Qed.

End Emphasis.



(** * Further properties: the reverse palette map *)

Section ForEachSplit.

Context {A S : Type} (body : S → A → result S).

(** As [for_each_visited], the step knowing where the loop stands. *)
Lemma for_each_visited_at (P : list A → S → Prop) xs s0 s :
  P [] s0 →
  (∀ seen x rest s s', xs = seen ++ x :: rest → P seen s → body s x = Ok s' →
                       P (seen ++ [x]) s') →
  for_each body xs s0 = Ok s → P xs s.
Proof.
  intros H0 Hstep.
  enough (∀ rest seen s1, xs = seen ++ rest → P seen s1 →
            for_each body rest s1 = Ok s → P xs s)
    as H by (exact (H xs [] s0 eq_refl H0)).
  induction rest as [|x rest IH]; intros seen s1 Hxs HP Hrun; simpl in Hrun.
  - rewrite app_nil_r in Hxs. subst. by injection Hrun as <-.
  - destruct (body s1 x) as [s'|e] eqn:Hb; simpl in Hrun; [|done].
    apply (IH (seen ++ [x]) s'); [|by eapply Hstep|done].
    by rewrite <- (assoc_L _ seen [x] rest).
Qed.

End ForEachSplit.

Section InverseCandidates.

Import PaletteDiff.

Lemma NoDup_range lo hi : NoDup (range lo hi).
Proof.
  unfold range. apply NoDup_fmap_2; [|apply NoDup_seq].
  intros a b Hab. lia.
Qed.

Lemma candidates_inv_append pairs inverse rgb idx emph :
  candidates_inv pairs inverse → (idx, emph) ∉ pairs → yields_colour idx emph rgb →
  candidates_inv (pairs ++ [(idx, emph)]) (setdefault_append inverse rgb (idx, emph)).
Proof.
  intros Hinv Hnew Hy rgb' cands Hl. unfold setdefault_append in Hl.
  destruct (decide (rgb = rgb')) as [<-|Hne].
  - rewrite lookup_insert_eq in Hl. injection Hl as <-.
    assert (NoDup (default [] (inverse !! rgb)) ∧
            ∀ i e, (i, e) ∈ default [] (inverse !! rgb) →
                   (i, e) ∈ pairs ∧ yields_colour i e rgb) as [Hnd Hold].
    { destruct (inverse !! rgb) as [old|] eqn:Ho; simpl.
      - destruct (Hinv rgb old Ho) as (_ & ? & ?). done.
      - split; [constructor|]. intros i e Hin. by apply elem_of_nil in Hin. }
    split_and!.
    + intros Happ. by apply app_eq_nil in Happ as [_ ?].
    + apply NoDup_app. split_and!; [done| |apply NoDup_singleton].
      intros [i e] Hin Hin2. apply list_elem_of_singleton in Hin2 as [= -> ->].
      by apply Hold in Hin as [? _].
    + intros i e Hin. apply elem_of_app in Hin as [Hin|Hin].
      * apply Hold in Hin as [? ?]. split; [|done]. apply elem_of_app. by left.
      * apply list_elem_of_singleton in Hin as [= -> ->]. split; [|done].
        apply elem_of_app. right. by apply list_elem_of_singleton.
  - rewrite lookup_insert_ne in Hl by done.
    destruct (Hinv rgb' cands Hl) as (? & ? & Hold). split_and!; [done..|].
    intros i e Hin. apply Hold in Hin as [? ?]. split; [|done].
    apply elem_of_app. by left.
Qed.

Lemma inner_loop_candidates idx base pairs inverse0 inverse :
  MESEN_2C02_64 !! Z.to_nat idx = Some base →
  (∀ e, (idx, e) ∉ pairs) →
  candidates_inv pairs inverse0 →
  for_each (fun inverse emph =>
              rgb ← apply_emphasis base idx emph;
              Ok (setdefault_append inverse rgb (idx, emph)))
           (range 0 8) inverse0 = Ok inverse →
  candidates_inv (pairs ++ map (pair idx) (range 0 8)) inverse.
Proof.
  intros Hbase Hfresh H0 Hrun.
  refine (for_each_visited_at _
            (fun seen inv => candidates_inv (pairs ++ map (pair idx) seen) inv)
            (range 0 8) inverse0 inverse _ _ Hrun); clear Hrun inverse.
  - simpl. by rewrite app_nil_r.
  - intros seen emph rest inv inv' Hxs Hinv Hstep.
    destruct (apply_emphasis base idx emph) as [rgb|] eqn:Hrgb; [|done].
    simpl in Hstep. injection Hstep as <-.
    rewrite map_app, (assoc_L (++)). simpl.
    apply candidates_inv_append; [done| |by exists base].
    intros Hin. apply elem_of_app in Hin as [Hin|Hin]; [by apply Hfresh in Hin|].
    apply list_elem_of_fmap in Hin as (e & [= <-] & Hin).
    pose proof (NoDup_range 0 8) as Hnd. rewrite Hxs in Hnd.
    apply NoDup_app in Hnd as (_ & Hnd & _). apply (Hnd emph Hin).
    by left.
Qed.

Lemma pairs_of_snoc idxs idx :
  pairs_of (idxs ++ [idx]) = pairs_of idxs ++ map (pair idx) (range 0 8).
Proof.
  unfold pairs_of. rewrite bind_app. f_equal.
Qed.

Lemma elem_of_pairs_of idxs idx emph :
  (idx, emph) ∈ pairs_of idxs ↔ idx ∈ idxs ∧ 0 ≤ emph < 8.
Proof.
  unfold pairs_of. rewrite list_elem_of_bind. split.
  - intros (i & Hin & Hi). apply list_elem_of_fmap in Hin as (e & [= -> ->] & He).
    apply elem_of_range in He. done.
  - intros [Hi He]. exists idx. split; [|done].
    apply list_elem_of_fmap. exists emph. split; [done|]. by apply elem_of_range.
Qed.

Lemma outer_loop_candidates lo hi inverse :
  0 ≤ lo →
  for_each (fun inverse idx =>
              base ← item MESEN_2C02_64 idx;
              for_each (fun inverse emph =>
                          rgb ← apply_emphasis base idx emph;
                          Ok (setdefault_append inverse rgb (idx, emph)))
                       (range 0 8) inverse)
           (range lo hi) ∅ = Ok inverse →
  candidates_inv (pairs_of (range lo hi)) inverse.
Proof.
  intros Hlo Hrun.
  refine (for_each_visited_at _ (fun seen inv => candidates_inv (pairs_of seen) inv)
            (range lo hi) ∅ inverse _ _ Hrun); clear Hrun inverse.
  - intros rgb cands Hl. by rewrite lookup_empty in Hl.
  - intros seen idx rest inv inv' Hxs Hinv Hstep.
    assert (0 ≤ idx) as Hidx.
    { assert (idx ∈ range lo hi) as Hin.
      { rewrite Hxs. apply elem_of_app. right. by left. }
      apply elem_of_range in Hin. lia. }
    unfold item in Hstep.
    destruct (subscript (length MESEN_2C02_64) idx) as [j|] eqn:Hs; [|done].
    assert (j = Z.to_nat idx) as ->.
    { unfold subscript in Hs. destruct (Z.ltb_spec idx 0); [lia|].
      destruct ((0 <=? idx) && (idx <? _)); [|done]. by injection Hs as <-. }
    simpl in Hstep.
    destruct (MESEN_2C02_64 !! Z.to_nat idx) as [base|] eqn:Hbase; [|done].
    simpl in Hstep. rewrite pairs_of_snoc.
    apply (inner_loop_candidates idx base _ inv inv' Hbase); [|done..].
    intros e Hin. apply elem_of_pairs_of in Hin as [Hin _].
    pose proof (NoDup_range lo hi) as Hnd. rewrite Hxs in Hnd.
    apply NoDup_app in Hnd as (_ & Hnd & _). apply (Hnd idx Hin). by left.
Qed.

Lemma build_inverse_rgb_map_candidates inverse :
  build_inverse_rgb_map = Ok inverse →
  candidates_inv (pairs_of (range 0 64)) inverse.
Proof.
  unfold build_inverse_rgb_map. apply (outer_loop_candidates 0 64). lia.
Qed.

Lemma build_inverse_rgb_map_lists inverse :
  build_inverse_rgb_map = Ok inverse →
  ∀ idx emph, 0 ≤ idx < 64 → 0 ≤ emph < 8 → listed inverse idx emph.
Proof.
  unfold build_inverse_rgb_map. intros Hrun idx emph Hidx Hemph.
  refine (outer_loop_lists (range 0 64) inverse _ Hrun idx emph _ _).
  - intros i Hi. apply elem_of_range in Hi. lia.
  - by apply elem_of_range.
  - by apply elem_of_range.
Qed.

End InverseCandidates.


(** * Further properties: the palette locator *)

Section PaletteLocatorTotal.

Import PaletteDiff.

Lemma byte_at_total (buf : bytes) z :
  0 ≤ z < Z.of_nat (length buf) → ∃ v, byte_at buf z = Ok v.
Proof.
  intros Hz. unfold byte_at.
  destruct (lookup_lt_is_Some_2 buf (Z.to_nat z)) as [b Hb]; [lia|].
  rewrite (item_in_range buf z b) by (done || lia). simpl. eauto.
Qed.

Lemma pixel_step_total frame rgb24 nidx nemph inverse width u im em i :
  length rgb24 = (3 * length nidx)%nat → length nemph = length nidx →
  width ≠ 0 → 0 ≤ i < Z.of_nat (length nidx) →
  ∃ t, pixel_step frame rgb24 nidx nemph inverse width u im em i = Ok t.
Proof.
  intros Hrgb Hemph Hw Hi. unfold pixel_step.
  destruct (byte_at_total rgb24 (i * 3)) as [r ->]; [lia|].
  destruct (byte_at_total rgb24 (i * 3 + 1)) as [g ->]; [lia|].
  destruct (byte_at_total rgb24 (i * 3 + 2)) as [b ->]; [lia|].
  destruct (byte_at_total nidx i) as [ni Hni]; [lia|].
  destruct (byte_at_total nemph i) as [ne Hne]; [lia|].
  simpl. destruct (inverse !! (r, g, b)) as [[|c cands]|]; [eauto| |eauto].
  rewrite Hni, Hne. simpl.
  destruct (bool_decide _); [eauto|].
  unfold divmod. destruct (Z.eqb_spec width 0); [done|].
  destruct (negb _); simpl; eauto.
Qed.

Lemma pixel_loop_total frame rgb24 nidx nemph inverse width todo :
  length rgb24 = (3 * length nidx)%nat → length nemph = length nidx →
  width ≠ 0 → (∀ i, i ∈ todo → 0 ≤ i < Z.of_nat (length nidx)) →
  ∀ u im em,
    ∃ r, pixel_loop frame rgb24 nidx nemph inverse width u im em todo = Ok r.
Proof.
  intros Hrgb Hemph Hw. induction todo as [|i todo IH]; intros Hin u im em; simpl.
  - eauto.
  - destruct (pixel_step_total frame rgb24 nidx nemph inverse width u im em i)
      as [[u1 im1 em1|f1 u1 im1 em1] ->]; try done.
    + apply Hin. by left.
    + simpl. apply IH. intros j Hj. apply Hin. by right.
    + simpl. eauto.
Qed.

Lemma find_first_mismatch_total frame rgb24 nidx nemph inverse width :
  length rgb24 = (3 * length nidx)%nat → length nemph = length nidx →
  width ≠ 0 ∨ nidx = [] →
  ∃ r, find_first_mismatch frame rgb24 nidx nemph inverse width = Ok r.
Proof.
  intros Hrgb Hemph [Hw| ->]; unfold find_first_mismatch.
  - apply pixel_loop_total; try done. intros i Hi. by apply elem_of_range in Hi.
  - simpl. eauto.
Qed.

Lemma load_rgb24_Ok fs path width height data :
  load_rgb24 fs path width height = Ok data →
  Z.of_nat (length data) = width * height * 3.
Proof.
  unfold load_rgb24, RGB24_BPP. destruct (fs !! path) as [d|]; [|done].
  destruct (Z.eqb_spec (Z.of_nat (length d)) (width * height * 3)); [|done].
  simpl. by intros [= <-].
Qed.

Lemma load_plane_Ok fs path width height data :
  load_plane fs path width height = Ok data →
  Z.of_nat (length data) = width * height.
Proof.
  unfold load_plane. destruct (fs !! path) as [d|]; [|done].
  destruct (Z.eqb_spec (Z.of_nat (length d)) (width * height)); [|done].
  simpl. by intros [= <-].
Qed.

Lemma load_rgb24_raises fs path width height e :
  load_rgb24 fs path width height = Raise e →
  e = FileNotFoundError ∨ e = ValueError.
Proof.
  unfold load_rgb24. destruct (fs !! path); [|intros [= <-]; by left].
  destruct (negb _); [intros [= <-]; by right|done].
Qed.

Lemma load_plane_raises fs path width height e :
  load_plane fs path width height = Raise e →
  e = FileNotFoundError ∨ e = ValueError.
Proof.
  unfold load_plane. destruct (fs !! path); [|intros [= <-]; by left].
  destruct (negb _); [intros [= <-]; by right|done].
Qed.

Lemma frame_result_raises fs args inverse frame e :
  frame_result fs args inverse frame = Raise e →
  e = FileNotFoundError ∨ e = ValueError.
Proof.
  unfold frame_result.
  destruct (negb (bool_decide (is_Some (fs !! dump_path (mesen_prefix args) frame ".rgb24"))));
    [intros [= <-]; by left|].
  destruct (negb (bool_decide (is_Some (fs !! dump_path (nesium_prefix args) frame ".idx8"))));
    [intros [= <-]; by left|].
  destruct (negb (bool_decide (is_Some (fs !! dump_path (nesium_prefix args) frame ".emph8"))));
    [intros [= <-]; by left|].
  destruct (load_rgb24 fs (dump_path (mesen_prefix args) frame ".rgb24")
              (width args) (height args)) as [rgb24|e1] eqn:Hm;
    [simpl|intros [= <-]; by eapply load_rgb24_raises].
  destruct (load_plane fs (dump_path (nesium_prefix args) frame ".idx8")
              (width args) (height args)) as [nidx|e1] eqn:Hi;
    [simpl|intros [= <-]; by eapply load_plane_raises].
  destruct (load_plane fs (dump_path (nesium_prefix args) frame ".emph8")
              (width args) (height args)) as [nemph|e1] eqn:He;
    [simpl|intros [= <-]; by eapply load_plane_raises].
  apply load_rgb24_Ok in Hm. apply load_plane_Ok in Hi, He.
  destruct (find_first_mismatch_total frame rgb24 nidx nemph inverse (width args))
    as [r ->]; [lia|lia| |done].
  destruct (decide (width args = 0)) as [Hw|Hw]; [right|by left].
  rewrite Hw in Hi. apply length_zero_iff_nil. lia.
Qed.

Lemma frames_loop_raises fs args inverse frames :
  ∀ found_any printed e,
    frames_loop fs args inverse frames found_any = (printed, Raise e) →
    e = FileNotFoundError ∨ e = ValueError.
Proof.
  induction frames as [|frame frames IH]; intros found_any printed e H;
    simpl in H; [done|].
  destruct (frame_result fs args inverse frame)
    as [[[[[mismatch|] u] im] em]|e1] eqn:Hf.
  - destruct (frames_loop fs args inverse frames true) as [printed1 r1] eqn:Hrest.
    injection H as <- ->. by eapply IH.
  - destruct (frames_loop fs args inverse frames found_any) as [printed1 r1] eqn:Hrest.
    injection H as <- ->. by eapply IH.
  - injection H as <- <-. by eapply frame_result_raises.
Qed.

Lemma palette_parse_frames_csv_raises value e :
  parse_frames_csv value = Raise e → e = ValueError.
Proof.
  unfold parse_frames_csv.
  destruct (csv_ints value) as [frames|e1] eqn:Hc; simpl.
  - destruct (bool_decide _); [by intros [= <-]|done].
  - intros [= <-]. by eapply csv_ints_raises.
Qed.

End PaletteLocatorTotal.



